(** * Numeric secondary index of the filter subsystem (src/filter/numeric_index.hpp)

    A shallow embedding of [ndd::filter]: the sortable-key codec, the
    [Bucket] structure with its byte (de)serializer, and [NumericIndex]
    over an ordered key/value store modelled as a sorted association list
    of byte keys with an explicit cursor.  Machine integers are [Z] with
    their wrap-around written out. *)

From stdpp Require Import base gmap sets list strings sorting pretty.
From Stdlib Require Import ZArith Lia.

Local Open Scope Z_scope.

(** ** Machine integers *)

Definition u32 (z : Z) : Z := z mod 2^32.

(** [static_cast<int32_t>] of a 32-bit unsigned value (two's complement). *)
Definition to_int32 (u : Z) : Z := if u <? 2^31 then u else u - 2^32.

Definition is_u32 (z : Z) : Prop := 0 <= z < 2^32.
Definition is_i32 (z : Z) : Prop := -2^31 <= z < 2^31.

#[global] Instance is_u32_dec (z : Z) : Decision (is_u32 z).
Proof. unfold is_u32. apply _. Defined.

(** ** Sortable-key utilities (numeric_index.hpp, lines 18-41)

    A [float] is handled through its IEEE-754 bit pattern (the [memcpy]
    into a [uint32_t]), so both codec directions are functions on 32-bit
    patterns. *)
Module Sortable.

(** [uint32_t mask = (int32_t(i) >> 31) | 0x80000000; return i ^ mask;]
    The shift is arithmetic on the signed value. *)
Definition float_to_sortable (i : Z) : Z :=
  let mask := Z.lor (u32 (Z.shiftr (to_int32 i) 31)) 2147483648 in
  Z.lxor i mask.

(** [uint32_t mask = ((i >> 31) - 1) | 0x80000000;] with unsigned
    wrap-around of [0 - 1]. *)
Definition sortable_to_float (i : Z) : Z :=
  let mask := Z.lor (u32 (Z.shiftr i 31 - 1)) 2147483648 in
  Z.lxor i mask.

Definition int_to_sortable (i : Z) : Z := Z.lxor (u32 i) 2147483648.

Definition sortable_to_int (i : Z) : Z := to_int32 (Z.lxor i 2147483648).

(** IEEE-754 binary32 fields of a bit pattern. *)
Definition f_sign (i : Z) : Z := i / 2^31.
Definition f_exp (i : Z) : Z := (i / 2^23) mod 2^8.
Definition f_mant (i : Z) : Z := i mod 2^23.

(** Finite (neither infinite nor NaN): the exponent field is not all ones. *)
Definition f_finite (i : Z) : Prop := f_exp i < 255.

(** Magnitude of a finite pattern, scaled by [2^149] so that it is an
    integer: subnormal [m * 2^-149], normal [(2^23 + m) * 2^(e-150)]. *)
Definition magf (e m : Z) : Z := if e =? 0 then m else (2^23 + m) * 2^(e - 1).

Definition f_magnitude (i : Z) : Z := magf (f_exp i) (f_mant i).

(** The real number denoted by a finite pattern, times [2^149]. *)
Definition f_value (i : Z) : Z :=
  if f_sign i =? 0 then f_magnitude i else - f_magnitude i.

(** IEEE-754 [<] on finite operands: comparison of the denoted reals
    (so [-0.0 < 0.0] is false). *)
Definition f_lt (a b : Z) : Prop := f_value a < f_value b.

End Sortable.

(** ** Errors and the error monad

    The C++ code reports failures by throwing [std::runtime_error]; each
    throw site is one constructor. *)
Inductive error : Type :=
  | InsertBelowBase        (** "Insert value < Base Value" (Bucket::add) *)
  | DeltaOverflow          (** "Delta overflow" (Bucket::add) *)
  | CorruptBitmapSize      (** "Bucket corrupt: invalid bitmap size" *)
  | CorruptTruncatedCount  (** "Bucket corrupt: truncated count" *)
  | CorruptTruncatedData   (** "Bucket corrupt: truncated Data" *)
  | BitmapUnreadable       (** [RoaringBitmap::read] rejects its input *)
  | CursorSyncFail.        (** "Cursor sync fail" (add_to_buckets) *)

(** The spec's [InvariantViolation] and [Corrupt] error kinds. *)
Definition is_invariant_violation (e : error) : bool :=
  match e with InsertBelowBase | DeltaOverflow => true | _ => false end.
Definition is_corrupt (e : error) : bool :=
  match e with
  | CorruptBitmapSize | CorruptTruncatedCount | CorruptTruncatedData => true
  | _ => false
  end.

Inductive result (A : Type) : Type :=
  | Ok (a : A)
  | Err (e : error).
Arguments Ok {A} a.
Arguments Err {A} e.

Notation "x <- m ;; k" :=
  (match m with Ok x => k | Err e => Err e end)
  (at level 100, m at next level, right associativity).

Definition is_ok {A} (r : result A) : bool :=
  match r with Ok _ => true | Err _ => false end.

(** ** Little-endian byte images ([memcpy] of integers on a little-endian host) *)

Definition le16 (x : Z) : list Z := [x mod 256; (x / 256) mod 256].
Definition le32 (x : Z) : list Z :=
  [x mod 256; (x / 2^8) mod 256; (x / 2^16) mod 256; (x / 2^24) mod 256].

(** Reading an integer back from its little-endian bytes. *)
Definition dec_le (bs : list Z) : Z := foldr (fun b acc => b + 256 * acc) 0 bs.

(** [n] consecutive [w]-byte words. *)
Fixpoint dec_words (w n : nat) (bs : list Z) : list Z :=
  match n with
  | O => []
  | S n' => dec_le (take w bs) :: dec_words w n' (drop w bs)
  end.

(** ** The Roaring bitmap library

    The summary bitmap is a [ndd::RoaringBitmap] (an external library);
    its content is a set of ids.  Its serialized form is abstracted as a
    codec: [bm_write] is [write] after [runOptimize] (so [getSizeInBytes]
    is the length of the image), [bm_read] is [read] from a pointer, which
    consumes a prefix of the bytes it is given and may reject them. *)
Class RoaringCodec : Type := {
  bm_write : gset Z -> list Z;
  bm_read : list Z -> option (gset Z);
  bm_read_write : forall (s : gset Z) (rest : list Z),
    (forall x, x ∈ s -> is_u32 x) -> Z.of_nat (size s) < 2^24 ->
    bm_read (bm_write s ++ rest) = Some s;
  bm_write_empty : forall s : gset Z, bm_write s = [] -> s = ∅;
  bm_write_size : forall s : gset Z,
    Z.of_nat (size s) < 2^24 -> Z.of_nat (length (bm_write s)) < 2^32
}.

(** ** Bucket (numeric_index.hpp, lines 44-201) *)
Module Bucket.

Definition MAX_SIZE : nat := 1024.
Definition MAX_DELTA : Z := 65535.

(** [is_dirty] is a runtime flag with no observable effect; it is left out. *)
Record t : Type := mk {
  base_value : Z;
  deltas : list Z;
  ids : list Z;
  summary_bitmap : gset Z
}.

Definition empty (base : Z) : t := mk base [] [] ∅.

(** [get_value(index)]: [base_value + deltas[index]] in [uint32_t]. *)
Definition get_value (b : t) (index : nat) : Z :=
  u32 (base_value b + nth index (deltas b) 0).

(** [std::lower_bound] on a sorted range: first position whose element is
    not less than [x]. *)
Fixpoint lower_bound (l : list Z) (x : Z) : nat :=
  match l with
  | [] => O
  | y :: l' => if y <? x then S (lower_bound l' x) else O
  end.

(** [vector::insert(begin() + i, x)]. *)
Definition insert_at (l : list Z) (i : nat) (x : Z) : list Z :=
  take i l ++ x :: drop i l.

Definition add (b : t) (val id : Z) : result t :=
  if val <? base_value b then Err InsertBelowBase
  else
    let delta_32 := val - base_value b in
    if MAX_DELTA <? delta_32 then Err DeltaOverflow
    else
      let delta := delta_32 in
      let index := lower_bound (deltas b) delta in
      Ok (mk (base_value b)
             (insert_at (deltas b) index delta)
             (insert_at (ids b) index id)
             ({[id]} ∪ summary_bitmap b)).

(** First index holding [id] (the linear scan of [remove]). *)
Fixpoint find_index (l : list Z) (id : Z) : option nat :=
  match l with
  | [] => None
  | x :: l' => if x =? id then Some O else S <$> find_index l' id
  end.

(** [remove(id)]: [None] for [false], [Some b'] for [true] with the new
    bucket. *)
Definition remove (b : t) (id : Z) : option t :=
  match find_index (ids b) id with
  | None => None
  | Some i =>
      Some (mk (base_value b) (delete i (deltas b)) (delete i (ids b))
               (summary_bitmap b ∖ {[id]}))
  end.

(** The (value, id) pairs a bucket holds: [base_value + deltas[i]] with
    [ids[i]]. *)
Definition entries (b : t) : list (Z * Z) :=
  zip_with (fun d i => (base_value b + d, i)) (deltas b) (ids b).

Section Codec.
Context `{RoaringCodec}.

(** Payload: [BitmapSize(4)] [Bitmap] [Count(2)] [Deltas] [IDs]; the
    count is [static_cast<uint16_t>(ids.size())] and only [count]
    deltas and ids are copied. *)
Definition serialize (b : t) : list Z :=
  let bm := bm_write (summary_bitmap b) in
  let bm_size := Z.of_nat (length bm) in
  let count := Z.of_nat (length (ids b)) mod 65536 in
  le32 (u32 bm_size) ++ bm ++ le16 count
    ++ mjoin (le16 <$> take (Z.to_nat count) (deltas b))
    ++ mjoin (le32 <$> take (Z.to_nat count) (ids b)).

Definition deserialize (data : list Z) (base_val : Z) : result t :=
  let len := Z.of_nat (length data) in
  if len <? 6 then Ok (empty base_val)
  else
    let bm_size := dec_le (take 4 data) in
    if len <? 4 + bm_size then Err CorruptBitmapSize
    else
      bitmap <- (if 0 <? bm_size then
                   match bm_read (drop 4 data) with
                   | Some s => Ok s
                   | None => Err BitmapUnreadable
                   end
                 else Ok ∅) ;;
      let p := 4 + bm_size in
      if len <? p + 2 then Err CorruptTruncatedCount
      else
        let count := dec_le (take 2 (drop (Z.to_nat p) data)) in
        if 0 <? count then
          let delta_size := count * 2 in
          let id_size := count * 4 in
          if len <? p + 2 + delta_size + id_size then Err CorruptTruncatedData
          else
            let ds := dec_words 2 (Z.to_nat count) (drop (Z.to_nat (p + 2)) data) in
            let is := dec_words 4 (Z.to_nat count)
                        (drop (Z.to_nat (p + 2 + delta_size)) data) in
            Ok (mk base_val ds is bitmap)
        else Ok (mk base_val [] [] bitmap).
(** [read_summary_bitmap]: the bitmap alone.  The size field is read
    without a length check, so the buffer is taken to hold at least four
    bytes; a size of zero is the empty bitmap. *)
Definition read_summary_bitmap (data : list Z) : result (gset Z) :=
  let bm_size := dec_le (take 4 data) in
  if bm_size =? 0 then Ok ∅
  else
    match bm_read (drop 4 data) with
    | Some s => Ok s
    | None => Err BitmapUnreadable
    end.
End Codec.

End Bucket.

(** ** Key encoding (numeric_index.hpp, lines 212-240) *)
Module Keys.

(** The bytes of a [std::string]. *)
Definition str_bytes (s : string) : list Z :=
  (fun a => Z.of_nat (Ascii.nat_of_ascii a)) <$> String.list_ascii_of_string s.

(** [field + ":" + std::to_string(id)] *)
Definition make_forward_key (field : string) (id : Z) : string :=
  String.append field (String.append ":" (pretty (Z.to_N id))).

(** The four bytes of [__builtin_bswap32(v)] in memory: big-endian [v]. *)
Definition be32 (x : Z) : list Z :=
  [(x / 2^24) mod 256; (x / 2^16) mod 256; (x / 2^8) mod 256; x mod 256].

(** [field + ":"] followed by the big-endian base. *)
Definition make_bucket_key (field : string) (start_val : Z) : list Z :=
  str_bytes field ++ [58] ++ be32 start_val.

Definition dec_be (bs : list Z) : Z := fold_left (fun acc b => acc * 256 + b) bs 0.

(** Last four bytes read big-endian; [0] for a key shorter than four bytes. *)
Definition parse_bucket_key_val (key : list Z) : Z :=
  if (length key <? 4)%nat then 0 else dec_be (drop (length key - 4) key).

(** [key.rfind(p, 0) == 0]: [p] is a prefix of [key]. *)
Fixpoint has_prefix (p key : list Z) : bool :=
  match p, key with
  | [], _ => true
  | x :: p', y :: key' => (x =? y) && has_prefix p' key'
  | _ :: _, [] => false
  end.

Definition field_prefix (field : string) : list Z := str_bytes field ++ [58].

End Keys.

(** ** The ordered key/value store (an MDBX table)

    A table is its list of (key, value) entries in increasing key order
    under MDBX's default comparison (bytewise, a proper prefix first); a
    cursor is an index into that list. *)
Module KV.

Fixpoint key_compare (a b : list Z) : comparison :=
  match a, b with
  | [], [] => Eq
  | [], _ :: _ => Lt
  | _ :: _, [] => Gt
  | x :: a', y :: b' =>
      match Z.compare x y with Eq => key_compare a' b' | c => c end
  end.

Definition store : Type := list (list Z * list Z).

(** [MDBX_SET_RANGE]: the first entry whose key is not less than [k]
    ([None] is [MDBX_NOTFOUND]). *)
Fixpoint set_range (s : store) (k : list Z) : option nat :=
  match s with
  | [] => None
  | (k', _) :: s' =>
      match key_compare k' k with Lt => S <$> set_range s' k | _ => Some O end
  end.

(** [MDBX_SET]: the entry whose key is [k]. *)
Fixpoint find_exact (s : store) (k : list Z) : option nat :=
  match s with
  | [] => None
  | (k', _) :: s' =>
      match key_compare k' k with Eq => Some O | _ => S <$> find_exact s' k end
  end.

(** [MDBX_PREV] from position [i]; a failed move leaves the cursor where
    it was. *)
Definition prev (i : nat) : option nat :=
  match i with O => None | S i' => Some i' end.

(** [MDBX_LAST]. *)
Definition last (s : store) : option nat :=
  match length s with O => None | S n => Some n end.

(** [mdbx_cursor_put(..., MDBX_CURRENT)]: replace the value at the cursor. *)
Definition put_current (s : store) (i : nat) (v : list Z) : store :=
  alter (fun e => (e.1, v)) i s.

(** [mdbx_cursor_del]: delete the entry at the cursor. *)
Definition del_current (s : store) (i : nat) : store := delete i s.

(** [mdbx_put(..., MDBX_UPSERT)]: insert, or replace the value of an equal key. *)
Fixpoint upsert (s : store) (k v : list Z) : store :=
  match s with
  | [] => [(k, v)]
  | (k', v') :: s' =>
      match key_compare k' k with
      | Lt => (k', v') :: upsert s' k v
      | Eq => (k, v) :: s'
      | Gt => (k, v) :: (k', v') :: s'
      end
  end.

End KV.

(** ** NumericIndex (numeric_index.hpp, lines 207-645) *)
Module NumericIndex.
Import Bucket Keys KV.

(** The two tables: [numeric_forward] maps [make_forward_key field id] to
    the stored value (its four bytes read back with [memcpy]), and
    [numeric_inverted] maps bucket keys to bucket payloads. *)
Record state : Type := mkState {
  forward : gmap string Z;
  inverted : store
}.

Definition empty_state : state := mkState ∅ [].

(** *** The slide split of a saturated bucket (add_to_buckets, lines 424-510) *)

(** [while (p < size && p > 0 && deltas[p] == deltas[p-1]) p++;]; the loop
    runs at most [size - p] times. *)
Fixpoint probe_right_go (ds : list Z) (fuel p : nat) : nat :=
  match fuel with
  | O => p
  | S fuel' =>
      if (p <? length ds)%nat && (0 <? p)%nat && (nth p ds 0 =? nth (p - 1) ds 0)
      then probe_right_go ds fuel' (S p) else p
  end.

Definition probe_right (ds : list Z) (p : nat) : nat := probe_right_go ds (length ds - p) p.

(** [while (p > 0 && deltas[p] == deltas[p-1]) p--;] *)
Fixpoint probe_left (ds : list Z) (p : nat) : nat :=
  match p with
  | O => O
  | S p' => if nth p ds 0 =? nth p' ds 0 then probe_left ds p' else p
  end.

(** The cut index [mid_idx]: [deltas.size()] when no value boundary is found. *)
Definition slide_cut (b : Bucket.t) : nat :=
  let mid := (length (ids b) / 2)%nat in
  let pr := probe_right (deltas b) mid in
  if (pr <? length (deltas b))%nat then pr
  else
    let pl := probe_left (deltas b) mid in
    if (0 <? pl)%nat then pl else length (deltas b).

(** [right_b.add(v, id)] for each moved entry, in order. *)
Fixpoint add_all (r : Bucket.t) (es : list (Z * Z)) : result Bucket.t :=
  match es with
  | [] => Ok r
  | (v, id) :: es' => r' <- Bucket.add r v id ;; add_all r' es'
  end.

(** [for (auto pid : b.ids) b.summary_bitmap.add(pid);] from an empty bitmap. *)
Definition bitmap_of (l : list Z) : gset Z := fold_left (fun s pid => {[pid]} ∪ s) l ∅.

(** The split at [cut] followed by the insertion of [(value, id)]: the
    left and the right bucket. *)
Definition split_insert (b : Bucket.t) (cut : nat) (value id : Z) : result (Bucket.t * Bucket.t) :=
  let right0 := Bucket.empty (u32 (base_value b + nth cut (deltas b) 0)) in
  let moved := zip_with (fun d i => (u32 (base_value b + d), i))
                        (drop cut (deltas b)) (drop cut (ids b)) in
  right <- add_all right0 moved ;;
  let left := Bucket.mk (base_value b) (take cut (deltas b)) (take cut (ids b))
                        (bitmap_of (take cut (ids b))) in
  if base_value right <=? value then
    right' <- Bucket.add right value id ;; Ok (left, right')
  else
    left' <- Bucket.add left value id ;; Ok (left', right).

(** *** Bucket lookup shared by [add_to_buckets] and [remove_from_buckets]

    [MDBX_SET_RANGE] on [make_bucket_key(field, value)]; on a hit whose key
    has another field prefix or a base above [value], [MDBX_PREV]; on
    [MDBX_NOTFOUND], [MDBX_LAST].  The cursor position, if any. *)
Definition locate (s : store) (field : string) (value : Z) : option nat :=
  match set_range s (make_bucket_key field value) with
  | Some i =>
      match s !! i with
      | Some (k, _) =>
          if negb (has_prefix (field_prefix field) k) || (value <? parse_bucket_key_val k)
          then prev i else Some i
      | None => None
      end
  | None => last s
  end.

Section WithCodec.
Context `{RoaringCodec}.

Definition add_to_buckets (s : store) (field : string) (value id : Z) : result store :=
  let target :=
    match locate s field value with
    | Some j =>
        match s !! j with
        | Some (k, _) =>
            if has_prefix (field_prefix field) k then
              let tb := parse_bucket_key_val k in
              if (tb <=? value) && (value - tb <=? MAX_DELTA) then Some (k, tb) else None
            else None
        | None => None
        end
    | None => None
    end in
  match target with
  | None =>
      b <- Bucket.add (Bucket.empty value) value id ;;
      Ok (upsert s (make_bucket_key field value) (serialize b))
  | Some (tk, tb) =>
      match find_exact s tk with
      | None => Err CursorSyncFail
      | Some c =>
          let v := match s !! c with Some (_, d) => d | None => [] end in
          b <- deserialize v tb ;;
          if (MAX_SIZE <=? length (ids b))%nat then
            let cut := slide_cut b in
            if (cut =? length (deltas b))%nat then
              b' <- Bucket.add b value id ;;
              Ok (put_current s c (serialize b'))
            else
              lr <- split_insert b cut value id ;;
              let s1 := put_current s c (serialize lr.1) in
              Ok (upsert s1 (make_bucket_key field (base_value lr.2)) (serialize lr.2))
          else
            b' <- Bucket.add b value id ;;
            Ok (put_current s c (serialize b'))
      end
  end.

Definition remove_from_buckets (s : store) (field : string) (value id : Z) : result store :=
  match locate s field value with
  | Some j =>
      match s !! j with
      | Some (k, data) =>
          if has_prefix (field_prefix field) k then
            let bucket_base := parse_bucket_key_val k in
            if bucket_base <=? value then
              b <- deserialize data bucket_base ;;
              match Bucket.remove b id with
              | Some b' =>
                  match ids b' with
                  | [] => Ok (del_current s j)
                  | _ :: _ => Ok (put_current s j (serialize b'))
                  end
              | None => Ok s
              end
            else Ok s
          else Ok s
      | None => Ok s
      end
  | None => Ok s
  end.

(** [put_internal]; [put] runs it in a write transaction, which commits
    its result or, on an error, aborts and leaves the state as it was. *)
Definition put (st : state) (field : string) (id value : Z) : result state :=
  let fk := make_forward_key field id in
  let update (inv : store) :=
    inv' <- add_to_buckets inv field value id ;;
    Ok (mkState (<[fk := value]> (forward st)) inv') in
  match forward st !! fk with
  | Some old =>
      if old =? value then Ok st
      else inv1 <- remove_from_buckets (inverted st) field old id ;; update inv1
  | None => update (inverted st)
  end.

Definition remove (st : state) (field : string) (id : Z) : result state :=
  let fk := make_forward_key field id in
  match forward st !! fk with
  | Some old =>
      inv1 <- remove_from_buckets (inverted st) field old id ;;
      Ok (mkState (delete fk (forward st)) inv1)
  | None => Ok st
  end.

(** One bucket of the range scan: the summary bitmap on full overlap,
    otherwise the entries whose value lies in [min_val, max_val]. *)
Definition scan_bucket (b : Bucket.t) (min_val max_val : Z) (acc : gset Z) : gset Z :=
  match ids b with
  | [] => acc
  | _ :: _ =>
      let b_min := get_value b 0 in
      let b_max := get_value b (length (ids b) - 1) in
      if (min_val <=? b_min) && (b_max <=? max_val) then summary_bitmap b ∪ acc
      else
        fold_left (fun acc i =>
                     let v := get_value b i in
                     if (min_val <=? v) && (v <=? max_val) then {[nth i (ids b) 0]} ∪ acc
                     else acc)
                  (seq 0 (length (ids b))) acc
  end.

(** The forward iteration: [cur] is the current key and data, [rest] the
    entries [MDBX_NEXT] visits after it. *)
Fixpoint range_loop (field : string) (min_val max_val : Z) (cur : list Z * list Z)
    (rest : store) (acc : gset Z) : result (gset Z) :=
  let key := cur.1 in
  if negb (has_prefix (field_prefix field) key) then Ok acc
  else
    let bucket_base := parse_bucket_key_val key in
    if max_val <? bucket_base then Ok acc
    else
      b <- deserialize cur.2 bucket_base ;;
      let acc' := scan_bucket b min_val max_val acc in
      match rest with
      | [] => Ok acc'
      | nxt :: rest' => range_loop field min_val max_val nxt rest' acc'
      end.

(** The start of the scan: the cursor position and the current key and
    data.  After a successful [MDBX_PREV] onto another field the cursor has
    moved but [key] and [data] still hold the entry found first. *)
Definition range_start (s : store) (field : string) (min_val : Z)
    : option (nat * (list Z * list Z)) :=
  let pfx := field_prefix field in
  match set_range s (make_bucket_key field min_val) with
  | Some i =>
      match s !! i with
      | Some e =>
          if negb (has_prefix pfx e.1) || (min_val <? parse_bucket_key_val e.1) then
            match prev i with
            | Some p =>
                match s !! p with
                | Some pe => if has_prefix pfx pe.1 then Some (p, pe) else Some (p, e)
                | None => Some (i, e)
                end
            | None => Some (i, e)
            end
          else Some (i, e)
      | None => None
      end
  | None =>
      match last s with
      | Some l =>
          match s !! l with
          | Some e =>
              if (0 <? length e.2)%nat && has_prefix pfx e.1 then Some (l, e) else None
          | None => None
          end
      | None => None
      end
  end.

Definition range (st : state) (field : string) (min_val max_val : Z) : result (gset Z) :=
  match range_start (inverted st) field min_val with
  | Some (c, e) => range_loop field min_val max_val e (drop (S c) (inverted st)) ∅
  | None => Ok ∅
  end.

End WithCodec.

(** [check_range]: the forward value of [(field, id)], if any, lies in
    [min_val, max_val].  The read transaction is taken to start. *)
Definition check_range (st : state) (field : string) (id min_val max_val : Z) : bool :=
  match forward st !! make_forward_key field id with
  | Some v => (min_val <=? v) && (v <=? max_val)
  | None => false
  end.

End NumericIndex.

(** ** Reachable states *)
Module Traces.
Import NumericIndex.

Section WithCodec.
Context `{RoaringCodec}.

(** The states a sequence of committed [put] and [remove] calls with
    [uint32_t] ids and values leads to from the empty index; a call that
    fails aborts its transaction and leaves the state as it was. *)
Inductive reachable : state -> Prop :=
| reach_init : reachable empty_state
| reach_put (st st' : state) (field : string) (id value : Z) :
    reachable st -> is_u32 id -> is_u32 value -> put st field id value = Ok st' -> reachable st'
| reach_remove (st st' : state) (field : string) (id : Z) :
    reachable st -> is_u32 id -> remove st field id = Ok st' -> reachable st'.

(** The same, for calls on the one field [field] with ids from [I]. *)
Inductive reachable_on (field : string) (I : gset Z) : state -> Prop :=
| ro_init : reachable_on field I empty_state
| ro_put (st st' : state) (id value : Z) :
    reachable_on field I st -> id ∈ I -> is_u32 value -> put st field id value = Ok st' ->
    reachable_on field I st'
| ro_remove (st st' : state) (id : Z) :
    reachable_on field I st -> id ∈ I -> remove st field id = Ok st' -> reachable_on field I st'.

(** A sequence of [put(field, id, value)] calls. *)
Fixpoint run_from (st : state) (ops : list (string * Z * Z)) : result state :=
  match ops with
  | [] => Ok st
  | (field, id, value) :: ops' => st' <- put st field id value ;; run_from st' ops'
  end.

Definition run (ops : list (string * Z * Z)) : result state := run_from empty_state ops.

(** [n] puts of the same value on one field, with the ids [0 .. n-1]. *)
Definition same_value_ops (field : string) (value : Z) (n : nat) : list (string * Z * Z) :=
  (fun i => (field, Z.of_nat i, value)) <$> seq 0 n.

End WithCodec.
End Traces.


(** ** Forward/inverted consistency *)
Module Consistency.
Import Bucket Keys NumericIndex.
Section WithCodec.
Context `{RoaringCodec}.

(** The bucket an inverted entry holds for [field]: its key is
    [make_bucket_key(field, base)] for the base read back from the key,
    and its payload deserializes at that base. *)
Definition field_bucket (field : string) (e : list Z * list Z) : option Bucket.t :=
  let base := parse_bucket_key_val e.1 in
  if decide (e.1 = make_bucket_key field base) then
    match deserialize e.2 base with Ok b => Some b | Err _ => None end
  else None.

(** Every id of [field] with forward value [v] is held by exactly one
    bucket of [field], whose base is at most [v], at a position whose
    delta is [v - base]. *)
Definition consistent (st : state) (field : string) : Prop :=
  forall id v, is_u32 id -> forward st !! make_forward_key field id = Some v ->
    exists e b, e ∈ inverted st /\ field_bucket field e = Some b /\ base_value b <= v /\
      (exists i, ids b !! i = Some id /\ deltas b !! i = Some (v - base_value b)) /\
      (forall e' b', e' ∈ inverted st -> field_bucket field e' = Some b' -> id ∈ ids b' -> e' = e).

End WithCodec.
End Consistency.

(** ** Sample buckets used to run the model on concrete inputs *)
Module Samples.
Import Bucket.

(** Four entries with values 100, 105, 105, 109. *)
Definition small : Bucket.t := mk 100 [0; 5; 5; 9] [1; 2; 3; 4] (list_to_set [1; 2; 3; 4]).

(** [n] consecutive ids from [start]. *)
Fixpoint id_run (start : Z) (n : nat) : list Z :=
  match n with O => [] | S n' => start :: id_run (start + 1) n' end.

(** 65536 entries of the single value 42 (ids 0 .. 65535). *)
Definition big : Bucket.t :=
  mk 42 (repeat 0 (Z.to_nat 65536)) (id_run 0 (Z.to_nat 65536))
     (list_to_set (id_run 0 (Z.to_nat 65536))).

(** A saturated bucket of two runs: 600 deltas 0, then 424 deltas 7. *)
Definition two_runs : Bucket.t :=
  mk 10 (repeat 0 600 ++ repeat 7 424) (id_run 0 1024) (list_to_set (id_run 0 1024)).

(** Two buckets of one field: [low] holds the value 42 (id 2), [high] the
    values 100000 and 100005 (ids 1 and 3). *)
Definition low : Bucket.t := mk 42 [0] [2] (list_to_set [2]).
Definition high : Bucket.t := mk 100000 [0; 5] [1; 3] (list_to_set [1; 3]).

(** Puts on the field [y] that build two buckets: 42 lies below the base
    of the first bucket, 100005 goes into it. *)
Definition trace_y : list (string * Z * Z) :=
  [("y"%string, 1, 100000); ("y"%string, 2, 42); ("y"%string, 3, 100005)].

Definition ids_y : gset Z := list_to_set [1; 2; 3; 4].

End Samples.

(* ================================================================= *)
(** * Proofs *)

(** ** Sortable-key codec *)
Module SortableFacts.
Import Sortable.

Lemma lxor_ones32 (x : Z) : 0 <= x < 2^32 -> Z.lxor x (2^32 - 1) = 2^32 - 1 - x.
Proof.
  intros Hx.
  assert (Hl : x = 0 \/ Z.log2 x < 32).
  { destruct (Z.eq_dec x 0) as [->|Hn]; [now left|right].
    apply Z.log2_lt_pow2; lia. }
  replace (2^32 - 1) with (Z.ones 32) by reflexivity.
  rewrite Z.sub_nocarry_ldiff.
  - symmetry. apply Z.ldiff_ones_l_low; [lia|]. destruct Hl as [->|]; [reflexivity|lia].
  - apply Z.ldiff_ones_r_low; [lia|]. destruct Hl as [->|]; [reflexivity|lia].
Qed.

Lemma lxor_sign_low (l : Z) : 0 <= l < 2^31 -> Z.lxor l (2^31) = l + 2^31.
Proof.
  intros Hl. symmetry. apply Z.add_nocarry_lxor.
  apply Z.bits_inj'. intros n Hn. rewrite Z.land_spec, Z.bits_0.
  rewrite Z.pow2_bits_eqb by lia.
  destruct (Z.eqb_spec 31 n) as [<-|]; [|apply andb_false_r].
  rewrite andb_true_r.
  destruct (Z.eq_dec l 0) as [->|Hn0]; [reflexivity|].
  apply Z.bits_above_log2; [lia|].
  apply Z.log2_lt_pow2; lia.
Qed.

Lemma lxor_sign_high (x : Z) : 2^31 <= x < 2^32 -> Z.lxor x (2^31) = x - 2^31.
Proof.
  intros Hx.
  replace x with (Z.lxor (x - 2^31) (2^31)) at 1 by (rewrite lxor_sign_low; lia).
  rewrite Z.lxor_assoc, Z.lxor_nilpotent, Z.lxor_0_r. reflexivity.
Qed.

Lemma float_to_sortable_eq (i : Z) : is_u32 i ->
  float_to_sortable i = if i <? 2^31 then i + 2^31 else 2^32 - 1 - i.
Proof.
  unfold is_u32, float_to_sortable, to_int32, u32. intros Hi.
  destruct (Z.ltb_spec i (2^31)).
  - rewrite Z.shiftr_div_pow2 by lia.
    rewrite (Z.div_small i) by lia. simpl.
    apply lxor_sign_low; lia.
  - rewrite Z.shiftr_div_pow2 by lia.
    replace ((i - 2^32) / 2^31) with (-1).
    2:{ apply Z.div_unique with (r := i - 2^31); lia. }
    apply lxor_ones32; lia.
Qed.

Lemma sortable_to_float_eq (i : Z) : is_u32 i ->
  sortable_to_float i = if i <? 2^31 then 2^32 - 1 - i else i - 2^31.
Proof.
  unfold is_u32, sortable_to_float, u32. intros Hi.
  rewrite Z.shiftr_div_pow2 by lia.
  destruct (Z.ltb_spec i (2^31)).
  - rewrite (Z.div_small i) by lia. simpl.
    apply lxor_ones32; lia.
  - replace (i / 2^31) with 1 by (apply Z.div_unique with (r := i - 2^31); lia).
    simpl. apply lxor_sign_high; lia.
Qed.

Lemma int_to_sortable_eq (i : Z) : is_i32 i -> int_to_sortable i = i + 2^31.
Proof.
  unfold is_i32, int_to_sortable, u32. intros Hi.
  destruct (Z.ltb_spec i 0).
  - replace (i mod 2^32) with (i + 2^32)
      by (apply Z.mod_unique with (q := -1); lia).
    rewrite lxor_sign_high; lia.
  - rewrite Z.mod_small by lia. apply lxor_sign_low; lia.
Qed.

Lemma int_sortable_roundtrip_eq (i : Z) : is_i32 i -> sortable_to_int (int_to_sortable i) = i.
Proof.
  intros Hi. rewrite int_to_sortable_eq by exact Hi. unfold is_i32 in Hi.
  unfold sortable_to_int, to_int32.
  destruct (Z.ltb_spec i 0).
  - rewrite lxor_sign_low by lia.
    destruct (Z.ltb_spec (i + 2^31 + 2^31) (2^31)); lia.
  - rewrite lxor_sign_high by lia.
    destruct (Z.ltb_spec (i + 2^31 - 2^31) (2^31)); lia.
Qed.

(** Field decomposition of a 32-bit pattern. *)
Lemma pattern_decomp (a : Z) : is_u32 a ->
  a = 2^31 * f_sign a + 2^23 * f_exp a + f_mant a /\
  0 <= f_sign a <= 1 /\ 0 <= f_exp a < 2^8 /\ 0 <= f_mant a < 2^23.
Proof.
  unfold is_u32, f_sign, f_exp, f_mant. intros Ha.
  pose proof (Z.div_mod a (2^23) ltac:(lia)) as Hq.
  pose proof (Z.mod_pos_bound a (2^23) ltac:(lia)) as Hm.
  pose proof (Z.div_mod (a / 2^23) (2^8) ltac:(lia)) as He.
  pose proof (Z.mod_pos_bound (a / 2^23) (2^8) ltac:(lia)) as Hem.
  set (q := a / 2^23) in *. set (m := a mod 2^23) in *.
  set (e := q mod 2^8) in *.
  assert (Hs : a / 2^31 = q / 2^8).
  { symmetry. apply Z.div_unique with (r := 2^23 * e + m); lia. }
  rewrite Hs.
  assert (0 <= q / 2^8 <= 1).
  { split; [apply Z.div_pos; lia|].
    apply Z.lt_succ_r, Z.div_lt_upper_bound; lia. }
  repeat split; lia.
Qed.

Lemma magf_nonneg (e m : Z) : 0 <= e -> 0 <= m -> 0 <= magf e m.
Proof.
  unfold magf. intros. destruct (Z.eqb_spec e 0); [lia|].
  apply Z.mul_nonneg_nonneg; [lia|apply Z.pow_nonneg; lia].
Qed.

Lemma magf_zero (e m : Z) : 0 <= e -> 0 <= m -> magf e m = 0 -> e = 0 /\ m = 0.
Proof.
  unfold magf. intros He Hm H. destruct (Z.eqb_spec e 0); [lia|].
  assert (0 < 2^(e-1)) by (apply Z.pow_pos_nonneg; lia). nia.
Qed.

Lemma magf_mono (e1 m1 e2 m2 : Z) :
  0 <= e1 -> 0 <= e2 -> 0 <= m1 < 2^23 -> 0 <= m2 < 2^23 ->
  2^23 * e1 + m1 < 2^23 * e2 + m2 -> magf e1 m1 < magf e2 m2.
Proof.
  unfold magf. intros He1 He2 Hm1 Hm2 Hlt.
  destruct (Z.lt_trichotomy e1 e2) as [Hlt'|[<-|Hgt]]; [| |lia].
  - assert (He2' : e2 <> 0) by lia.
    rewrite (proj2 (Z.eqb_neq e2 0) He2').
    assert (Hp2 : 2^e1 <= 2^(e2 - 1)) by (apply Z.pow_le_mono_r; lia).
    destruct (Z.eqb_spec e1 0) as [->|He1'].
    + assert (0 < 2^(e2-1)) by (apply Z.pow_pos_nonneg; lia). nia.
    + replace (2^e1) with (2 * 2^(e1 - 1)) in Hp2
        by (rewrite <- Z.pow_succ_r by lia; f_equal; lia).
      assert (0 < 2^(e1-1)) by (apply Z.pow_pos_nonneg; lia). nia.
  - destruct (Z.eqb_spec e1 0); [lia|].
    assert (0 < 2^(e1-1)) by (apply Z.pow_pos_nonneg; lia). nia.
Qed.

Lemma f_value_eq (a : Z) :
  f_value a = if f_sign a =? 0 then magf (f_exp a) (f_mant a)
              else - magf (f_exp a) (f_mant a).
Proof. reflexivity. Qed.

Lemma float_order (a b : Z) : is_u32 a -> is_u32 b ->
  float_to_sortable a < float_to_sortable b <->
  f_value a < f_value b \/ (a = 2^31 /\ b = 0).
Proof.
  intros Ha Hb.
  rewrite (float_to_sortable_eq a Ha), (float_to_sortable_eq b Hb).
  rewrite !f_value_eq.
  destruct (pattern_decomp a Ha) as (Da & Sa & Ea & Ma).
  destruct (pattern_decomp b Hb) as (Db & Sb & Eb & Mb).
  set (sa := f_sign a) in *. set (ea := f_exp a) in *. set (ma := f_mant a) in *.
  set (sb := f_sign b) in *. set (eb := f_exp b) in *. set (mb := f_mant b) in *.
  clearbody sa ea ma sb eb mb.
  pose proof (magf_nonneg ea ma ltac:(lia) ltac:(lia)).
  pose proof (magf_nonneg eb mb ltac:(lia) ltac:(lia)).
  assert (Za : magf ea ma = 0 -> ea = 0 /\ ma = 0) by (apply magf_zero; lia).
  assert (Zb : magf eb mb = 0 -> eb = 0 /\ mb = 0) by (apply magf_zero; lia).
  assert (Za' : ea = 0 -> ma = 0 -> magf ea ma = 0) by (intros -> ->; reflexivity).
  assert (Zb' : eb = 0 -> mb = 0 -> magf eb mb = 0) by (intros -> ->; reflexivity).
  assert (Hcmp : (2^23 * ea + ma < 2^23 * eb + mb /\ magf ea ma < magf eb mb) \/
                 (2^23 * eb + mb < 2^23 * ea + ma /\ magf eb mb < magf ea ma) \/
                 (ea = eb /\ ma = mb /\ magf ea ma = magf eb mb)).
  { destruct (Z.lt_trichotomy (2^23 * ea + ma) (2^23 * eb + mb)) as [L|[E|G]].
    - left. split; [exact L|]. apply magf_mono; lia.
    - right; right. assert (ea = eb) by lia. assert (ma = mb) by lia.
      repeat split; [lia|lia|]. rewrite H1, H2. reflexivity.
    - right; left. split; [exact G|]. apply magf_mono; lia. }
  assert (sa = 0 \/ sa = 1) as [Hsa|Hsa] by lia;
  assert (sb = 0 \/ sb = 1) as [Hsb|Hsb] by lia;
  rewrite Hsa, Hsb; simpl;
  destruct (Z.ltb_spec a (2^31)); destruct (Z.ltb_spec b (2^31)); try lia;
  destruct Hcmp as [[? ?]|[[? ?]|(? & ? & ?)]]; split; intros; try lia;
  destruct (Z.eq_dec (magf ea ma) 0) as [E1|E1];
  destruct (Z.eq_dec (magf eb mb) 0) as [E2|E2];
  try (destruct (Za E1)); try (destruct (Zb E2)); lia.
Qed.

Lemma float_sortable_roundtrip_eq (f : Z) : is_u32 f ->
  sortable_to_float (float_to_sortable f) = f.
Proof.
  intros Hf. rewrite float_to_sortable_eq by exact Hf. unfold is_u32 in Hf.
  destruct (Z.ltb_spec f (2^31)).
  - rewrite sortable_to_float_eq by (unfold is_u32; lia).
    destruct (Z.ltb_spec (f + 2^31) (2^31)); lia.
  - rewrite sortable_to_float_eq by (unfold is_u32; lia).
    destruct (Z.ltb_spec (2^32 - 1 - f) (2^31)); lia.
Qed.

Lemma int_order (i j : Z) : is_i32 i -> is_i32 j ->
  i < j <-> int_to_sortable i < int_to_sortable j.
Proof.
  intros Hi Hj. rewrite (int_to_sortable_eq i Hi), (int_to_sortable_eq j Hj). lia.
Qed.

(** C5 (as stated): the float half of the order equivalence fails at the
    signed zeros: [-0.0] (pattern [0x80000000]) and [+0.0] (pattern [0])
    are finite and not ordered by [<], yet their codes are. *)
Lemma C5_signed_zero_counterexample :
  ~ (forall a b : Z, is_u32 a -> is_u32 b -> f_finite a -> f_finite b ->
       float_to_sortable a < float_to_sortable b <-> f_lt a b).
Proof.
  intros H.
  assert (Hi : float_to_sortable 2147483648 < float_to_sortable 0 <->
               f_lt 2147483648 0).
  { apply H; try (unfold is_u32; lia); unfold f_finite; vm_compute; reflexivity. }
  destruct Hi as [Hi _]. unfold f_lt in Hi.
  specialize (Hi ltac:(vm_compute; reflexivity)).
  vm_compute in Hi. discriminate.
Qed.

(** C5 (amended): decoding inverts encoding bit-exactly for every 32-bit
    float pattern and every [int32]; on finite floats the codes are ordered
    exactly as the values, except that [-0.0] and [+0.0] (equal values)
    receive adjacent codes with the code of [-0.0] below; the [int32]
    encoding is strictly order-preserving and reflecting. *)
Theorem C5_sortable_codec :
  (forall f : Z, is_u32 f -> f_finite f ->
     sortable_to_float (float_to_sortable f) = f) /\
  (forall a b : Z, is_u32 a -> is_u32 b -> f_finite a -> f_finite b ->
     float_to_sortable a < float_to_sortable b <->
     f_lt a b \/ (a = 2147483648 /\ b = 0)) /\
  (forall i : Z, is_i32 i -> sortable_to_int (int_to_sortable i) = i) /\
  (forall i j : Z, is_i32 i -> is_i32 j ->
     i < j <-> int_to_sortable i < int_to_sortable j).
Proof.
  split; [|split; [|split]].
  - intros f Hf _. apply float_sortable_roundtrip_eq, Hf.
  - intros a b Ha Hb _ _. apply float_order; assumption.
  - apply int_sortable_roundtrip_eq.
  - apply int_order.
Qed.

Lemma C5_sortable_codec_witness :
  sortable_to_float (float_to_sortable 3212836864) = 3212836864 /\
  (float_to_sortable 3217031168 < float_to_sortable 1065353216 <->
     f_lt 3217031168 1065353216 \/ (3217031168 = 2147483648 /\ 1065353216 = 0)) /\
  sortable_to_int (int_to_sortable (-7)) = -7 /\
  (-7 < 5 <-> int_to_sortable (-7) < int_to_sortable 5).
Proof.
  destruct C5_sortable_codec as (H1 & H2 & H3 & H4).
  split; [|split; [|split]].
  - apply H1; [unfold is_u32; lia|unfold f_finite; vm_compute; reflexivity].
  - apply H2; try (unfold is_u32; lia); unfold f_finite; vm_compute; reflexivity.
  - apply H3; unfold is_i32; lia.
  - apply H4; unfold is_i32; lia.
Defined.

End SortableFacts.

(** ** Byte images *)
Module BytesFacts.

Lemma dec_le_le16 (x : Z) : 0 <= x < 2^16 -> dec_le (le16 x) = x.
Proof.
  intros Hx. unfold dec_le, le16; simpl.
  pose proof (Z.div_mod x 256 ltac:(lia)).
  pose proof (Z.mod_pos_bound x 256 ltac:(lia)).
  assert (0 <= x / 256 < 256).
  { split; [apply Z.div_pos; lia|apply Z.div_lt_upper_bound; lia]. }
  rewrite (Z.mod_small (x / 256)) by lia. lia.
Qed.

Lemma dec_le_le32 (x : Z) : 0 <= x < 2^32 -> dec_le (le32 x) = x.
Proof.
  intros Hx. unfold dec_le, le32; simpl.
  replace (2^16) with (2^8 * 2^8) by reflexivity.
  replace (2^24) with (2^8 * 2^8 * 2^8) by reflexivity.
  rewrite <- !Z.div_div by lia.
  set (q1 := x / 2^8). set (q2 := q1 / 2^8). set (q3 := q2 / 2^8).
  assert (E1 : x = 2^8 * q1 + x mod 2^8) by (apply Z.div_mod; lia).
  assert (E2 : q1 = 2^8 * q2 + q1 mod 2^8) by (apply Z.div_mod; lia).
  assert (E3 : q2 = 2^8 * q3 + q2 mod 2^8) by (apply Z.div_mod; lia).
  pose proof (Z.mod_pos_bound x (2^8) ltac:(lia)).
  pose proof (Z.mod_pos_bound q1 (2^8) ltac:(lia)).
  pose proof (Z.mod_pos_bound q2 (2^8) ltac:(lia)).
  assert (0 <= q1) by (apply Z.div_pos; lia).
  assert (0 <= q2) by (apply Z.div_pos; lia).
  assert (0 <= q3 < 256) by (split; [apply Z.div_pos|]; lia).
  rewrite (Z.mod_small q3 256) by lia.
  change (2^8) with 256 in *. lia.
Qed.

Lemma dec_words_le16 (l rest : list Z) :
  Forall (fun d => 0 <= d < 2^16) l ->
  dec_words 2 (length l) (mjoin (le16 <$> l) ++ rest) = l.
Proof.
  induction 1 as [|x l Hx Hl IH]; [reflexivity|].
  change (length (x :: l)) with (S (length l)).
  change (mjoin (le16 <$> x :: l)) with (le16 x ++ mjoin (le16 <$> l)).
  cbn [dec_words]. rewrite <- app_assoc.
  rewrite take_app_length' by reflexivity. rewrite drop_app_length' by reflexivity.
  rewrite dec_le_le16 by exact Hx. f_equal. exact IH.
Qed.

Lemma dec_words_le32 (l rest : list Z) :
  Forall is_u32 l ->
  dec_words 4 (length l) (mjoin (le32 <$> l) ++ rest) = l.
Proof.
  induction 1 as [|x l Hx Hl IH]; [reflexivity|].
  change (length (x :: l)) with (S (length l)).
  change (mjoin (le32 <$> x :: l)) with (le32 x ++ mjoin (le32 <$> l)).
  cbn [dec_words]. rewrite <- app_assoc.
  rewrite take_app_length' by reflexivity. rewrite drop_app_length' by reflexivity.
  rewrite dec_le_le32 by exact Hx. f_equal. exact IH.
Qed.

Lemma length_join_le16 (l : list Z) : length (mjoin (le16 <$> l)) = (2 * length l)%nat.
Proof.
  induction l as [|x l IH]; [reflexivity|].
  change (mjoin (le16 <$> x :: l)) with (le16 x ++ mjoin (le16 <$> l)).
  rewrite length_app, IH. simpl. lia.
Qed.

Lemma length_join_le32 (l : list Z) : length (mjoin (le32 <$> l)) = (4 * length l)%nat.
Proof.
  induction l as [|x l IH]; [reflexivity|].
  change (mjoin (le32 <$> x :: l)) with (le32 x ++ mjoin (le32 <$> l)).
  rewrite length_app, IH. simpl. lia.
Qed.

End BytesFacts.

(** ** Bucket serialization *)
Module BucketCodecFacts.
Import Bucket BytesFacts.

Lemma size_list_to_set_le (l : list Z) : (size (list_to_set l : gset Z) <= length l)%nat.
Proof.
  induction l as [|x l IH]; [rewrite list_to_set_nil, size_empty; simpl; lia|].
  rewrite list_to_set_cons, size_union_alt, size_singleton. simpl.
  pose proof (subseteq_size (list_to_set l ∖ {[x]} : gset Z) (list_to_set l)
                ltac:(set_solver)). lia.
Qed.

Section WithCodec.
Context `{RoaringCodec}.

Lemma length_dec_words (w n : nat) (bs : list Z) : length (dec_words w n bs) = n.
Proof. revert bs. induction n as [|n IH]; intros bs; simpl; [reflexivity|by rewrite IH]. Qed.

(** What [deserialize] recovers from a serialized bucket of any size: the
    first [ids.size() mod 2^16] entries, with the full summary bitmap. *)
Lemma deserialize_serialize_gen (b : Bucket.t) :
  length (deltas b) = length (ids b) ->
  Forall (fun d => 0 <= d <= MAX_DELTA) (deltas b) ->
  Forall is_u32 (ids b) ->
  summary_bitmap b = list_to_set (ids b) ->
  Z.of_nat (length (ids b)) < 2^24 ->
  let m := Z.to_nat (Z.of_nat (length (ids b)) mod 65536) in
  deserialize (serialize b) (base_value b) =
    Ok (mk (base_value b) (take m (deltas b)) (take m (ids b)) (summary_bitmap b)).
Proof.
  destruct b as [base ds0 is0 bm]; cbn [deltas ids summary_bitmap base_value].
  intros Hlen Hds0 His0 Hbm Hn.
  set (m := Z.to_nat (Z.of_nat (length is0) mod 65536)).
  assert (Hbmu : forall x, x ∈ bm -> is_u32 x).
  { intros x Hx. rewrite Hbm, elem_of_list_to_set in Hx.
    exact (proj1 (Forall_forall _ _) His0 x Hx). }
  assert (Hbsz' : Z.of_nat (size bm) < 2^24).
  { rewrite Hbm. pose proof (size_list_to_set_le is0). lia. }
  assert (Hbsz : Z.of_nat (length (bm_write bm)) < 2^32) by (apply bm_write_size; exact Hbsz').
  unfold serialize, deserialize. cbv beta zeta. cbn [deltas ids summary_bitmap base_value].
  fold m.
  assert (Hm : (m <= length is0)%nat).
  { unfold m. pose proof (Z.mod_le (Z.of_nat (length is0)) 65536 ltac:(lia) ltac:(lia)). lia. }
  assert (Hcm : Z.of_nat (length is0) mod 65536 = Z.of_nat m).
  { unfold m. rewrite Z2Nat.id; [reflexivity|]. apply Z.mod_pos_bound. lia. }
  assert (Hm16 : Z.of_nat m < 65536).
  { rewrite <- Hcm. apply Z.mod_pos_bound. lia. }
  rewrite Hcm.
  set (ds := take m ds0). set (is := take m is0).
  assert (Hlds : length ds = m) by (unfold ds; rewrite length_take; lia).
  assert (Hlis : length is = m) by (unfold is; rewrite length_take; lia).
  assert (Hds : Forall (fun d => 0 <= d <= MAX_DELTA) ds) by (apply Forall_take, Hds0).
  assert (His : Forall is_u32 is) by (apply Forall_take, His0).
  clearbody ds is.
  set (BM := bm_write bm) in *.
  unfold u32. rewrite (Z.mod_small (Z.of_nat (length BM))) by lia.
  set (D := mjoin (le16 <$> ds)). set (I := mjoin (le32 <$> is)).
  assert (HD : length D = (2 * m)%nat) by (unfold D; rewrite length_join_le16; lia).
  assert (HI : length I = (4 * m)%nat) by (unfold I; rewrite length_join_le32; lia).
  set (data := le32 (Z.of_nat (length BM)) ++ BM ++ le16 (Z.of_nat m) ++ D ++ I).
  assert (Hlen_data : Z.of_nat (length data) = 6 + Z.of_nat (length BM) + 6 * Z.of_nat m).
  { unfold data. rewrite !length_app, HD, HI. simpl. lia. }
  rewrite Hlen_data.
  replace (6 + Z.of_nat (length BM) + 6 * Z.of_nat m <? 6) with false
    by (symmetry; apply Z.ltb_ge; lia).
  assert (Htake4 : take 4 data = le32 (Z.of_nat (length BM)))
    by (unfold data; apply take_app_length'; reflexivity).
  rewrite Htake4, dec_le_le32 by lia.
  replace (6 + Z.of_nat (length BM) + 6 * Z.of_nat m <? 4 + Z.of_nat (length BM))
    with false by (symmetry; apply Z.ltb_ge; lia).
  assert (Hdrop4 : drop 4 data = BM ++ le16 (Z.of_nat m) ++ D ++ I)
    by (unfold data; apply drop_app_length'; reflexivity).
  assert (Hbitmap : (if 0 <? Z.of_nat (length BM) then
                       match bm_read (drop 4 data) with
                       | Some s => Ok s | None => Err BitmapUnreadable end
                     else Ok ∅) = Ok bm).
  { destruct (Z.ltb_spec 0 (Z.of_nat (length BM))).
    - rewrite Hdrop4. unfold BM. rewrite bm_read_write; [reflexivity|exact Hbmu|exact Hbsz'].
    - assert (BM = []) as HBM by (destruct BM; [reflexivity|simpl in *; lia]).
      rewrite (bm_write_empty bm HBM). reflexivity. }
  rewrite Hbitmap.
  replace (6 + Z.of_nat (length BM) + 6 * Z.of_nat m <? 4 + Z.of_nat (length BM) + 2)
    with false by (symmetry; apply Z.ltb_ge; lia).
  assert (Hdrop_p : drop (Z.to_nat (4 + Z.of_nat (length BM))) data = le16 (Z.of_nat m) ++ D ++ I).
  { unfold data. rewrite app_assoc. apply drop_app_length'.
    rewrite length_app. simpl. lia. }
  rewrite Hdrop_p.
  rewrite take_app_length' by reflexivity.
  rewrite dec_le_le16 by lia.
  destruct (Z.ltb_spec 0 (Z.of_nat m)) as [Hpos|Hzero].
  - replace (6 + Z.of_nat (length BM) + 6 * Z.of_nat m <?
             4 + Z.of_nat (length BM) + 2 + Z.of_nat m * 2 + Z.of_nat m * 4)
      with false by (symmetry; apply Z.ltb_ge; lia).
    assert (Hdrop_d : drop (Z.to_nat (4 + Z.of_nat (length BM) + 2)) data = D ++ I).
    { unfold data. rewrite (app_assoc (le32 _)), (app_assoc _ (le16 _)).
      apply drop_app_length'. rewrite !length_app. simpl. lia. }
    assert (Hdrop_i : drop (Z.to_nat (4 + Z.of_nat (length BM) + 2 + Z.of_nat m * 2)) data
                      = I ++ []).
    { rewrite app_nil_r. unfold data.
      rewrite (app_assoc (le32 _)), (app_assoc _ (le16 _)), (app_assoc _ D).
      apply drop_app_length'. rewrite !length_app, HD. simpl. lia. }
    rewrite Hdrop_d, Hdrop_i, Nat2Z.id.
    assert (E1 : dec_words 4 m (I ++ []) = is)
      by (rewrite <- Hlis; unfold I; apply dec_words_le32, His).
    assert (E2 : dec_words 2 m (D ++ I) = ds).
    { rewrite <- Hlds. unfold D. apply dec_words_le16.
      eapply Forall_impl; [exact Hds|]. unfold MAX_DELTA. simpl; lia. }
    rewrite E1, E2. reflexivity.
  - assert (m = 0%nat) by lia.
    destruct is; [|simpl in *; lia].
    destruct ds; [reflexivity|simpl in *; lia].
Qed.

Lemma deserialize_serialize (b : Bucket.t) :
  length (deltas b) = length (ids b) ->
  Forall (fun d => 0 <= d <= MAX_DELTA) (deltas b) ->
  Forall is_u32 (ids b) ->
  summary_bitmap b = list_to_set (ids b) ->
  Z.of_nat (length (ids b)) <= 65535 ->
  deserialize (serialize b) (base_value b) = Ok b.
Proof.
  intros Hlen Hds His Hbm Hn.
  rewrite (deserialize_serialize_gen b Hlen Hds His Hbm ltac:(lia)).
  rewrite Z.mod_small by lia. rewrite Nat2Z.id.
  rewrite take_ge by lia. rewrite take_ge by lia. by destruct b.
Qed.

End WithCodec.
End BucketCodecFacts.

(** ** A concrete bitmap codec

    A simple self-delimiting image (little-endian element count, then the
    elements): it satisfies the [RoaringCodec] laws and lets the model run
    on concrete inputs. *)
Module ListCodec.
Import BytesFacts.

Definition write (s : gset Z) : list Z :=
  le32 (Z.of_nat (size s)) ++ mjoin (le32 <$> elements s).

Definition read (bs : list Z) : option (gset Z) :=
  let xs := dec_words 4 (Z.to_nat (dec_le (take 4 bs))) (drop 4 bs) in
  Some (dom (list_to_map ((fun x => (x, tt)) <$> xs) : gmap Z unit)).

Lemma read_write (s : gset Z) (rest : list Z) :
  (forall x, x ∈ s -> is_u32 x) -> Z.of_nat (size s) < 2^24 ->
  read (write s ++ rest) = Some s.
Proof.
  intros Hs Hsz. unfold read, write. rewrite <- app_assoc.
  rewrite take_app_length' by reflexivity. rewrite drop_app_length' by reflexivity.
  rewrite dec_le_le32 by lia. rewrite Nat2Z.id.
  change (size s) with (length (elements s)).
  rewrite dec_words_le32.
  - f_equal. rewrite dom_list_to_map_L, <- list_fmap_compose, list_fmap_id.
    apply list_to_set_elements_L.
  - apply Forall_forall. intros x Hx. apply Hs. by apply elem_of_elements.
Qed.

Lemma write_nonempty (s : gset Z) : write s = [] -> s = ∅.
Proof. unfold write. destruct (elements s); discriminate. Qed.

Lemma write_size (s : gset Z) :
  Z.of_nat (size s) < 2^24 -> Z.of_nat (length (write s)) < 2^32.
Proof.
  intros Hsz. unfold write. rewrite length_app, length_join_le32.
  change (size s) with (length (elements s)) in Hsz. simpl. lia.
Qed.

#[export] Instance codec : RoaringCodec := {|
  bm_write := write;
  bm_read := read;
  bm_read_write := read_write;
  bm_write_empty := write_nonempty;
  bm_write_size := write_size
|}.

End ListCodec.

(** ** Bucket operations *)
Module BucketFacts.
Import Bucket.

Lemma lower_bound_before (l : list Z) (x : Z) (j : nat) :
  (j < lower_bound l x)%nat -> nth j l 0 < x.
Proof.
  revert j. induction l as [|y l IH]; intros j Hj; simpl in *; [lia|].
  destruct (Z.ltb_spec y x); [|lia].
  destruct j; [assumption|]. apply IH. lia.
Qed.

Lemma lower_bound_at (l : list Z) (x : Z) :
  (lower_bound l x < length l)%nat -> x <= nth (lower_bound l x) l 0.
Proof.
  induction l as [|y l IH]; intros Hlt; simpl in *; [lia|].
  destruct (Z.ltb_spec y x); [apply IH; lia|assumption].
Qed.

Lemma lower_bound_le (l : list Z) (x : Z) : (lower_bound l x <= length l)%nat.
Proof. induction l as [|y l IH]; simpl; [lia|destruct (y <? x); lia]. Qed.

Lemma insert_lower_bound_sorted (l : list Z) (x : Z) :
  StronglySorted Z.le l -> StronglySorted Z.le (insert_at l (lower_bound l x) x).
Proof.
  induction l as [|y l IH]; intros Hs; unfold insert_at in *; simpl.
  - repeat constructor.
  - apply StronglySorted_cons in Hs as [Hy Hs].
    destruct (Z.ltb_spec y x); simpl.
    + constructor; [by apply IH|].
      apply Forall_app; split; [by apply Forall_take|].
      constructor; [lia|by apply Forall_drop].
    + constructor; [by constructor|].
      constructor; [lia|]. eapply Forall_impl; [exact Hy|]. simpl; lia.
Qed.

Lemma length_insert_at (l : list Z) (i : nat) (x : Z) :
  (i <= length l)%nat -> length (insert_at l i x) = S (length l).
Proof.
  intros Hi. unfold insert_at. rewrite length_app, length_take, length_cons, length_drop. lia.
Qed.

End BucketFacts.

(** ** Bucket claims *)
Module BucketClaims.
Import Bucket BytesFacts BucketCodecFacts BucketFacts.

(** Closing a decidable side condition by evaluation. *)
Ltac by_eval := match goal with |- ?P => apply (bool_decide_unpack P); vm_compute; exact I end.

Section Generic.
Context `{RoaringCodec}.

(** C6: for a bucket satisfying the bucket invariants (parallel [deltas]
    and [ids], deltas in [0, 65535], 32-bit ids, summary bitmap equal to
    the set of ids) with at most 65535 entries, [deserialize] applied to
    [serialize b] and [b.base_value] gives back [b] itself: the same ids,
    deltas and summary-bitmap contents. *)
Theorem C6_serialize_roundtrip (b : Bucket.t) :
  length (deltas b) = length (ids b) ->
  Forall (fun d => 0 <= d <= MAX_DELTA) (deltas b) ->
  Forall is_u32 (ids b) ->
  summary_bitmap b = list_to_set (ids b) ->
  Z.of_nat (length (ids b)) <= 65535 ->
  deserialize (serialize b) (base_value b) = Ok b.
Proof. intros. by apply deserialize_serialize. Qed.

(** C10: [serialize] stores the entry count as [ids.size() mod 2^16].  For
    a well-formed bucket with more than 65535 entries the count field of
    the payload holds that truncated value, [deserialize] returns only the
    first [ids.size() mod 2^16] entries, and in no case are the original
    ids recovered. *)
Theorem C10_count_truncated (b : Bucket.t) :
  length (deltas b) = length (ids b) ->
  Forall (fun d => 0 <= d <= MAX_DELTA) (deltas b) ->
  Forall is_u32 (ids b) ->
  summary_bitmap b = list_to_set (ids b) ->
  65535 < Z.of_nat (length (ids b)) < 2^24 ->
  let m := Z.to_nat (Z.of_nat (length (ids b)) mod 65536) in
  dec_le (take 2 (drop (4 + length (bm_write (summary_bitmap b))) (serialize b)))
    = Z.of_nat (length (ids b)) mod 65536 /\
  deserialize (serialize b) (base_value b) =
    Ok (mk (base_value b) (take m (deltas b)) (take m (ids b)) (summary_bitmap b)) /\
  (forall b', deserialize (serialize b) (base_value b) = Ok b' -> ids b' <> ids b).
Proof.
  intros Hlen Hds His Hbm Hn m.
  pose proof (deserialize_serialize_gen b Hlen Hds His Hbm ltac:(lia)) as Hd.
  cbv zeta in Hd. fold m in Hd.
  assert (Hm : (m < length (ids b))%nat).
  { unfold m. pose proof (Z.mod_pos_bound (Z.of_nat (length (ids b))) 65536 ltac:(lia)). lia. }
  split; [|split; [exact Hd|]].
  - unfold serialize. cbv zeta.
    rewrite app_assoc, drop_app_length'.
    2:{ rewrite length_app. reflexivity. }
    rewrite take_app_length' by reflexivity.
    apply dec_le_le16. apply Z.mod_pos_bound. lia.
  - intros b' Hb' Heq. rewrite Hd in Hb'. injection Hb' as <-.
    cbn [ids] in Heq. apply (f_equal length) in Heq.
    rewrite length_take in Heq. lia.
Qed.

(** C7 (amended): a buffer shorter than six bytes is no error and yields
    the empty bucket at the given base.  On a buffer of at least six
    bytes, a declared bitmap size past the end fails with [Corrupt]; a
    buffer too short for the count, or for the declared deltas and ids,
    fails with [Corrupt] unless the bitmap reader rejects its bytes first.
    On every buffer, each failure of [deserialize] is a [Corrupt] error or
    the bitmap reader's rejection. *)
Theorem C7_deserialize_overrun (data : list Z) (base : Z) :
  let len := Z.of_nat (length data) in
  let p := 4 + dec_le (take 4 data) in
  let count := dec_le (take 2 (drop (Z.to_nat p) data)) in
  (len < 6 -> deserialize data base = Ok (empty base)) /\
  (6 <= len -> len < p -> deserialize data base = Err CorruptBitmapSize) /\
  (6 <= len -> p <= len < p + 2 -> exists e, deserialize data base = Err e /\
     (e = CorruptTruncatedCount \/ e = BitmapUnreadable)) /\
  (6 <= len -> p + 2 <= len -> 0 < count -> len < p + 2 + count * 2 + count * 4 ->
     exists e, deserialize data base = Err e /\
     (e = CorruptTruncatedData \/ e = BitmapUnreadable)) /\
  (forall e, deserialize data base = Err e -> is_corrupt e = true \/ e = BitmapUnreadable).
Proof.
  intros len p count.
  unfold deserialize. cbv beta zeta. fold len. fold p. fold count.
  destruct (Z.ltb_spec len 6) as [Hs|H6].
  { split; [reflexivity|]. split; [lia|]. split; [lia|]. split; [lia|].
    intros e He. discriminate. }
  split; [lia|]. split; [|split; [|split]].
  - intros _ Hlt. by rewrite (proj2 (Z.ltb_lt _ _) Hlt).
  - intros _ [Hge Hlt]. rewrite (proj2 (Z.ltb_ge len p) Hge).
    rewrite (proj2 (Z.ltb_lt _ _) Hlt).
    destruct (0 <? dec_le (take 4 data)); [destruct (bm_read (drop 4 data))|];
      eexists; (split; [reflexivity|auto]).
  - intros _ Hge Hc Hlt. rewrite (proj2 (Z.ltb_ge len p)) by lia.
    rewrite (proj2 (Z.ltb_ge _ (p + 2))) by lia.
    rewrite (proj2 (Z.ltb_lt 0 count) Hc), (proj2 (Z.ltb_lt _ _) Hlt).
    destruct (0 <? dec_le (take 4 data)); [destruct (bm_read (drop 4 data))|];
      eexists; (split; [reflexivity|auto]).
  - intros e.
    repeat match goal with
    | |- context [if ?c then _ else _] => destruct c
    | |- context [match bm_read ?x with _ => _ end] => destruct (bm_read x)
    end; intros He; try discriminate; injection He as <-; auto.
Qed.

(** C8: [add] fails exactly when [value < base_value] or
    [value - base_value > 65535], and every failure is an invariant
    violation; otherwise it inserts the delta at the lower-bound position
    (every earlier delta is smaller, the next one is not), the id at the
    same position of [ids], and the id into the summary bitmap, and the
    deltas stay non-decreasing and parallel to the ids. *)
Theorem C8_bucket_add (b : Bucket.t) (val id : Z) :
  ((exists e, add b val id = Err e) <->
     val < base_value b \/ MAX_DELTA < val - base_value b) /\
  (forall e, add b val id = Err e -> is_invariant_violation e = true) /\
  (base_value b <= val <= base_value b + MAX_DELTA ->
   let d := val - base_value b in
   let i := lower_bound (deltas b) d in
   add b val id = Ok (mk (base_value b) (insert_at (deltas b) i d)
                         (insert_at (ids b) i id) ({[id]} ∪ summary_bitmap b)) /\
   (forall j, (j < i)%nat -> nth j (deltas b) 0 < d) /\
   ((i < length (deltas b))%nat -> d <= nth i (deltas b) 0) /\
   (StronglySorted Z.le (deltas b) -> StronglySorted Z.le (insert_at (deltas b) i d)) /\
   (length (deltas b) = length (ids b) ->
      length (insert_at (deltas b) i d) = length (insert_at (ids b) i id))).
Proof.
  split; [|split].
  - unfold add. split.
    + intros [e He]. destruct (Z.ltb_spec val (base_value b)); [now left|].
      destruct (Z.ltb_spec MAX_DELTA (val - base_value b)); [now right|discriminate].
    + intros Hc. destruct (Z.ltb_spec val (base_value b)); [eauto|].
      destruct (Z.ltb_spec MAX_DELTA (val - base_value b)); [eauto|lia].
  - intros e. unfold add.
    destruct (val <? base_value b); [intros [= <-]; reflexivity|].
    destruct (MAX_DELTA <? val - base_value b); [intros [= <-]; reflexivity|discriminate].
  - intros Hv d i. unfold add.
    rewrite (proj2 (Z.ltb_ge _ _)) by lia. rewrite (proj2 (Z.ltb_ge MAX_DELTA _)) by lia.
    split; [reflexivity|]. split; [|split; [|split]].
    + intros j Hj. by apply lower_bound_before.
    + apply lower_bound_at.
    + apply insert_lower_bound_sorted.
    + intros Hl. pose proof (lower_bound_le (deltas b) d).
      rewrite !length_insert_at; lia.
Qed.

End Generic.

Lemma C6_serialize_roundtrip_witness :
  @deserialize ListCodec.codec (@serialize ListCodec.codec Samples.small) 100 = Ok Samples.small.
Proof.
  apply (@C6_serialize_roundtrip ListCodec.codec Samples.small).
  - reflexivity.
  - by_eval.
  - by_eval.
  - reflexivity.
  - vm_compute. discriminate.
Defined.

Lemma C10_count_truncated_witness :
  @deserialize ListCodec.codec (@serialize ListCodec.codec Samples.big) 42 =
    Ok (mk 42 [] [] (summary_bitmap Samples.big)).
Proof.
  refine (proj1 (proj2 (@C10_count_truncated ListCodec.codec Samples.big _ _ _ _ _)));
    unfold Samples.big; cbn [deltas ids summary_bitmap].
  - apply Nat.eqb_eq. vm_compute. reflexivity.
  - by_eval.
  - by_eval.
  - reflexivity.
  - split; vm_compute; reflexivity.
Defined.

(** C7 as stated fails: a buffer shorter than six bytes is accepted and
    yields an empty bucket. *)
Lemma C7_short_buffer_counterexample :
  ~ (forall (data : list Z) (base : Z), Z.of_nat (length data) < 6 ->
       exists e, @deserialize ListCodec.codec data base = Err e).
Proof.
  intros Hall. destruct (Hall [] 0) as [e He]; [reflexivity|].
  vm_compute in He. discriminate.
Qed.

Lemma C7_deserialize_overrun_witness :
  @deserialize ListCodec.codec (le32 100 ++ [0; 0]) 7 = Err CorruptBitmapSize /\
  @deserialize ListCodec.codec [1; 2; 3] 7 = Ok (empty 7).
Proof.
  pose proof (@C7_deserialize_overrun ListCodec.codec (le32 100 ++ [0; 0]) 7) as W.
  pose proof (@C7_deserialize_overrun ListCodec.codec [1; 2; 3] 7) as W'.
  split.
  - apply (proj1 (proj2 W)); vm_compute; [discriminate|reflexivity].
  - apply (proj1 W'). vm_compute. reflexivity.
Defined.

Lemma C8_bucket_add_witness :
  add Samples.small 105 7 =
    Ok (mk 100 [0; 5; 5; 5; 9] [1; 7; 2; 3; 4] ({[7]} ∪ list_to_set [1; 2; 3; 4])).
Proof.
  pose proof (C8_bucket_add Samples.small 105 7) as W.
  apply (proj2 (proj2 W)). vm_compute. split; discriminate.
Defined.

End BucketClaims.

(** ** The slide split *)
Module SplitFacts.
Import Bucket NumericIndex BucketFacts.

Lemma add_ok (b : Bucket.t) (v id : Z) :
  base_value b <= v <= base_value b + MAX_DELTA ->
  add b v id = Ok (mk (base_value b)
                      (insert_at (deltas b) (lower_bound (deltas b) (v - base_value b)) (v - base_value b))
                      (insert_at (ids b) (lower_bound (deltas b) (v - base_value b)) id)
                      ({[id]} ∪ summary_bitmap b)).
Proof.
  intros Hv. unfold add.
  rewrite (proj2 (Z.ltb_ge _ _)) by lia. rewrite (proj2 (Z.ltb_ge MAX_DELTA _)) by lia.
  reflexivity.
Qed.

Lemma insert_at_perm (l : list Z) (i : nat) (x : Z) : insert_at l i x ≡ₚ x :: l.
Proof.
  unfold insert_at. rewrite <- Permutation_middle. by rewrite take_drop.
Qed.

Lemma insert_at_perm_pairs {A B} (l : list (A * B)) (i : nat) (x : A * B) :
  take i l ++ x :: drop i l ≡ₚ x :: l.
Proof. rewrite <- Permutation_middle. by rewrite take_drop. Qed.

Lemma zip_insert_at (l1 l2 : list Z) (i : nat) (x y : Z) :
  length l1 = length l2 ->
  zip (insert_at l1 i x) (insert_at l2 i y) = take i (zip l1 l2) ++ (x, y) :: drop i (zip l1 l2).
Proof.
  revert l2 i. induction l1 as [|a l1 IH]; intros [|b l2] i Hl; simpl in *; try lia.
  - destruct i; reflexivity.
  - unfold insert_at in *. destruct i as [|i]; simpl; [reflexivity|].
    f_equal. apply IH. lia.
Qed.

Lemma zip_insert_at_perm (l1 l2 : list Z) (i : nat) (x y : Z) :
  length l1 = length l2 ->
  zip (insert_at l1 i x) (insert_at l2 i y) ≡ₚ (x, y) :: zip l1 l2.
Proof. intros Hl. rewrite zip_insert_at by exact Hl. apply insert_at_perm_pairs. Qed.

Lemma list_to_set_perm (l1 l2 : list Z) : l1 ≡ₚ l2 -> (list_to_set l1 : gset Z) = list_to_set l2.
Proof.
  intros Hp. apply set_eq. intros x. rewrite !elem_of_list_to_set. by rewrite Hp.
Qed.

Lemma bitmap_of_spec (l : list Z) : bitmap_of l = list_to_set l.
Proof.
  unfold bitmap_of.
  assert (Hgen : forall (s : gset Z), fold_left (fun s pid => {[pid]} ∪ s) l s = list_to_set l ∪ s).
  { induction l as [|x l IH]; intros s; simpl.
    - set_solver.
    - rewrite IH. set_solver. }
  rewrite Hgen. set_solver.
Qed.

(** Inserting a value not smaller than any element of a sorted list at its
    lower bound appends it. *)
Lemma insert_lower_bound_end (l : list Z) (x : Z) :
  StronglySorted Z.le l -> Forall (fun y => y <= x) l ->
  insert_at l (lower_bound l x) x = l ++ [x].
Proof.
  induction l as [|y l IH]; intros Hs Hle; [reflexivity|].
  apply StronglySorted_cons in Hs as [Hy Hs].
  inversion Hle as [|? ? Hyx Hle']; subst.
  unfold insert_at in *. simpl.
  destruct (Z.ltb_spec y x).
  - simpl. f_equal. by apply IH.
  - assert (y = x) as -> by lia.
    assert (Hall : Forall (fun z => z = x) l).
    { eapply Forall_impl; [apply Forall_and; split; [exact Hy|exact Hle']|]. simpl; lia. }
    clear -Hall. simpl. f_equal.
    induction l as [|z l IH]; [reflexivity|].
    inversion Hall; subst. simpl. f_equal. by apply IH.
Qed.

Lemma sorted_nth (l : list Z) (i j : nat) :
  StronglySorted Z.le l -> (i <= j < length l)%nat -> nth i l 0 <= nth j l 0.
Proof.
  revert i j. induction l as [|x l IH]; intros i j Hs Hij; simpl in *; [lia|].
  apply StronglySorted_cons in Hs as [Hx Hs].
  destruct i as [|i], j as [|j]; [lia| |lia|].
  - pose proof (proj1 (Forall_forall _ _) Hx (nth j l 0)) as Hn.
    apply Hn. apply list_elem_of_lookup_2 with j.
    destruct (nth_lookup_or_length l j 0) as [E|E]; [exact E|lia].
  - apply IH; [exact Hs|lia].
Qed.

Lemma probe_right_go_spec (ds : list Z) (fuel p : nat) :
  fuel = (length ds - p)%nat -> (p <= length ds)%nat ->
  let q := probe_right_go ds fuel p in
  (p <= q <= length ds)%nat /\
  (forall i, (p <= i < q)%nat -> (0 < i)%nat /\ nth (i - 1) ds 0 = nth i ds 0) /\
  ((q < length ds)%nat -> q = O \/ nth (q - 1) ds 0 <> nth q ds 0).
Proof.
  revert p. induction fuel as [|fuel IH]; intros p Hf Hp; simpl.
  - split; [lia|]. split; intros; exfalso; lia.
  - destruct (Nat.ltb_spec p (length ds)); [|lia].
    destruct (Nat.ltb_spec 0 p); simpl.
    + destruct (Z.eqb_spec (nth p ds 0) (nth (p - 1) ds 0)) as [Heq|Hne].
      * destruct (IH (S p) ltac:(lia) ltac:(lia)) as (H1 & H2 & H3).
        split; [lia|]. split; [|exact H3].
        intros j Hj. destruct (Nat.eq_dec j p) as [->|]; [split; [lia|congruence]|].
        apply H2. lia.
      * split; [lia|]. split; [intros j Hj; exfalso; lia|]. intros _. right. congruence.
    + split; [lia|]. split; [intros j Hj; exfalso; lia|]. intros _. left. lia.
Qed.

Lemma probe_left_spec (ds : list Z) (p : nat) :
  let q := probe_left ds p in
  (q <= p)%nat /\
  (forall i, (q < i <= p)%nat -> nth (i - 1) ds 0 = nth i ds 0) /\
  (q = O \/ nth (q - 1) ds 0 <> nth q ds 0).
Proof.
  induction p as [|p IH]; simpl.
  - split; [lia|]. split; [intros j Hj; exfalso; lia|now left].
  - destruct (Z.eqb_spec (nth (S p) ds 0) (nth p ds 0)) as [Heq|Hne].
    + destruct IH as (H1 & H2 & H3). split; [lia|]. split; [|exact H3].
      intros j Hj. destruct (Nat.eq_dec j (S p)) as [->|].
      * simpl. rewrite Nat.sub_0_r. congruence.
      * apply H2. lia.
    + split; [lia|]. split; [intros j Hj; exfalso; lia|].
      right; simpl; rewrite Nat.sub_0_r; congruence.
Qed.

(** Where [slide_cut] puts a cut it finds. *)
Lemma slide_cut_spec (b : Bucket.t) :
  let n := length (deltas b) in
  let k := slide_cut b in
  let mid := (length (ids b) / 2)%nat in
  length (ids b) = n -> (2 <= n)%nat -> StronglySorted Z.le (deltas b) -> (k < n)%nat ->
  (0 < k)%nat /\ nth (k - 1) (deltas b) 0 < nth k (deltas b) 0 /\
  (((mid <= k)%nat /\ forall i, (mid <= i < k)%nat -> nth (i - 1) (deltas b) 0 = nth i (deltas b) 0) \/
   ((k <= mid)%nat /\
    (forall i, (mid <= i < n)%nat -> nth (i - 1) (deltas b) 0 = nth i (deltas b) 0) /\
    (forall i, (k < i <= mid)%nat -> nth (i - 1) (deltas b) 0 = nth i (deltas b) 0))).
Proof.
  cbv zeta. intros Hlen Hn Hs Hk.
  unfold slide_cut, probe_right in *.
  set (n := length (deltas b)) in *.
  set (mid := (length (ids b) / 2)%nat) in *.
  assert (Hmid : (0 < mid < n)%nat).
  { unfold mid. rewrite Hlen. split; [apply Nat.div_str_pos; lia|apply Nat.div_lt; lia]. }
  pose proof (probe_right_go_spec (deltas b) (n - mid) mid eq_refl ltac:(lia))
    as (R1 & R2 & R3).
  pose proof (probe_left_spec (deltas b) mid) as (L1 & L2 & L3).
  assert (Hsorted_step : forall j, (0 < j < n)%nat ->
            nth (j - 1) (deltas b) 0 <> nth j (deltas b) 0 ->
            nth (j - 1) (deltas b) 0 < nth j (deltas b) 0).
  { intros j Hj Hne. pose proof (sorted_nth (deltas b) (j - 1) j Hs ltac:(lia)). lia. }
  change (length (deltas b)) with n in R1; change (length (deltas b)) with n in R2;
  change (length (deltas b)) with n in R3.
  set (q := probe_right_go (deltas b) (n - mid) mid) in *.
  set (pl := probe_left (deltas b) mid) in *.
  clearbody n mid q pl.
  destruct (Nat.ltb_spec q n) as [Hpr|Hpr].
  - destruct (R3 Hpr) as [Hq0|Hne]; [lia|].
    split; [lia|]. split; [apply Hsorted_step; [lia|exact Hne]|].
    left. split; [lia|]. intros i Hi. apply R2. lia.
  - destruct (Nat.ltb_spec 0 pl) as [Hpl|Hpl]; [|lia].
    destruct L3 as [L3|L3]; [lia|].
    split; [lia|]. split; [apply Hsorted_step; [lia|exact L3]|].
    right. split; [lia|]. split.
    + intros i Hi. apply R2. lia.
    + exact L2.
Qed.


(** [add] inside the delta range: the bucket gains the pair [(v, id)]. *)
Lemma add_entries (b : Bucket.t) (v id : Z) :
  base_value b <= v <= base_value b + MAX_DELTA -> length (deltas b) = length (ids b) ->
  exists b', add b v id = Ok b' /\ base_value b' = base_value b /\
    deltas b' = insert_at (deltas b) (lower_bound (deltas b) (v - base_value b)) (v - base_value b) /\
    length (deltas b') = length (ids b') /\
    entries b' ≡ₚ (v, id) :: entries b /\
    summary_bitmap b' = {[id]} ∪ summary_bitmap b.
Proof.
  intros Hv Hl. rewrite add_ok by exact Hv. eexists; split; [reflexivity|].
  cbn [base_value deltas ids summary_bitmap]. split; [done|]. split; [done|].
  pose proof (lower_bound_le (deltas b) (v - base_value b)).
  split; [rewrite !length_insert_at; lia|]. split; [|done].
  unfold entries; cbn [base_value deltas ids summary_bitmap].
  rewrite !(zip_with_zip (fun d i => (base_value b + d, i))).
  rewrite (zip_insert_at_perm _ _ _ _ _ Hl). simpl.
  by replace (base_value b + (v - base_value b)) with v by lia.
Qed.

(** [add_all] of pairs whose deltas continue a sorted delta list appends
    those deltas and gains exactly those pairs. *)
Lemma add_all_spec (r : Bucket.t) (es : list (Z * Z)) :
  length (deltas r) = length (ids r) ->
  StronglySorted Z.le (deltas r ++ ((fun e => e.1 - base_value r) <$> es)) ->
  Forall (fun e => base_value r <= e.1 <= base_value r + MAX_DELTA) es ->
  exists r', add_all r es = Ok r' /\ base_value r' = base_value r /\
    deltas r' = deltas r ++ ((fun e => e.1 - base_value r) <$> es) /\
    length (deltas r') = length (ids r') /\
    entries r' ≡ₚ es ++ entries r /\
    summary_bitmap r' = list_to_set (snd <$> es) ∪ summary_bitmap r.
Proof.
  revert r. induction es as [|[v id] es IH]; intros r Hl Hs Hb; simpl.
  - exists r. rewrite !app_nil_r. split; [done|]. split; [done|]. split; [done|].
    split; [done|]. split; [done|]. simpl. by rewrite (left_id_L ∅ union).
  - apply Forall_cons in Hb as [Hb0 Hb]. simpl in Hb0.
    destruct (add_entries r v id Hb0 Hl) as (r1 & E & B1 & D1 & L1 & P1 & S1).
    rewrite E.
    assert (Hend : insert_at (deltas r) (lower_bound (deltas r) (v - base_value r)) (v - base_value r)
                   = deltas r ++ [v - base_value r]).
    { apply insert_lower_bound_end.
      - eapply StronglySorted_app_1_l; exact Hs.
      - apply Forall_forall. intros x Hx.
        eapply (StronglySorted_app_1_elem_of Z.le); [exact Hs|exact Hx|]. simpl. left. }
    rewrite Hend in D1.
    destruct (IH r1) as (r' & E' & B' & D' & L' & P' & S').
    + exact L1.
    + rewrite D1, B1, <- app_assoc. exact Hs.
    + rewrite B1. exact Hb.
    + exists r'. split; [exact E'|]. rewrite B', B1. split; [done|].
      split; [rewrite D', D1, B1, <- app_assoc; done|]. split; [exact L'|]. split.
      * rewrite P', P1. simpl. symmetry. apply Permutation_middle.
      * rewrite S', S1. simpl. set_solver.
Qed.

(** The pairs of a bucket: their values and their ids. *)
Lemma zw_fmap_fst {A} (c : Z) (g : Z -> A) (l1 l2 : list Z) :
  length l1 = length l2 ->
  (fun e => g e.1) <$> zip_with (fun d i => (c + d, i)) l1 l2 = (fun d => g (c + d)) <$> l1.
Proof.
  revert l2. induction l1 as [|x l1 IH]; intros [|y l2] Hl; simpl in *; try lia; [done|].
  f_equal. apply IH. lia.
Qed.

Lemma zw_fmap_snd (c : Z) (l1 l2 : list Z) :
  length l1 = length l2 -> snd <$> zip_with (fun d i => (c + d, i)) l1 l2 = l2.
Proof.
  revert l2. induction l1 as [|x l1 IH]; intros [|y l2] Hl; simpl in *; try lia; [done|].
  f_equal. apply IH. lia.
Qed.

Lemma zw_u32 (c : Z) (l1 l2 : list Z) :
  Forall (fun d => 0 <= c + d < 2^32) l1 ->
  zip_with (fun d i => (u32 (c + d), i)) l1 l2 = zip_with (fun d i => (c + d, i)) l1 l2.
Proof.
  revert l2. induction l1 as [|x l1 IH]; intros [|y l2] Hf; simpl; try done.
  apply Forall_cons in Hf as [Hx Hf]. unfold u32. rewrite Z.mod_small by lia.
  f_equal. by apply IH.
Qed.

Lemma Forall_zw (P : Z -> Prop) (c : Z) (l1 l2 : list Z) :
  Forall (fun d => P (c + d)) l1 -> Forall (fun e => P e.1) (zip_with (fun d i => (c + d, i)) l1 l2).
Proof.
  revert l2. induction l1 as [|x l1 IH]; intros [|y l2] Hf; simpl; try constructor.
  - by apply Forall_cons in Hf as [Hx _].
  - apply IH. by apply Forall_cons in Hf as [_ Hf].
Qed.

Lemma entries_ids (b : Bucket.t) :
  length (deltas b) = length (ids b) -> snd <$> entries b = ids b.
Proof. apply zw_fmap_snd. Qed.

Lemma StronglySorted_drop (l : list Z) (k : nat) :
  StronglySorted Z.le l -> StronglySorted Z.le (drop k l).
Proof. intros Hs. rewrite <- (take_drop k l) in Hs. by apply StronglySorted_app_1_r in Hs. Qed.

Lemma StronglySorted_take (l : list Z) (k : nat) :
  StronglySorted Z.le l -> StronglySorted Z.le (take k l).
Proof. intros Hs. rewrite <- (take_drop k l) in Hs. by apply StronglySorted_app_1_l in Hs. Qed.

Lemma take_below (ds : list Z) (k : nat) :
  StronglySorted Z.le ds -> (0 < k < length ds)%nat -> nth (k - 1) ds 0 < nth k ds 0 ->
  Forall (fun d => d < nth k ds 0) (take k ds).
Proof.
  intros Hs Hk Hlt. apply Forall_lookup. intros i x Hx.
  apply lookup_take_Some in Hx as [Hx Hi].
  assert (nth i ds 0 = x) as <- by (rewrite nth_lookup, Hx; done).
  pose proof (sorted_nth ds i (k - 1) Hs ltac:(lia)). lia.
Qed.

Lemma drop_nth (ds : list Z) (k : nat) :
  (k < length ds)%nat -> drop k ds = nth k ds 0 :: drop (S k) ds.
Proof.
  intros Hk. destruct (lookup_lt_is_Some_2 ds k Hk) as [x Hx].
  rewrite (drop_S ds x k Hx). by rewrite nth_lookup, Hx.
Qed.

Lemma shift_fmap (c e : Z) (l : list Z) :
  (fun d => c + d - (c + e)) <$> l = (fun d => d - e) <$> l.
Proof. induction l as [|x l IH]; simpl; [done|]. f_equal; [lia|done]. Qed.

(** The split at a value boundary [k] followed by the insertion. *)
Lemma split_insert_spec (b : Bucket.t) (k : nat) (value id : Z) :
  length (deltas b) = length (ids b) ->
  StronglySorted Z.le (deltas b) ->
  Forall (fun d => 0 <= d <= MAX_DELTA /\ 0 <= base_value b + d < 2^32) (deltas b) ->
  (0 < k < length (deltas b))%nat ->
  nth (k - 1) (deltas b) 0 < nth k (deltas b) 0 ->
  base_value b <= value <= base_value b + MAX_DELTA ->
  exists left right, split_insert b k value id = Ok (left, right) /\
    base_value left = base_value b /\
    base_value right = base_value b + nth k (deltas b) 0 /\
    length (deltas left) = length (ids left) /\ length (deltas right) = length (ids right) /\
    StronglySorted Z.le (deltas left) /\ StronglySorted Z.le (deltas right) /\
    Forall (fun d => 0 <= d <= MAX_DELTA) (deltas left) /\
    Forall (fun d => 0 <= d <= MAX_DELTA) (deltas right) /\
    summary_bitmap left = list_to_set (ids left) /\
    summary_bitmap right = list_to_set (ids right) /\
    Forall (fun e => e.1 < base_value right) (entries left) /\
    (base_value right <= value ->
       entries right ≡ₚ (value, id) :: drop k (entries b) /\
       deltas left = take k (deltas b) /\ ids left = take k (ids b) /\
       summary_bitmap left = list_to_set (take k (ids b))) /\
    (value < base_value right ->
       entries left ≡ₚ (value, id) :: take k (entries b) /\
       entries right ≡ₚ drop k (entries b) /\
       deltas right = (fun d => d - nth k (deltas b) 0) <$> drop k (deltas b)).
Proof.
  intros Hl Hs Hd Hk Hkb Hv.
  set (B := base_value b) in *. set (ds := deltas b) in *. set (dk := nth k ds 0) in *.
  assert (Hdk : 0 <= dk <= MAX_DELTA /\ 0 <= B + dk < 2^32).
  { unfold dk. apply (proj1 (Forall_nth _ 0 ds) Hd). lia. }
  unfold split_insert. fold B ds.
  rewrite (zw_u32 B (drop k ds) (drop k (ids b)))
    by (apply Forall_drop; eapply Forall_impl; [exact Hd|]; simpl; lia).
  unfold u32. rewrite Z.mod_small by lia. fold dk.
  rewrite <- zip_with_drop.
  change (zip_with (fun d i => (B + d, i)) ds (ids b)) with (entries b).
  assert (Hmoved : (fun e : Z * Z => e.1 - (B + dk)) <$> drop k (entries b)
                   = (fun d => d - dk) <$> drop k ds).
  { rewrite fmap_drop. unfold entries. rewrite (zw_fmap_fst _ (fun v => v - (B + dk))) by exact Hl.
    rewrite <- fmap_drop. apply shift_fmap. }
  assert (HsR : StronglySorted Z.le ((fun d => d - dk) <$> drop k ds)).
  { apply (StronglySorted_fmap _ Z.le); [intros; lia|]. by apply StronglySorted_drop. }
  assert (HdR : Forall (fun d => 0 <= d <= MAX_DELTA) ((fun d => d - dk) <$> drop k ds)).
  { apply Forall_fmap. rewrite (drop_nth ds k) by lia. fold dk.
    pose proof (StronglySorted_drop ds k Hs) as Hsk. rewrite (drop_nth ds k) in Hsk by lia.
    apply StronglySorted_cons in Hsk as [Hge _]. fold dk in Hge.
    constructor; [simpl; lia|].
    pose proof (Forall_drop _ (S k) _ Hd) as Hd'.
    eapply Forall_impl; [apply Forall_and; split; [exact Hge|exact Hd']|]. simpl. lia. }
  destruct (add_all_spec (empty (B + dk)) (drop k (entries b))) as (r & Er & Br & Dr & Lr & Pr & Sr).
  { reflexivity. }
  { simpl. rewrite Hmoved. exact HsR. }
  { simpl. unfold entries. rewrite zip_with_drop.
    apply (Forall_zw (fun v => B + dk <= v <= B + dk + MAX_DELTA)). fold B ds.
    rewrite (drop_nth ds k) by lia. fold dk.
    pose proof (StronglySorted_drop ds k Hs) as Hsk. rewrite (drop_nth ds k) in Hsk by lia.
    apply StronglySorted_cons in Hsk as [Hge _]. fold dk in Hge.
    constructor; [simpl; lia|].
    pose proof (Forall_drop _ (S k) _ Hd) as Hd'.
    eapply Forall_impl; [apply Forall_and; split; [exact Hge|exact Hd']|]. simpl. lia. }
  rewrite Er. cbv beta iota. rewrite bitmap_of_spec.
  simpl in Br, Dr, Sr. rewrite Hmoved in Dr. rewrite app_nil_r in Pr. rewrite (right_id_L ∅ union) in Sr.
  assert (HbmR : summary_bitmap r = list_to_set (ids r)).
  { rewrite Sr, <- (entries_ids r Lr). apply list_to_set_perm. by rewrite Pr. }
  assert (HeL : entries (mk B (take k ds) (take k (ids b)) (list_to_set (take k (ids b))))
               = take k (entries b)).
  { unfold entries. simpl. by rewrite zip_with_take. }
  assert (HltL : Forall (fun e => e.1 < B + dk) (take k (entries b))).
  { unfold entries. rewrite zip_with_take. apply (Forall_zw (fun v => v < B + dk)). fold B ds.
    eapply Forall_impl; [apply take_below; [exact Hs|lia|exact Hkb]|]. simpl. lia. }
  assert (HbmL : list_to_set (snd <$> take k (entries b)) = (list_to_set (take k (ids b)) : gset Z)).
  { by rewrite fmap_take, (entries_ids b Hl). }
  rewrite Br.
  destruct (Z.leb_spec (B + dk) value) as [Hr|Hr].
  - destruct (add_entries r value id ltac:(rewrite Br; lia) Lr) as (r' & E' & B' & D' & L' & P' & S').
    rewrite E'. cbv beta iota. eexists _, _. split; [reflexivity|].
    cbn [base_value deltas ids summary_bitmap]. rewrite B', Br.
    split; [done|]. split; [done|]. split; [rewrite !length_take; lia|]. split; [exact L'|].
    split; [by apply StronglySorted_take|].
    split; [rewrite D', Dr; apply insert_lower_bound_sorted; exact HsR|].
    split; [apply Forall_take; eapply Forall_impl; [exact Hd|]; simpl; lia|].
    split; [rewrite D', Br, insert_at_perm, Dr; constructor; [lia|exact HdR]|].
    split; [done|].
    split.
    { rewrite S', HbmR, <- (entries_ids r' L'), <- (entries_ids r Lr).
      rewrite (list_to_set_perm (snd <$> entries r') (snd <$> ((value, id) :: entries r)))
        by (by rewrite P'). done. }
    split; [rewrite HeL; exact HltL|].
    split; [intros _; split; [rewrite P', Pr; done|done]|].
    intros Hc. lia.
  - destruct (add_entries (mk B (take k ds) (take k (ids b)) (list_to_set (take k (ids b)))) value id
                ltac:(simpl; lia) ltac:(simpl; rewrite !length_take; lia))
      as (l' & E' & B' & D' & L' & P' & S').
    rewrite E'. cbv beta iota. eexists _, _. split; [reflexivity|].
    cbn [base_value deltas ids summary_bitmap] in B', D', S' |- *. rewrite B', Br.
    split; [done|]. split; [done|]. split; [exact L'|]. split; [exact Lr|].
    split; [rewrite D'; apply insert_lower_bound_sorted; by apply StronglySorted_take|].
    split; [rewrite Dr; exact HsR|].
    split.
    { rewrite D', insert_at_perm. constructor; [lia|].
      apply Forall_take; eapply Forall_impl; [exact Hd|]; simpl; lia. }
    split; [rewrite Dr; exact HdR|].
    split.
    { rewrite S', <- (entries_ids l' L').
      rewrite (list_to_set_perm (snd <$> entries l') (snd <$> ((value, id) :: entries
        (mk B (take k ds) (take k (ids b)) (list_to_set (take k (ids b)))))))
        by (by rewrite P'). simpl. rewrite HeL, <- HbmL. reflexivity. }
    split; [exact HbmR|].
    split; [rewrite P'; constructor; [simpl; lia|rewrite HeL; exact HltL]|].
    split; [intros Hc; lia|].
    intros _. split; [rewrite P', HeL; done|]. split; [exact Pr|exact Dr].
Qed.

End SplitFacts.

(** ** Claim C3: the slide split of a saturated bucket *)
Module SplitClaims.
Import Bucket NumericIndex SplitFacts.

Ltac by_eval := match goal with |- ?P => apply (bool_decide_unpack P); vm_compute; exact I end.

(** C3: when the saturated bucket [b] has a value boundary [k = slide_cut b]
    (the first index at or after the midpoint with [deltas[k-1] < deltas[k]],
    else the last one at or before it), [split_insert] gives a right bucket
    with base [base + deltas[k]] holding the former entries [k..] (and the
    new pair when [value >= right.base]), a left bucket holding the first
    [k] entries with its bitmap rebuilt from its ids (and the new pair when
    [value < right.base]); both have sorted deltas and every value of the
    left bucket is below [right.base]. *)
Theorem C3_slide_split (b : Bucket.t) (value id : Z) :
  length (deltas b) = length (ids b) ->
  (MAX_SIZE <= length (ids b))%nat ->
  StronglySorted Z.le (deltas b) ->
  Forall (fun d => 0 <= d <= MAX_DELTA /\ 0 <= base_value b + d < 2^32) (deltas b) ->
  base_value b <= value <= base_value b + MAX_DELTA ->
  (slide_cut b < length (deltas b))%nat ->
  let n := length (deltas b) in
  let k := slide_cut b in
  let mid := (length (ids b) / 2)%nat in
  ((0 < k)%nat /\ nth (k - 1) (deltas b) 0 < nth k (deltas b) 0 /\
   (((mid <= k)%nat /\ forall i, (mid <= i < k)%nat -> nth (i - 1) (deltas b) 0 = nth i (deltas b) 0) \/
    ((k <= mid)%nat /\
     (forall i, (mid <= i < n)%nat -> nth (i - 1) (deltas b) 0 = nth i (deltas b) 0) /\
     (forall i, (k < i <= mid)%nat -> nth (i - 1) (deltas b) 0 = nth i (deltas b) 0)))) /\
  exists left right, split_insert b k value id = Ok (left, right) /\
    base_value left = base_value b /\
    base_value right = base_value b + nth k (deltas b) 0 /\
    StronglySorted Z.le (deltas left) /\ StronglySorted Z.le (deltas right) /\
    summary_bitmap left = list_to_set (ids left) /\
    summary_bitmap right = list_to_set (ids right) /\
    Forall (fun e => e.1 < base_value right) (entries left) /\
    (base_value right <= value ->
       entries right ≡ₚ (value, id) :: drop k (entries b) /\
       deltas left = take k (deltas b) /\ ids left = take k (ids b) /\
       summary_bitmap left = list_to_set (take k (ids b))) /\
    (value < base_value right ->
       entries left ≡ₚ (value, id) :: take k (entries b) /\
       entries right ≡ₚ drop k (entries b) /\
       deltas right = (fun d => d - nth k (deltas b) 0) <$> drop k (deltas b)).
Proof.
  intros Hl Hsz Hs Hd Hv Hk n k mid.
  pose proof (slide_cut_spec b) as Hcut. cbv zeta in Hcut.
  specialize (Hcut (eq_sym Hl) ltac:(unfold MAX_SIZE in Hsz; lia) Hs Hk).
  split; [exact Hcut|].
  destruct Hcut as (Hk0 & Hkb & _).
  destruct (split_insert_spec b k value id Hl Hs Hd ltac:(unfold k; lia) Hkb Hv)
    as (left & right & E & BL & BR & _ & _ & SL & SR & _ & _ & ML & MR & LT & Hge & Hlt).
  exists left, right. do 8 (split; [eassumption|]). split; assumption.
Qed.

Lemma C3_slide_split_witness :
  slide_cut Samples.two_runs = 600%nat /\
  exists left right, split_insert Samples.two_runs 600 12 5000 = Ok (left, right) /\
    base_value right = 17 /\
    entries left ≡ₚ (12, 5000) :: take 600 (entries Samples.two_runs) /\
    entries right ≡ₚ drop 600 (entries Samples.two_runs).
Proof.
  assert (Hc : slide_cut Samples.two_runs = 600%nat) by (apply Nat.eqb_eq; vm_compute; reflexivity).
  split; [exact Hc|].
  pose proof (C3_slide_split Samples.two_runs 12 5000) as H.
  cbv zeta in H. rewrite Hc in H.
  destruct H as (_ & left & right & E & _ & BR & _ & _ & _ & _ & _ & _ & Hlt).
  - apply Nat.eqb_eq; vm_compute; reflexivity.
  - apply Nat.leb_le; vm_compute; reflexivity.
  - by_eval.
  - by_eval.
  - split; vm_compute; discriminate.
  - apply Nat.ltb_lt; vm_compute; reflexivity.
  - assert (HB : base_value right = 17) by (rewrite BR; vm_compute; reflexivity).
    destruct (Hlt ltac:(lia)) as (PL & PR & _).
    exists left, right. split; [exact E|]. split; [exact HB|]. split; [exact PL|exact PR].
Defined.

End SplitClaims.


(** ** Keys of one field *)
Module KeyFacts.
Import Keys KV.

Lemma key_compare_app (p a b : list Z) : key_compare (p ++ a) (p ++ b) = key_compare a b.
Proof. induction p as [|x p IH]; simpl; [done|]. by rewrite Z.compare_refl. Qed.

Lemma compare_lex (M a b c d : Z) :
  0 <= b < M -> 0 <= d < M ->
  Z.compare (a * M + b) (c * M + d) = match Z.compare a c with Eq => Z.compare b d | r => r end.
Proof.
  intros Hb Hd. destruct (Z.compare_spec a c) as [->|Hlt|Hgt].
  - destruct (Z.compare_spec b d); [subst; apply Z.compare_refl|apply Z.compare_lt_iff; lia|
                                    apply Z.compare_gt_iff; lia].
  - apply Z.compare_lt_iff. nia.
  - apply Z.compare_gt_iff. nia.
Qed.

Lemma be32_decomp (x : Z) : 0 <= x < 2^32 ->
  x = (x / 2^24) mod 256 * 2^24 + ((x / 2^16) mod 256 * 2^16 + ((x / 2^8) mod 256 * 2^8 + x mod 256)).
Proof. intros Hx. simpl in *. Z.div_mod_to_equations. lia. Qed.

Lemma key_compare_be32 (x y : Z) : 0 <= x < 2^32 -> 0 <= y < 2^32 ->
  key_compare (be32 x) (be32 y) = Z.compare x y.
Proof.
  intros Hx Hy. rewrite (be32_decomp x Hx) at 2. rewrite (be32_decomp y Hy) at 2.
  unfold be32. simpl key_compare.
  assert (B : forall z, 0 <= z mod 256 < 256) by (intros; apply Z.mod_pos_bound; lia).
  rewrite compare_lex by (pose proof (B (x / 2^16)); pose proof (B (x / 2^8)); pose proof (B x);
                          pose proof (B (y / 2^16)); pose proof (B (y / 2^8)); pose proof (B y);
                          simpl in *; lia).
  destruct (Z.compare _ _); try done.
  rewrite compare_lex by (pose proof (B (x / 2^8)); pose proof (B x);
                          pose proof (B (y / 2^8)); pose proof (B y); simpl in *; lia).
  destruct (Z.compare _ _); try done.
  rewrite compare_lex by (pose proof (B x); pose proof (B y); simpl in *; lia).
  destruct (Z.compare _ _); try done.
  by destruct (Z.compare _ _).
Qed.

Lemma key_compare_bucket (f : string) (x y : Z) : 0 <= x < 2^32 -> 0 <= y < 2^32 ->
  key_compare (make_bucket_key f x) (make_bucket_key f y) = Z.compare x y.
Proof.
  intros Hx Hy. unfold make_bucket_key. rewrite !app_assoc, key_compare_app.
  by apply key_compare_be32.
Qed.

Lemma dec_be_be32 (x : Z) : 0 <= x < 2^32 -> dec_be (be32 x) = x.
Proof.
  intros Hx. unfold dec_be, be32. simpl fold_left. simpl in *.
  Z.div_mod_to_equations. lia.
Qed.

Lemma parse_make_bucket_key (f : string) (x : Z) : 0 <= x < 2^32 ->
  parse_bucket_key_val (make_bucket_key f x) = x.
Proof.
  intros Hx. unfold parse_bucket_key_val, make_bucket_key.
  assert (L : length (str_bytes f ++ [58] ++ be32 x) = (length (str_bytes f ++ [58%Z]) + 4)%nat)
    by (rewrite app_assoc, length_app; reflexivity).
  rewrite L. destruct (Nat.ltb_spec (length (str_bytes f ++ [58%Z]) + 4) 4); [lia|].
  rewrite Nat.add_sub, app_assoc, drop_app_length by reflexivity.
  by apply dec_be_be32.
Qed.

Lemma has_prefix_app (p x : list Z) : has_prefix p (p ++ x) = true.
Proof. induction p as [|a p IH]; simpl; [done|]. by rewrite Z.eqb_refl, IH. Qed.

Lemma has_prefix_bucket (f : string) (x : Z) : has_prefix (field_prefix f) (make_bucket_key f x) = true.
Proof. unfold field_prefix, make_bucket_key. rewrite app_assoc. apply has_prefix_app. Qed.

Lemma string_app_cancel (f a b : string) : String.append f a = String.append f b -> a = b.
Proof. induction f as [|c f IH]; simpl; [done|]. intros E. injection E. exact IH. Qed.

Lemma make_forward_key_inj (f : string) (i j : Z) : 0 <= i -> 0 <= j ->
  make_forward_key f i = make_forward_key f j -> i = j.
Proof.
  unfold make_forward_key. intros Hi Hj E.
  apply string_app_cancel in E. simpl in E. injection E as E.
  apply pretty_N_inj in E. apply (f_equal Z.of_N) in E. by rewrite !Z2N.id in E.
Qed.

End KeyFacts.

(** ** The inverted table of one field as a list of buckets *)
Module StoreFacts.
Import Bucket Keys KV NumericIndex KeyFacts SplitFacts BucketFacts BucketCodecFacts.

Section Field.
Context `{RoaringCodec}.
Variable f : string.

Definition enc (b : Bucket.t) : list Z * list Z := (make_bucket_key f (base_value b), serialize b).

Definition base_u32 (b : Bucket.t) : Prop := 0 <= base_value b < 2^32.

Definition before (b1 b2 : Bucket.t) : Prop := base_value b1 < base_value b2.

Lemma set_range_split (L1 L2 : list Bucket.t) (v : Z) :
  0 <= v < 2^32 -> Forall base_u32 (L1 ++ L2) ->
  Forall (fun b => base_value b < v) L1 -> Forall (fun b => v <= base_value b) L2 ->
  set_range (enc <$> (L1 ++ L2)) (make_bucket_key f v) =
    match L2 with [] => None | _ :: _ => Some (length L1) end.
Proof.
  intros Hv Hu H1 H2. induction L1 as [|b L1 IH].
  - destruct L2 as [|b L2]; [done|]. rewrite app_nil_l, fmap_cons.
    change (enc b) with (make_bucket_key f (base_value b), serialize b). cbn [set_range].
    apply Forall_cons in H2 as [Hb _]. apply Forall_cons in Hu as [Hub _].
    rewrite key_compare_bucket by (unfold base_u32 in Hub; lia).
    destruct (Z.compare_spec (base_value b) v); [done|lia|done].
  - rewrite <- app_comm_cons, fmap_cons.
    change (enc b) with (make_bucket_key f (base_value b), serialize b). cbn [set_range].
    apply Forall_cons in H1 as [Hb H1]. apply Forall_cons in Hu as [Hub Hu].
    rewrite key_compare_bucket by (unfold base_u32 in Hub; lia).
    destruct (Z.compare_spec (base_value b) v); [lia| |lia].
    rewrite IH by done. by destruct L2.
Qed.

Lemma lookup_enc (L1 L2 : list Bucket.t) (b : Bucket.t) :
  (enc <$> (L1 ++ b :: L2)) !! length L1 = Some (enc b).
Proof. rewrite fmap_app, lookup_app_r; rewrite length_fmap; [|lia]. by rewrite Nat.sub_diag. Qed.

Lemma lookup_enc_cons (L1 L2 : list Bucket.t) (b : Bucket.t) :
  (enc <$> (L1 ++ b :: L2)) !! length L1 = Some (make_bucket_key f (base_value b), serialize b).
Proof. apply lookup_enc. Qed.

Lemma locate_hit (L1 L2 : list Bucket.t) (b : Bucket.t) (v : Z) :
  0 <= v < 2^32 -> Forall base_u32 (L1 ++ b :: L2) -> StronglySorted before (L1 ++ b :: L2) ->
  base_value b <= v -> Forall (fun c => v < base_value c) L2 ->
  locate (enc <$> (L1 ++ b :: L2)) f v = Some (length L1).
Proof.
  intros Hv Hu Hs Hb H2.
  assert (H1 : Forall (fun c => base_value c < base_value b) L1).
  { apply Forall_forall. intros c Hc. apply (StronglySorted_app_1_elem_of before L1 (b :: L2) c b Hs Hc).
    by left. }
  assert (Hub : base_u32 b) by (apply Forall_app in Hu as [_ Hu]; by apply Forall_cons in Hu as [? _]).
  unfold locate. destruct (Z.le_gt_cases v (base_value b)) as [Heq|Hlt].
  - assert (base_value b = v) as Hbv by lia.
    rewrite (set_range_split L1 (b :: L2) v Hv Hu).
    2: { eapply Forall_impl; [exact H1|]; simpl; lia. }
    2: { constructor; [lia|]. eapply Forall_impl; [exact H2|]; simpl; lia. }
    rewrite lookup_enc_cons, has_prefix_bucket, parse_make_bucket_key by (unfold base_u32 in Hub; lia).
    rewrite Hbv, Z.ltb_irrefl. reflexivity.
  - replace (L1 ++ b :: L2) with ((L1 ++ [b]) ++ L2) by (by rewrite <- app_assoc).
    rewrite (set_range_split (L1 ++ [b]) L2 v Hv).
    2: by rewrite <- app_assoc.
    2: { apply Forall_app; split; [eapply Forall_impl; [exact H1|]; simpl; lia|constructor; [lia|constructor]]. }
    2: { eapply Forall_impl; [exact H2|]; simpl; lia. }
    destruct L2 as [|c L2].
    + unfold last. rewrite app_nil_r, length_fmap, length_app. simpl.
      replace (length L1 + 1)%nat with (S (length L1)) by lia. reflexivity.
    + assert (Huc : base_u32 c).
      { apply Forall_app in Hu as [_ Hu]. apply Forall_cons in Hu as [_ Hu].
        by apply Forall_cons in Hu as [? _]. }
      apply Forall_cons in H2 as [Hc _].
      replace (length (L1 ++ [b])) with (length (L1 ++ [b])) by done.
      rewrite lookup_enc_cons, has_prefix_bucket, parse_make_bucket_key by (unfold base_u32 in Huc; lia).
      rewrite (proj2 (Z.ltb_lt v (base_value c)) Hc). simpl.
      rewrite length_app, Nat.add_1_r. reflexivity.
Qed.

Lemma locate_miss (L : list Bucket.t) (v : Z) :
  0 <= v < 2^32 -> Forall base_u32 L -> Forall (fun c => v < base_value c) L ->
  locate (enc <$> L) f v = None.
Proof.
  intros Hv Hu H2. unfold locate.
  pose proof (set_range_split [] L v Hv Hu (Forall_nil_2 _)) as E.
  rewrite app_nil_l in E. rewrite E by (eapply Forall_impl; [exact H2|]; simpl; lia).
  destruct L as [|c L]; [done|].
  apply Forall_cons in H2 as [Hc _]. apply Forall_cons in Hu as [Huc _].
  change (length (@nil Bucket.t)) with 0%nat.
  change ((enc <$> c :: L) !! 0%nat) with (Some (make_bucket_key f (base_value c), serialize c)).
  cbv beta iota. rewrite has_prefix_bucket, parse_make_bucket_key by (unfold base_u32 in Huc; lia).
  rewrite (proj2 (Z.ltb_lt v (base_value c)) Hc). reflexivity.
Qed.

Lemma find_exact_hit (L1 L2 : list Bucket.t) (b : Bucket.t) :
  Forall base_u32 (L1 ++ b :: L2) -> Forall (fun c => base_value c < base_value b) L1 ->
  find_exact (enc <$> (L1 ++ b :: L2)) (make_bucket_key f (base_value b)) = Some (length L1).
Proof.
  intros Hu H1. assert (Hub : base_u32 b).
  { apply Forall_app in Hu as [_ Hu]. by apply Forall_cons in Hu as [? _]. }
  induction L1 as [|c L1 IH].
  - rewrite app_nil_l, fmap_cons.
    change (enc b) with (make_bucket_key f (base_value b), serialize b). cbn [find_exact].
    rewrite key_compare_bucket by (unfold base_u32 in Hub; lia). by rewrite Z.compare_refl.
  - rewrite <- app_comm_cons, fmap_cons.
    change (enc c) with (make_bucket_key f (base_value c), serialize c). cbn [find_exact].
    apply Forall_cons in H1 as [Hc H1]. apply Forall_cons in Hu as [Huc Hu].
    rewrite key_compare_bucket by (unfold base_u32 in *; lia).
    rewrite (proj2 (Z.compare_lt_iff _ _) Hc). rewrite IH by done. reflexivity.
Qed.

Lemma put_current_enc (L1 L2 : list Bucket.t) (b b' : Bucket.t) :
  base_value b' = base_value b ->
  put_current (enc <$> (L1 ++ b :: L2)) (length L1) (serialize b') = enc <$> (L1 ++ b' :: L2).
Proof.
  intros Hb. unfold put_current. induction L1 as [|c L1 IH].
  - rewrite !app_nil_l, !fmap_cons.
    assert (enc b' = (make_bucket_key f (base_value b), serialize b')) as -> by (unfold enc; by rewrite Hb).
    reflexivity.
  - rewrite <- !app_comm_cons, !fmap_cons. cbn [length]. rewrite <- IH. reflexivity.
Qed.

Lemma del_current_enc (L1 L2 : list Bucket.t) (b : Bucket.t) :
  del_current (enc <$> (L1 ++ b :: L2)) (length L1) = enc <$> (L1 ++ L2).
Proof.
  unfold del_current. induction L1 as [|c L1 IH]; [done|].
  rewrite <- !app_comm_cons, !fmap_cons. cbn [length]. rewrite <- IH. reflexivity.
Qed.

Lemma upsert_enc (L1 L2 : list Bucket.t) (b : Bucket.t) :
  Forall base_u32 (L1 ++ L2) -> base_u32 b ->
  Forall (fun c => base_value c < base_value b) L1 ->
  Forall (fun c => base_value b < base_value c) L2 ->
  upsert (enc <$> (L1 ++ L2)) (make_bucket_key f (base_value b)) (serialize b) = enc <$> (L1 ++ b :: L2).
Proof.
  intros Hu Hub H1 H2. induction L1 as [|c L1 IH].
  - rewrite !app_nil_l. destruct L2 as [|c L2]; [reflexivity|].
    rewrite fmap_cons.
    change (enc c) with (make_bucket_key f (base_value c), serialize c). cbn [upsert].
    apply Forall_cons in H2 as [Hc _]. apply Forall_cons in Hu as [Huc _].
    rewrite key_compare_bucket by (unfold base_u32 in *; lia).
    rewrite (proj2 (Z.compare_gt_iff _ _) Hc). reflexivity.
  - rewrite <- !app_comm_cons, fmap_cons.
    change (enc c) with (make_bucket_key f (base_value c), serialize c). cbn [upsert].
    apply Forall_cons in H1 as [Hc H1]. apply Forall_cons in Hu as [Huc Hu].
    rewrite key_compare_bucket by (unfold base_u32 in *; lia).
    rewrite (proj2 (Z.compare_lt_iff _ _) Hc). rewrite IH by done. reflexivity.
Qed.

(** Well-formed buckets, and the order of the buckets of a field. *)
Definition bucket_ok (b : Bucket.t) : Prop :=
  length (deltas b) = length (ids b) /\ (ids b <> []) /\ StronglySorted Z.le (deltas b) /\
  Forall (fun d => 0 <= d <= MAX_DELTA /\ 0 <= base_value b + d < 2^32) (deltas b) /\
  0 <= base_value b /\ Forall is_u32 (ids b) /\ summary_bitmap b = list_to_set (ids b).

Definition below (b1 b2 : Bucket.t) : Prop :=
  base_value b1 < base_value b2 /\ Forall (fun e => e.1 < base_value b2) (entries b1).

Definition all_entries (L : list Bucket.t) : list (Z * Z) := concat (entries <$> L).

Lemma entries_fst (b : Bucket.t) :
  length (deltas b) = length (ids b) ->
  fst <$> entries b = (fun d => base_value b + d) <$> deltas b.
Proof. intros Hl. apply (zw_fmap_fst _ (fun x => x)), Hl. Qed.

Lemma length_entries (b : Bucket.t) :
  length (deltas b) = length (ids b) -> length (entries b) = length (ids b).
Proof. intros Hl. unfold entries. rewrite length_zip_with_l_eq; lia. Qed.

Lemma entries_Forall_fst (b : Bucket.t) (P : Z -> Prop) :
  length (deltas b) = length (ids b) ->
  Forall (fun e => P e.1) (entries b) <-> Forall (fun d => P (base_value b + d)) (deltas b).
Proof.
  intros Hl. rewrite <- (Forall_fmap fst P (entries b)), entries_fst by exact Hl.
  by rewrite Forall_fmap.
Qed.

Lemma entries_Forall_snd (b : Bucket.t) (P : Z -> Prop) :
  length (deltas b) = length (ids b) ->
  Forall (fun e => P e.2) (entries b) <-> Forall P (ids b).
Proof.
  intros Hl. rewrite <- (Forall_fmap snd P (entries b)), entries_ids by exact Hl. done.
Qed.

Lemma bucket_ok_intro (b : Bucket.t) :
  length (deltas b) = length (ids b) -> StronglySorted Z.le (deltas b) ->
  Forall (fun d => 0 <= d <= MAX_DELTA) (deltas b) -> 0 <= base_value b ->
  summary_bitmap b = list_to_set (ids b) -> entries b <> [] ->
  Forall (fun e => e.1 < 2^32 /\ is_u32 e.2) (entries b) -> bucket_ok b.
Proof.
  intros Hl Hs Hd HB Hbm Hne He.
  assert (Hv : Forall (fun e => e.1 < 2^32) (entries b)) by (eapply Forall_impl; [exact He|]; simpl; tauto).
  assert (Hi : Forall (fun e => is_u32 e.2) (entries b)) by (eapply Forall_impl; [exact He|]; simpl; tauto).
  apply (entries_Forall_fst b (fun x => x < 2^32) Hl) in Hv.
  apply (entries_Forall_snd b is_u32 Hl) in Hi.
  split; [exact Hl|]. split.
  { intros E. apply Hne. apply nil_length_inv. rewrite length_entries, E by exact Hl. done. }
  split; [exact Hs|]. split; [|split; [exact HB|split; [exact Hi|exact Hbm]]].
  eapply Forall_impl; [apply Forall_and; split; [exact Hd|exact Hv]|]. simpl. lia.
Qed.

Lemma bucket_ok_entries (b : Bucket.t) :
  bucket_ok b ->
  Forall (fun e => base_value b <= e.1 <= base_value b + MAX_DELTA /\ e.1 < 2^32 /\ is_u32 e.2) (entries b).
Proof.
  intros (Hl & _ & _ & Hd & _ & Hi & _).
  assert (A : Forall (fun e => base_value b <= e.1 <= base_value b + MAX_DELTA /\ e.1 < 2^32) (entries b)).
  { apply (entries_Forall_fst b (fun x => base_value b <= x <= base_value b + MAX_DELTA /\ x < 2^32) Hl).
    eapply Forall_impl; [exact Hd|]. simpl. lia. }
  apply (entries_Forall_snd b is_u32 Hl) in Hi.
  eapply Forall_impl; [apply Forall_and; split; [exact A|exact Hi]|]. simpl. tauto.
Qed.

Lemma bucket_ok_u32 (b : Bucket.t) : bucket_ok b -> base_u32 b.
Proof.
  intros (Hl & Hne & _ & Hd & HB & _). unfold base_u32.
  destruct (deltas b) as [|d ds] eqn:E; [destruct (ids b); [done|simpl in Hl; lia]|].
  apply Forall_cons in Hd as [Hd _]. lia.
Qed.

Lemma slide_cut_le (b : Bucket.t) :
  length (deltas b) = length (ids b) -> (slide_cut b <= length (deltas b))%nat.
Proof.
  intros Hl. unfold slide_cut, probe_right.
  assert (Hmid : (length (ids b) / 2 <= length (deltas b))%nat) by (rewrite Hl; apply Nat.Div0.div_le_upper_bound; lia).
  destruct (probe_right_go_spec (deltas b) _ _ eq_refl Hmid) as (R1 & _).
  destruct (probe_left_spec (deltas b) (length (ids b) / 2)) as (L1 & _).
  destruct (Nat.ltb_spec (probe_right_go (deltas b) (length (deltas b) - length (ids b) / 2) (length (ids b) / 2))
              (length (deltas b))); [lia|].
  destruct (Nat.ltb_spec 0 (probe_left (deltas b) (length (ids b) / 2))); lia.
Qed.

Lemma ss_before (L : list Bucket.t) : StronglySorted below L -> StronglySorted before L.
Proof.
  induction 1 as [|c L HL IH HF]; constructor; [exact IH|].
  eapply Forall_impl; [exact HF|]. intros x [? _]. exact H0.
Qed.

Lemma bucket_ok_base_le (m : Bucket.t) (e : Z * Z) :
  bucket_ok m -> e ∈ entries m -> base_value m <= e.1.
Proof.
  intros Hm He. pose proof (bucket_ok_entries m Hm) as HF.
  rewrite Forall_forall in HF. specialize (HF e He). lia.
Qed.

Lemma bucket_ok_nonempty (m : Bucket.t) : bucket_ok m -> exists e, e ∈ entries m.
Proof.
  intros Hm. destruct Hm as (Hl & Hne & _).
  destruct (entries m) as [|e es] eqn:E.
  - exfalso. apply Hne. apply nil_length_inv. rewrite <- length_entries, E by exact Hl. done.
  - exists e. by left.
Qed.

(** A well-formed bucket whose entries lie below [base_value c] is below [c]. *)
Lemma below_of_sub (m c : Bucket.t) (xs : list (Z * Z)) :
  bucket_ok m -> (forall e, e ∈ entries m -> e ∈ xs) ->
  Forall (fun e => e.1 < base_value c) xs -> below m c.
Proof.
  intros Hm Hsub Hxs. rewrite Forall_forall in Hxs.
  destruct (bucket_ok_nonempty m Hm) as [e He].
  split.
  - pose proof (bucket_ok_base_le m e Hm He). specialize (Hxs e (Hsub e He)). lia.
  - apply Forall_forall. intros e' He'. exact (Hxs e' (Hsub e' He')).
Qed.

Lemma below_base_trans (c b m : Bucket.t) :
  below c b -> base_value b <= base_value m -> below c m.
Proof.
  intros [Hb He] Hle. split; [lia|]. eapply Forall_impl; [exact He|]. simpl. lia.
Qed.

(** Replacing the bucket [b] of a sorted chain by buckets [M] whose bases
    are not below [b]'s and whose entries come from [xs], all below the
    later buckets, keeps the chain sorted. *)
Lemma ss_replace (L1 L2 M : list Bucket.t) (b : Bucket.t) (xs : list (Z * Z)) :
  StronglySorted below (L1 ++ b :: L2) -> StronglySorted below M ->
  Forall (fun m => bucket_ok m /\ base_value b <= base_value m /\
                   forall e, e ∈ entries m -> e ∈ xs) M ->
  Forall (fun c => Forall (fun e => e.1 < base_value c) xs) L2 ->
  StronglySorted below (L1 ++ M ++ L2).
Proof.
  intros Hs HM HMf H2. rewrite Forall_forall in HMf, H2.
  pose proof (StronglySorted_app_1_l below _ _ Hs) as Hs1.
  pose proof (StronglySorted_app_1_r below _ _ Hs) as Hs2.
  apply StronglySorted_cons in Hs2 as [_ Hs2].
  apply StronglySorted_app_2; [|exact Hs1|apply StronglySorted_app_2; [|exact HM|exact Hs2]].
  - intros c x Hc Hx. apply elem_of_app in Hx as [Hx|Hx].
    + destruct (HMf x Hx) as (_ & Hle & _).
      apply (below_base_trans c b x); [|exact Hle].
      apply (StronglySorted_app_1_elem_of below L1 (b :: L2) c b Hs Hc). by left.
    + apply (StronglySorted_app_1_elem_of below L1 (b :: L2) c x Hs Hc). by right.
  - intros m c Hm Hc. destruct (HMf m Hm) as (Hok & _ & Hsub).
    exact (below_of_sub m c xs Hok Hsub (H2 c Hc)).
Qed.

(** The last bucket whose base is at most [v], if any. *)
Lemma split_at_value (L : list Bucket.t) (v : Z) :
  Forall (fun c => v < base_value c) L \/
  exists L1 b L2, L = L1 ++ b :: L2 /\ base_value b <= v /\ Forall (fun c => v < base_value c) L2.
Proof.
  induction L as [|c L [IH|(L1 & b & L2 & -> & Hb & H2)]].
  - left. constructor.
  - destruct (Z.le_gt_cases (base_value c) v) as [Hc|Hc].
    + right. exists [], c, L. done.
    + left. by constructor.
  - right. exists (c :: L1), b, L2. done.
Qed.

Lemma all_entries_app (L1 L2 : list Bucket.t) :
  all_entries (L1 ++ L2) = all_entries L1 ++ all_entries L2.
Proof. unfold all_entries. by rewrite fmap_app, concat_app. Qed.

Lemma all_entries_cons (b : Bucket.t) (L : list Bucket.t) :
  all_entries (b :: L) = entries b ++ all_entries L.
Proof. reflexivity. Qed.

Lemma bucket_ok_all (L : list Bucket.t) :
  Forall bucket_ok L ->
  Forall (fun e => e.1 < 2^32 /\ is_u32 e.2) (all_entries L).
Proof.
  induction 1 as [|b L Hb HL IH]; [constructor|].
  rewrite all_entries_cons. apply Forall_app. split; [|exact IH].
  eapply Forall_impl; [exact (bucket_ok_entries b Hb)|]. simpl. tauto.
Qed.

Lemma length_ids_le (L1 L2 : list Bucket.t) (b : Bucket.t) :
  bucket_ok b ->
  (length (ids b) <= length (all_entries (L1 ++ b :: L2)))%nat.
Proof.
  intros (Hl & _). rewrite all_entries_app, all_entries_cons, !length_app.
  rewrite length_entries by exact Hl. lia.
Qed.

(** [Bucket.add] within range keeps a bucket well-formed and gains one entry. *)
Lemma add_bucket_ok (b : Bucket.t) (v id : Z) :
  bucket_ok b -> base_value b <= v <= base_value b + MAX_DELTA -> is_u32 v -> is_u32 id ->
  exists b', add b v id = Ok b' /\ bucket_ok b' /\ base_value b' = base_value b /\
    entries b' ≡ₚ (v, id) :: entries b /\ length (ids b') = S (length (ids b)).
Proof.
  intros Hb Hv Hvu Hid. pose proof Hb as (Hl & _ & Hs & Hd & HB & Hi & Hbm).
  destruct (add_entries b v id Hv Hl) as (b' & Ha & Hbase & Hds & Hl' & Hperm & Hbm').
  exists b'. split; [exact Ha|]. split; [|split; [exact Hbase|split; [exact Hperm|]]].
  - apply bucket_ok_intro.
    + exact Hl'.
    + rewrite Hds. apply insert_lower_bound_sorted, Hs.
    + rewrite Hds, insert_at_perm. constructor; [lia|].
      eapply Forall_impl; [exact Hd|]. simpl. lia.
    + lia.
    + rewrite Hbm', Hbm. rewrite add_ok in Ha by exact Hv. injection Ha as <-.
      cbn [ids]. rewrite (list_to_set_perm _ _ (insert_at_perm _ _ _)). reflexivity.
    + intros E. rewrite E in Hperm. exact (Permutation_nil_cons Hperm).
    + rewrite Hperm. constructor; [split; [unfold is_u32 in Hvu; simpl; lia|exact Hid]|].
      eapply Forall_impl; [exact (bucket_ok_entries b Hb)|]. simpl. tauto.
  - rewrite add_ok in Ha by exact Hv. injection Ha as <-. cbn [ids].
    unfold insert_at. rewrite length_app. cbn [length]. rewrite length_take, length_drop.
    pose proof (lower_bound_le (deltas b) (v - base_value b)). lia.
Qed.

(** The bucket [add_to_buckets] creates for a value no bucket covers. *)
Definition new_bucket (v id : Z) : Bucket.t := mk v [0] [id] ({[id]} ∪ ∅).

Lemma add_empty (v id : Z) : add (Bucket.empty v) v id = Ok (new_bucket v id).
Proof. unfold add. cbn. rewrite Z.ltb_irrefl, Z.sub_diag. reflexivity. Qed.

Lemma new_bucket_ok (v id : Z) : is_u32 v -> is_u32 id -> bucket_ok (new_bucket v id).
Proof.
  intros Hv Hi. unfold is_u32 in Hv.
  split; [done|]. split; [done|]. split; [repeat constructor|].
  split; [constructor; [unfold MAX_DELTA; cbn; lia|constructor]|].
  split; [cbn; lia|]. split; [by constructor|]. reflexivity.
Qed.

Lemma new_bucket_entries (v id : Z) : entries (new_bucket v id) = [(v, id)].
Proof. unfold entries. cbn. by rewrite Z.add_0_r. Qed.

Lemma entries_take (b l : Bucket.t) (k : nat) :
  base_value l = base_value b -> deltas l = take k (deltas b) -> ids l = take k (ids b) ->
  entries l = take k (entries b).
Proof.
  intros Hb Hd Hi. unfold entries. rewrite Hb, Hd, Hi. by rewrite zip_with_take.
Qed.

Lemma perm_sub (m : Bucket.t) (X Y xs : list (Z * Z)) :
  entries m ≡ₚ X -> X ++ Y ≡ₚ xs -> forall e, e ∈ entries m -> e ∈ xs.
Proof. intros Hm HX e He. rewrite <- HX. apply elem_of_app. left. by rewrite <- Hm. Qed.

Lemma perm_sub_r (m : Bucket.t) (X Y xs : list (Z * Z)) :
  entries m ≡ₚ Y -> X ++ Y ≡ₚ xs -> forall e, e ∈ entries m -> e ∈ xs.
Proof. intros Hm HX e He. rewrite <- HX. apply elem_of_app. right. by rewrite <- Hm. Qed.

(** The slide split of a saturated well-formed bucket: two well-formed
    buckets, the left one below the right one, sharing the old entries and
    the new one. *)
Lemma split_bucket_ok (b : Bucket.t) (v id : Z) :
  bucket_ok b -> (MAX_SIZE <= length (ids b))%nat -> slide_cut b <> length (deltas b) ->
  base_value b <= v <= base_value b + MAX_DELTA -> is_u32 v -> is_u32 id ->
  exists left right, split_insert b (slide_cut b) v id = Ok (left, right) /\
    bucket_ok left /\ bucket_ok right /\ base_value left = base_value b /\
    base_value b < base_value right /\ below left right /\
    (forall e, e ∈ entries left -> e ∈ (v, id) :: entries b) /\
    (forall e, e ∈ entries right -> e ∈ (v, id) :: entries b) /\
    entries left ++ entries right ≡ₚ (v, id) :: entries b.
Proof.
  intros Hb Hsz Hcut Hv Hvu Hid. pose proof Hb as (Hl & _ & Hs & Hd & HB & Hi & Hbm).
  pose proof (slide_cut_le b Hl) as Hle.
  assert (Hn : (2 <= length (deltas b))%nat) by (unfold MAX_SIZE in Hsz; lia).
  assert (Hk : (slide_cut b < length (deltas b))%nat) by lia.
  destruct (slide_cut_spec b (eq_sym Hl) Hn Hs Hk) as (Hk0 & Hkb & _).
  set (k := slide_cut b) in *.
  destruct (split_insert_spec b k v id Hl Hs Hd ltac:(lia) Hkb Hv) as
    (left & right & Hsp & Hbl & Hbr & Hll & Hlr & Hsl & Hsr & Hdl & Hdr & Hbml & Hbmr & Hlr_below & HA & HBc).
  assert (Hdk1 : 0 <= nth (k - 1) (deltas b) 0) by (apply (proj1 (Forall_nth _ 0 _) Hd); lia).
  assert (Hdk : 0 <= base_value b + nth k (deltas b) 0 < 2^32) by (apply (proj1 (Forall_nth _ 0 _) Hd); lia).
  set (E := entries b) in *.
  assert (HlE : length E = length (deltas b)) by (unfold E; rewrite length_entries; lia).
  assert (HX : exists XL XR, entries left ≡ₚ XL /\ entries right ≡ₚ XR /\ XL ++ XR ≡ₚ (v, id) :: E /\
                            XL <> [] /\ XR <> []).
  { destruct (Z.le_gt_cases (base_value right) v) as [Hr|Hr].
    - destruct (HA Hr) as (Pr & Hdl' & Hil' & _).
      exists (take k E), ((v, id) :: drop k E). split; [|split; [exact Pr|split; [|split]]].
      + by rewrite (entries_take b left k Hbl Hdl' Hil').
      + rewrite <- Permutation_middle. by rewrite take_drop.
      + intros E0. apply (f_equal length) in E0. rewrite length_take in E0. simpl in E0. lia.
      + done.
    - destruct (HBc Hr) as (Pl & Pr & _).
      exists ((v, id) :: take k E), (drop k E). split; [exact Pl|split; [exact Pr|split; [|split]]].
      + simpl. by rewrite take_drop.
      + done.
      + intros E0. apply (f_equal length) in E0. rewrite length_drop in E0. simpl in E0. lia. }
  destruct HX as (XL & XR & Pl & Pr & Pall & HXL & HXR).
  assert (Hall : Forall (fun e => e.1 < 2^32 /\ is_u32 e.2) ((v, id) :: E)).
  { constructor; [split; [unfold is_u32 in Hvu; simpl; lia|exact Hid]|].
    eapply Forall_impl; [exact (bucket_ok_entries b Hb)|]. simpl. tauto. }
  rewrite <- Pall in Hall. apply Forall_app in Hall as [HallL HallR].
  exists left, right. split; [exact Hsp|].
  assert (Hokl : bucket_ok left).
  { apply bucket_ok_intro; try assumption; [lia| |by rewrite Pl].
    intros E0. rewrite E0 in Pl. apply HXL. by apply Permutation_nil. }
  assert (Hokr : bucket_ok right).
  { apply bucket_ok_intro; try assumption; [lia| |by rewrite Pr].
    intros E0. rewrite E0 in Pr. apply HXR. by apply Permutation_nil. }
  split; [exact Hokl|]. split; [exact Hokr|]. split; [exact Hbl|]. split; [lia|].
  split; [split; [lia|exact Hlr_below]|].
  split; [exact (perm_sub left XL XR _ Pl Pall)|].
  split; [exact (perm_sub_r right XL XR _ Pr Pall)|].
  by rewrite Pl, Pr.
Qed.

Lemma sub_refl_cons (b : Bucket.t) (v id : Z) :
  forall e, e ∈ entries b -> e ∈ (v, id) :: entries b.
Proof. intros e He. by right. Qed.

Lemma sub_new (b : Bucket.t) (v id : Z) :
  forall e, e ∈ entries (new_bucket v id) -> e ∈ (v, id) :: entries b.
Proof. rewrite new_bucket_entries. intros e He. apply list_elem_of_singleton in He as ->. by left. Qed.

Lemma sub_perm (b b' : Bucket.t) (v id : Z) :
  entries b' ≡ₚ (v, id) :: entries b -> forall e, e ∈ entries b' -> e ∈ (v, id) :: entries b.
Proof. intros Hp e He. by rewrite <- Hp. Qed.

Lemma ss_pair (b1 b2 : Bucket.t) : below b1 b2 -> StronglySorted below [b1; b2].
Proof. intros H12. constructor; [constructor; constructor|constructor; [exact H12|constructor]]. Qed.

(** The insertion of [(v, id)] into a well-formed sorted chain of buckets of
    one field: the new chain is well-formed and sorted and holds one more
    entry. *)
Lemma add_to_buckets_spec (L : list Bucket.t) (v id : Z) :
  Forall bucket_ok L -> StronglySorted below L ->
  Z.of_nat (length (all_entries L)) < 65535 -> is_u32 v -> is_u32 id ->
  exists L', add_to_buckets (enc <$> L) f v id = Ok (enc <$> L') /\
    Forall bucket_ok L' /\ StronglySorted below L' /\ all_entries L' ≡ₚ (v, id) :: all_entries L.
Proof.
  intros Hok Hs Hsz Hv Hid.
  assert (Hu : Forall base_u32 L) by (eapply Forall_impl; [exact Hok|]; exact bucket_ok_u32).
  pose proof (new_bucket_ok v id Hv Hid) as Hnb.
  destruct (split_at_value L v) as [Hmiss|(L1 & b & L2 & -> & Hbv & H2)].
  - (* no bucket of the field starts at or below [v] *)
    exists (new_bucket v id :: L). split; [|split; [by constructor|split]].
    + unfold add_to_buckets. rewrite (locate_miss L v Hv Hu Hmiss). cbv zeta beta iota.
      rewrite add_empty. cbv beta iota.
      pose proof (upsert_enc [] L (new_bucket v id) Hu Hv (Forall_nil_2 _) Hmiss) as E.
      rewrite !app_nil_l in E. exact (f_equal Ok E).
    + constructor; [exact Hs|]. eapply Forall_impl; [exact Hmiss|]. intros c Hc.
      apply (below_of_sub _ c [(v, id)] Hnb); [by rewrite new_bucket_entries|by constructor].
    + rewrite all_entries_cons, new_bucket_entries. reflexivity.
  - apply Forall_app in Hok as [Hok1 Hok2]. apply Forall_cons in Hok2 as [Hb Hok2].
    pose proof (bucket_ok_u32 b Hb) as Hbu.
    assert (H1 : Forall (fun c => base_value c < base_value b) L1).
    { apply Forall_forall. intros c Hc.
      apply (StronglySorted_app_1_elem_of below L1 (b :: L2) c b Hs Hc). by left. }
    assert (Hb2 : Forall (below b) L2).
    { apply StronglySorted_app_1_r, StronglySorted_cons in Hs as [Hb2 _]. exact Hb2. }
    assert (Hxs : Forall (fun c => Forall (fun e => e.1 < base_value c) ((v, id) :: entries b)) L2).
    { apply Forall_forall. intros c Hc. rewrite Forall_forall in H2, Hb2.
      constructor; [exact (H2 c Hc)|]. exact (proj2 (Hb2 c Hc)). }
    assert (Hloc : locate (enc <$> (L1 ++ b :: L2)) f v = Some (length L1)).
    { apply locate_hit; [exact Hv|exact Hu|apply ss_before, Hs|exact Hbv|exact H2]. }
    assert (Hbe : Forall (fun e => base_value b <= e.1 <= base_value b + MAX_DELTA /\ e.1 < 2^32 /\ is_u32 e.2)
                    (entries b)) by exact (bucket_ok_entries b Hb).
    destruct (Z.leb_spec (v - base_value b) MAX_DELTA) as [Hd|Hd].
    + (* [b] covers [v] *)
      pose proof (length_ids_le L1 L2 b Hb) as Hlb.
      assert (Hdes : deserialize (serialize b) (base_value b) = Ok b).
      { destruct Hb as (Hl & _ & _ & Hdb & _ & Hi & Hbm).
        apply deserialize_serialize; [exact Hl| |exact Hi|exact Hbm|lia].
        eapply Forall_impl; [exact Hdb|]. simpl. tauto. }
      assert (Hfind : find_exact (enc <$> (L1 ++ b :: L2)) (make_bucket_key f (base_value b)) = Some (length L1)).
      { apply find_exact_hit; [exact Hu|exact H1]. }
      assert (Hpre : add_to_buckets (enc <$> (L1 ++ b :: L2)) f v id =
                 (if (MAX_SIZE <=? length (ids b))%nat then
                    if (slide_cut b =? length (deltas b))%nat then
                      b' <- Bucket.add b v id ;; Ok (put_current (enc <$> (L1 ++ b :: L2)) (length L1) (serialize b'))
                    else
                      lr <- split_insert b (slide_cut b) v id ;;
                      Ok (upsert (put_current (enc <$> (L1 ++ b :: L2)) (length L1) (serialize lr.1))
                             (make_bucket_key f (base_value lr.2)) (serialize lr.2))
                  else b' <- Bucket.add b v id ;; Ok (put_current (enc <$> (L1 ++ b :: L2)) (length L1) (serialize b')))).
      { unfold add_to_buckets. rewrite Hloc, lookup_enc_cons. cbv zeta beta iota.
        rewrite has_prefix_bucket, parse_make_bucket_key by exact Hbu.
        rewrite (proj2 (Z.leb_le _ _) Hbv), (proj2 (Z.leb_le _ _) Hd). cbn [andb]. cbv beta iota.
        rewrite Hfind, lookup_enc_cons. cbv beta iota. rewrite Hdes. reflexivity. }
      rewrite Hpre. clear Hpre.
      assert (Hin : base_value b <= v <= base_value b + MAX_DELTA) by lia.
      destruct (Nat.leb_spec MAX_SIZE (length (ids b))) as [Hfull|Hfull];
        [destruct (Nat.eqb_spec (slide_cut b) (length (deltas b))) as [Hcut|Hcut]|].
      * (* saturated, no value boundary: the bucket grows past [MAX_SIZE] *)
        destruct (add_bucket_ok b v id Hb Hin Hv Hid) as (b' & Ha & Hb' & Hbase' & Hp' & _).
        exists (L1 ++ [b'] ++ L2). rewrite Ha. cbv beta iota.
        split; [by rewrite (put_current_enc L1 L2 b b' Hbase')|].
        split; [apply Forall_app; split; [exact Hok1|constructor; [exact Hb'|exact Hok2]]|].
        split.
        { apply (ss_replace L1 L2 [b'] b ((v, id) :: entries b) Hs); [constructor; constructor| |exact Hxs].
          constructor; [|constructor]. split; [exact Hb'|split; [lia|exact (sub_perm b b' v id Hp')]]. }
        rewrite !all_entries_app, !all_entries_cons. simpl. rewrite Hp'. solve_Permutation.
      * (* saturated: the slide split *)
        destruct (split_bucket_ok b v id Hb Hfull Hcut Hin Hv Hid) as
          (left & right & Hsp & Hokl & Hokr & Hbl & Hbr & Hlr & Hsubl & Hsubr & Hp).
        assert (Hr2 : Forall (fun c => base_value right < base_value c) L2).
        { apply Forall_forall. intros c Hc. rewrite Forall_forall in Hxs.
          exact (proj1 (below_of_sub right c _ Hokr Hsubr (Hxs c Hc))). }
        assert (Hul : Forall base_u32 ((L1 ++ [left]) ++ L2)).
        { rewrite <- app_assoc. apply Forall_app in Hu as [Hu1 Hu2]. apply Forall_cons in Hu2 as [_ Hu2].
          apply Forall_app. split; [exact Hu1|constructor; [exact (bucket_ok_u32 left Hokl)|exact Hu2]]. }
        exists (L1 ++ [left; right] ++ L2). rewrite Hsp. cbn [fst snd]. cbv beta iota.
        split.
        { rewrite (put_current_enc L1 L2 b left Hbl).
          replace (L1 ++ left :: L2) with ((L1 ++ [left]) ++ L2) by (by rewrite <- app_assoc).
          rewrite (upsert_enc (L1 ++ [left]) L2 right Hul (bucket_ok_u32 right Hokr)); [|apply Forall_app; split|exact Hr2].
          - by rewrite <- app_assoc.
          - eapply Forall_impl; [exact H1|]. simpl. lia.
          - constructor; [lia|constructor]. }
        split; [apply Forall_app; split; [exact Hok1|constructor; [exact Hokl|constructor; [exact Hokr|exact Hok2]]]|].
        split.
        { apply (ss_replace L1 L2 [left; right] b ((v, id) :: entries b) Hs); [exact (ss_pair _ _ Hlr)| |exact Hxs].
          constructor; [split; [exact Hokl|split; [lia|exact Hsubl]]|].
          constructor; [split; [exact Hokr|split; [lia|exact Hsubr]]|constructor]. }
        rewrite !all_entries_app, !all_entries_cons. simpl. rewrite (app_assoc (entries left) (entries right)), Hp. solve_Permutation.
      * (* below [MAX_SIZE]: a plain insertion *)
        destruct (add_bucket_ok b v id Hb Hin Hv Hid) as (b' & Ha & Hb' & Hbase' & Hp' & _).
        exists (L1 ++ [b'] ++ L2). rewrite Ha. cbv beta iota.
        split; [by rewrite (put_current_enc L1 L2 b b' Hbase')|].
        split; [apply Forall_app; split; [exact Hok1|constructor; [exact Hb'|exact Hok2]]|].
        split.
        { apply (ss_replace L1 L2 [b'] b ((v, id) :: entries b) Hs); [constructor; constructor| |exact Hxs].
          constructor; [|constructor]. split; [exact Hb'|split; [lia|exact (sub_perm b b' v id Hp')]]. }
        rewrite !all_entries_app, !all_entries_cons. simpl. rewrite Hp'. solve_Permutation.
    + (* [v] is beyond the reach of [b]: a new bucket after it *)
      assert (Hbn : below b (new_bucket v id)).
      { split; [cbn; unfold MAX_DELTA in Hd; lia|].
        eapply Forall_impl; [exact Hbe|]. cbn. intros e He. unfold MAX_DELTA in *. lia. }
      assert (Hul : Forall base_u32 ((L1 ++ [b]) ++ L2)) by (by rewrite <- app_assoc).
      exists (L1 ++ [b; new_bucket v id] ++ L2). split.
      { unfold add_to_buckets. rewrite Hloc, lookup_enc_cons. cbv zeta beta iota.
        rewrite has_prefix_bucket, parse_make_bucket_key by exact Hbu.
        rewrite (proj2 (Z.leb_le _ _) Hbv), (proj2 (Z.leb_gt _ _) Hd). cbn [andb]. cbv beta iota.
        rewrite add_empty. cbv beta iota.
        assert (E : upsert (enc <$> (L1 ++ [b]) ++ L2) (make_bucket_key f (base_value (new_bucket v id)))
                      (serialize (new_bucket v id)) = enc <$> ((L1 ++ [b]) ++ new_bucket v id :: L2)).
        { apply upsert_enc; [exact Hul|exact Hv| |exact H2]. apply Forall_app. split.
          - eapply Forall_impl; [exact H1|]. cbn. unfold MAX_DELTA in Hd. lia.
          - constructor; [cbn; unfold MAX_DELTA in Hd; lia|constructor]. }
        rewrite <- !app_assoc in E. exact (f_equal Ok E). }
      split; [apply Forall_app; split; [exact Hok1|constructor; [exact Hb|constructor; [exact Hnb|exact Hok2]]]|].
      split.
      { apply (ss_replace L1 L2 [b; new_bucket v id] b ((v, id) :: entries b) Hs); [exact (ss_pair _ _ Hbn)| |exact Hxs].
        constructor; [split; [exact Hb|split; [lia|exact (sub_refl_cons b v id)]]|].
        constructor; [split; [exact Hnb|split; [cbn; lia|exact (sub_new b v id)]]|constructor]. }
      rewrite !all_entries_app. cbn [app]. rewrite !all_entries_cons, new_bucket_entries. solve_Permutation.
Qed.

Lemma find_index_some (l : list Z) (x : Z) (i : nat) : find_index l x = Some i -> l !! i = Some x.
Proof.
  revert i. induction l as [|y l IH]; intros i H0; [discriminate|]. simpl in H0.
  destruct (Z.eqb_spec y x) as [->|Hne].
  - by injection H0 as <-.
  - destruct (find_index l x) as [j|] eqn:Ej; [|discriminate]. injection H0 as <-. by apply IH.
Qed.

Lemma find_index_elem (l : list Z) (x : Z) : x ∈ l -> exists i, find_index l x = Some i.
Proof.
  induction l as [|y l IH]; intros Hx; [by apply not_elem_of_nil in Hx|]. simpl.
  destruct (Z.eqb_spec y x) as [->|Hne]; [by exists O|].
  apply elem_of_cons in Hx as [->|Hx]; [done|].
  destruct (IH Hx) as [j ->]. by exists (S j).
Qed.

Lemma zip_with_delete {A B C} (g : A -> B -> C) (l : list A) (k : list B) (i : nat) :
  length l = length k -> zip_with g (delete i l) (delete i k) = delete i (zip_with g l k).
Proof.
  revert k i. induction l as [|x l IH]; intros [|y k] i Hl; try discriminate; [done|].
  destruct i as [|i]; [done|]. simpl. f_equal. apply IH. simpl in Hl. lia.
Qed.

Lemma StronglySorted_delete (l : list Z) (i : nat) :
  StronglySorted Z.le l -> StronglySorted Z.le (delete i l).
Proof.
  revert i. induction l as [|x l IH]; intros i Hs; [done|].
  apply StronglySorted_cons in Hs as [Hx Hs]. destruct i as [|i]; [exact Hs|].
  simpl. apply StronglySorted_cons. split; [by apply Forall_delete|by apply IH].
Qed.

(** [Bucket.remove] of an id the bucket holds once drops exactly its entry. *)
Lemma remove_bucket_ok (b : Bucket.t) (v id : Z) :
  bucket_ok b -> NoDup (ids b) -> (v, id) ∈ entries b ->
  exists b', Bucket.remove b id = Some b' /\ base_value b' = base_value b /\
    entries b ≡ₚ (v, id) :: entries b' /\
    (ids b' <> [] -> bucket_ok b') /\ (ids b' = [] -> entries b' = []).
Proof.
  intros Hb Hnd Hin. pose proof Hb as (Hl & _ & Hs & Hd & HB & Hi & Hbm).
  assert (Hid : id ∈ ids b).
  { rewrite <- (entries_ids b Hl). apply (list_elem_of_fmap_2 snd) in Hin. exact Hin. }
  destruct (find_index_elem (ids b) id Hid) as [i Hfi].
  pose proof (find_index_some _ _ _ Hfi) as Hii.
  destruct (list_elem_of_lookup_1 _ _ Hin) as [j Hj].
  assert (Hij : i = j).
  { apply (NoDup_lookup (ids b) i j id Hnd Hii). rewrite <- (entries_ids b Hl), list_lookup_fmap, Hj. done. }
  subst j.
  set (b' := mk (base_value b) (delete i (deltas b)) (delete i (ids b)) (summary_bitmap b ∖ {[id]})).
  assert (He' : entries b' = delete i (entries b)).
  { unfold entries. cbn [b' base_value deltas ids]. by rewrite zip_with_delete. }
  exists b'. split; [unfold Bucket.remove; by rewrite Hfi|]. split; [done|].
  split; [rewrite He'; by apply delete_Permutation|]. split.
  - intros Hne. split; [cbn; rewrite !length_delete; [lia| |]|].
    + by apply (lookup_lt_is_Some_2 (ids b)), (lookup_lt_Some _ _ _ Hii).
    + apply lookup_lt_is_Some_2. rewrite Hl. exact (lookup_lt_Some _ _ _ Hii).
    + split; [exact Hne|]. split; [by apply StronglySorted_delete|].
      split; [by apply Forall_delete|]. split; [exact HB|]. split; [by apply Forall_delete|].
      cbn [b' summary_bitmap ids]. rewrite Hbm.
      pose proof (delete_Permutation _ _ _ Hii) as Hp.
      assert (Hnot : id ∉ delete i (ids b)).
      { rewrite Hp in Hnd. apply NoDup_cons in Hnd as [Hn _]. exact Hn. }
      rewrite (list_to_set_perm _ _ Hp). apply leibniz_equiv. set_solver.
  - intros E. rewrite He'. unfold entries. cbn [b' ids] in E.
    apply (f_equal length) in E. rewrite length_delete in E by (eexists; exact Hii). cbn [length] in E.
    assert (length (delete i (zip_with (λ d i0 : Z, (base_value b + d, i0)) (deltas b) (ids b))) = 0%nat) as E0.
    { rewrite length_delete; [rewrite length_zip_with_l_eq; lia|].
      apply lookup_lt_is_Some_2. rewrite length_zip_with_l_eq by lia. rewrite Hl.
      exact (lookup_lt_Some _ _ _ Hii). }
    by apply nil_length_inv in E0.
Qed.

Lemma elem_of_all_entries (L : list Bucket.t) (e : Z * Z) :
  e ∈ all_entries L -> exists c, c ∈ L /\ e ∈ entries c.
Proof.
  induction L as [|c L IH]; intros He; [by apply not_elem_of_nil in He|].
  rewrite all_entries_cons in He. apply elem_of_app in He as [He|He].
  - exists c. split; [by left|exact He].
  - destruct (IH He) as (c' & Hc' & He'). exists c'. split; [by right|exact He'].
Qed.

(** An entry of value [v] lies in the bucket [locate] finds for [v]. *)
Lemma entry_in_located (L1 L2 : list Bucket.t) (b : Bucket.t) (v id : Z) :
  Forall bucket_ok (L1 ++ b :: L2) -> StronglySorted below (L1 ++ b :: L2) ->
  base_value b <= v -> Forall (fun c => v < base_value c) L2 ->
  (v, id) ∈ all_entries (L1 ++ b :: L2) -> (v, id) ∈ entries b.
Proof.
  intros Hok Hs Hbv H2 Hin. rewrite Forall_forall in Hok, H2.
  rewrite all_entries_app, all_entries_cons in Hin.
  apply elem_of_app in Hin as [Hin|Hin]; [|apply elem_of_app in Hin as [Hin|Hin]; [exact Hin|]].
  - destruct (elem_of_all_entries _ _ Hin) as (c & Hc & Hec).
    destruct (StronglySorted_app_1_elem_of below L1 (b :: L2) c b Hs Hc ltac:(by left)) as [_ Hcb].
    rewrite Forall_forall in Hcb. specialize (Hcb _ Hec). simpl in Hcb. lia.
  - destruct (elem_of_all_entries _ _ Hin) as (c & Hc & Hec).
    assert (Hcok : bucket_ok c) by (apply Hok; apply elem_of_app; right; by right).
    pose proof (bucket_ok_base_le c _ Hcok Hec). specialize (H2 c Hc). simpl in *. lia.
Qed.

Lemma ids_nodup (L1 L2 : list Bucket.t) (b : Bucket.t) :
  bucket_ok b -> NoDup (snd <$> all_entries (L1 ++ b :: L2)) -> NoDup (ids b).
Proof.
  intros (Hl & _) Hnd. rewrite all_entries_app, all_entries_cons, !fmap_app in Hnd.
  apply NoDup_app in Hnd as (_ & _ & Hnd). apply NoDup_app in Hnd as (Hnd & _).
  by rewrite entries_ids in Hnd.
Qed.

(** The removal of an entry [(v, id)] held once by a well-formed sorted chain
    of buckets of one field. *)
Lemma remove_from_buckets_spec (L : list Bucket.t) (v id : Z) :
  Forall bucket_ok L -> StronglySorted below L ->
  Z.of_nat (length (all_entries L)) <= 65535 -> is_u32 v ->
  NoDup (snd <$> all_entries L) -> (v, id) ∈ all_entries L ->
  exists L', remove_from_buckets (enc <$> L) f v id = Ok (enc <$> L') /\
    Forall bucket_ok L' /\ StronglySorted below L' /\ all_entries L ≡ₚ (v, id) :: all_entries L'.
Proof.
  intros Hok Hs Hsz Hv Hnd Hin.
  assert (Hu : Forall base_u32 L) by (eapply Forall_impl; [exact Hok|]; exact bucket_ok_u32).
  destruct (split_at_value L v) as [Hmiss|(L1 & b & L2 & -> & Hbv & H2)].
  - exfalso. destruct (elem_of_all_entries _ _ Hin) as (c & Hc & Hec).
    rewrite Forall_forall in Hok, Hmiss.
    pose proof (bucket_ok_base_le c _ (Hok c Hc) Hec). specialize (Hmiss c Hc). simpl in *. lia.
  - pose proof (entry_in_located L1 L2 b v id Hok Hs Hbv H2 Hin) as Hinb.
    pose proof Hok as Hok'. apply Forall_app in Hok' as [Hok1 Hok2]. apply Forall_cons in Hok2 as [Hb Hok2].
    pose proof (bucket_ok_u32 b Hb) as Hbu.
    pose proof (length_ids_le L1 L2 b Hb) as Hlb.
    assert (Hdes : deserialize (serialize b) (base_value b) = Ok b).
    { destruct Hb as (Hl & _ & _ & Hdb & _ & Hi & Hbm).
      apply deserialize_serialize; [exact Hl| |exact Hi|exact Hbm|lia].
      eapply Forall_impl; [exact Hdb|]. simpl. tauto. }
    assert (Hloc : locate (enc <$> (L1 ++ b :: L2)) f v = Some (length L1)).
    { apply locate_hit; [exact Hv|exact Hu|apply ss_before, Hs|exact Hbv|exact H2]. }
    assert (Hb2 : Forall (below b) L2).
    { apply StronglySorted_app_1_r, StronglySorted_cons in Hs as [Hb2 _]. exact Hb2. }
    assert (Hxs : Forall (fun c => Forall (fun e => e.1 < base_value c) (entries b)) L2).
    { eapply Forall_impl; [exact Hb2|]. intros c [_ Hc]. exact Hc. }
    destruct (remove_bucket_ok b v id Hb (ids_nodup L1 L2 b Hb Hnd) Hinb)
      as (b' & Hrem & Hbase' & Hp & Hok' & Hnil).
    assert (Hpre : remove_from_buckets (enc <$> (L1 ++ b :: L2)) f v id =
                   match ids b' with
                   | [] => Ok (del_current (enc <$> (L1 ++ b :: L2)) (length L1))
                   | _ :: _ => Ok (put_current (enc <$> (L1 ++ b :: L2)) (length L1) (serialize b'))
                   end).
    { unfold remove_from_buckets. rewrite Hloc, lookup_enc_cons. cbv zeta beta iota.
      rewrite has_prefix_bucket, parse_make_bucket_key by exact Hbu.
      rewrite (proj2 (Z.leb_le _ _) Hbv). cbv beta iota. rewrite Hdes. cbv beta iota.
      rewrite Hrem. reflexivity. }
    rewrite Hpre. destruct (ids b') as [|x xs] eqn:Eids.
    + exists (L1 ++ L2). split; [by rewrite del_current_enc|].
      split; [apply Forall_app; split; [exact Hok1|exact Hok2]|]. split.
      { apply (ss_replace L1 L2 [] b (entries b) Hs); [constructor|constructor|exact Hxs]. }
      rewrite !all_entries_app, all_entries_cons, Hp, (Hnil eq_refl). solve_Permutation.
    + assert (Hb' : bucket_ok b') by (apply Hok'; discriminate).
      exists (L1 ++ [b'] ++ L2). split; [by rewrite (put_current_enc L1 L2 b b' Hbase')|].
      split; [apply Forall_app; split; [exact Hok1|constructor; [exact Hb'|exact Hok2]]|]. split.
      { apply (ss_replace L1 L2 [b'] b (entries b) Hs); [constructor; constructor| |exact Hxs].
        constructor; [|constructor]. split; [exact Hb'|split; [lia|]].
        intros e He. rewrite Hp. by right. }
      rewrite !all_entries_app. cbn [app]. rewrite !all_entries_cons, Hp. solve_Permutation.
Qed.

Lemma fold_filter_spec (g : nat -> bool) (h : nat -> Z) (l : list nat) (acc : gset Z) (x : Z) :
  x ∈ fold_left (fun acc i => if g i then {[h i]} ∪ acc else acc) l acc <->
  x ∈ acc \/ exists i, i ∈ l /\ g i = true /\ x = h i.
Proof.
  revert acc. induction l as [|i l IH]; intros acc; simpl.
  - split; [by left|]. intros [Hx|(i & Hi & _)]; [exact Hx|by apply not_elem_of_nil in Hi].
  - rewrite IH. split.
    + intros [Hx|(j & Hj & Hg & ->)].
      * destruct (g i) eqn:Eg; [|by left].
        apply elem_of_union in Hx as [Hx|Hx]; [|by left].
        apply elem_of_singleton in Hx as ->. right. exists i. split; [by left|done].
      * right. exists j. split; [by right|done].
    + intros [Hx|(j & Hj & Hg & ->)].
      * left. destruct (g i); [set_solver|exact Hx].
      * apply elem_of_cons in Hj as [->|Hj].
        -- left. rewrite Hg. set_solver.
        -- right. by exists j.
Qed.

Lemma entries_nth (b : Bucket.t) (e : Z * Z) :
  length (deltas b) = length (ids b) ->
  e ∈ entries b <-> exists i, (i < length (ids b))%nat /\
    e = (base_value b + nth i (deltas b) 0, nth i (ids b) 0).
Proof.
  intros Hl. split.
  - intros He. apply list_elem_of_lookup_1 in He as [i Hi].
    unfold entries in Hi. rewrite lookup_zip_with in Hi.
    destruct (deltas b !! i) as [d|] eqn:Ed; [|discriminate]. simpl in Hi.
    destruct (ids b !! i) as [x|] eqn:Ex; [|discriminate]. simpl in Hi. injection Hi as <-.
    exists i. split; [exact (lookup_lt_Some _ _ _ Ex)|].
    by rewrite (nth_lookup_Some _ _ _ _ Ed), (nth_lookup_Some _ _ _ _ Ex).
  - intros (i & Hi & ->). apply (list_elem_of_lookup_2 _ i). unfold entries. rewrite lookup_zip_with.
    destruct (lookup_lt_is_Some_2 (deltas b) i) as [d Ed]; [lia|].
    destruct (lookup_lt_is_Some_2 (ids b) i) as [x Ex]; [lia|].
    rewrite Ed, Ex. simpl. by rewrite (nth_lookup_Some _ _ _ _ Ed), (nth_lookup_Some _ _ _ _ Ex).
Qed.

Lemma get_value_eq (b : Bucket.t) (i : nat) :
  bucket_ok b -> (i < length (ids b))%nat -> get_value b i = base_value b + nth i (deltas b) 0.
Proof.
  intros (Hl & _ & _ & Hd & _) Hi. unfold get_value, u32.
  assert (0 <= base_value b + nth i (deltas b) 0 < 2^32) by (apply (proj1 (Forall_nth _ 0 _) Hd); lia).
  apply Z.mod_small. lia.
Qed.

(** One bucket of the scan adds exactly the ids of its entries in range,
    on the fast path as on the per-entry path. *)
Lemma scan_bucket_spec (b : Bucket.t) (mn mx : Z) (acc : gset Z) (x : Z) :
  bucket_ok b ->
  x ∈ scan_bucket b mn mx acc <-> x ∈ acc \/ exists v, (v, x) ∈ entries b /\ mn <= v <= mx.
Proof.
  intros Hb. pose proof Hb as (Hl & Hne & Hs & Hd & HB & Hi & Hbm).
  set (n := length (ids b)).
  assert (Hn : (0 < n)%nat) by (unfold n; destruct (ids b); [done|simpl; lia]).
  assert (Hm : forall A (a c : A), match ids b with [] => a | _ :: _ => c end = c)
    by (intros A a c; destruct (ids b); [done|reflexivity]).
  unfold scan_bucket. rewrite Hm. cbv zeta. fold n.
  rewrite (get_value_eq b 0 Hb Hn), (get_value_eq b (n - 1) Hb ltac:(lia)).
  destruct ((mn <=? base_value b + nth 0 (deltas b) 0) && (base_value b + nth (n - 1) (deltas b) 0 <=? mx))
    eqn:Efast.
  - apply andb_true_iff in Efast as [E1 E2]. apply Z.leb_le in E1, E2.
    rewrite elem_of_union, Hbm, elem_of_list_to_set. split.
    + intros [Hx|Hx]; [|by left]. right.
      apply list_elem_of_lookup_1 in Hx as [i Hx].
      pose proof (lookup_lt_Some _ _ _ Hx) as Hi'.
      exists (base_value b + nth i (deltas b) 0). split.
      * apply (entries_nth b _ Hl). exists i. split; [exact Hi'|]. by rewrite (nth_lookup_Some _ _ _ _ Hx).
      * pose proof (sorted_nth (deltas b) 0 i Hs ltac:(lia)).
        pose proof (sorted_nth (deltas b) i (n - 1) Hs ltac:(unfold n in *; lia)). lia.
    + intros [Hx|(v & Hv & _)]; [by right|left].
      rewrite <- (entries_ids b Hl). apply (list_elem_of_fmap_2' snd _ (v, x)); [exact Hv|done].
  - rewrite (fold_filter_spec
               (fun i => (mn <=? get_value b i) && (get_value b i <=? mx))
               (fun i => nth i (ids b) 0)).
    apply or_iff_compat_l. split.
    + intros (i & Hi' & Hg & ->). apply elem_of_seq in Hi'.
      apply andb_true_iff in Hg as [G1 G2]. apply Z.leb_le in G1, G2.
      rewrite (get_value_eq b i Hb ltac:(unfold n in *; lia)) in G1, G2.
      exists (base_value b + nth i (deltas b) 0). split; [|lia].
      apply (entries_nth b _ Hl). exists i. split; [unfold n in *; lia|done].
    + intros (v & Hv & Hr). apply (entries_nth b _ Hl) in Hv as (i & Hi' & Hv). injection Hv as -> ->.
      exists i. split; [apply elem_of_seq; unfold n; lia|]. split; [|done].
      rewrite (get_value_eq b i Hb Hi'). apply andb_true_iff. split; apply Z.leb_le; lia.
Qed.

Lemma deserialize_ok (b : Bucket.t) :
  bucket_ok b -> Z.of_nat (length (ids b)) <= 65535 -> deserialize (serialize b) (base_value b) = Ok b.
Proof.
  intros (Hl & _ & _ & Hdb & _ & Hi & Hbm) Hsz.
  apply deserialize_serialize; [exact Hl| |exact Hi|exact Hbm|exact Hsz].
  eapply Forall_impl; [exact Hdb|]. simpl. tauto.
Qed.

(** The forward iteration from a bucket of the chain to its end. *)
Lemma range_loop_spec (rest : list Bucket.t) (c : Bucket.t) (mn mx : Z) (acc : gset Z) :
  Forall bucket_ok (c :: rest) -> StronglySorted below (c :: rest) ->
  Forall (fun b => Z.of_nat (length (ids b)) <= 65535) (c :: rest) ->
  exists R, range_loop f mn mx (enc c) (enc <$> rest) acc = Ok R /\
    forall x, x ∈ R <-> x ∈ acc \/ exists v, (v, x) ∈ all_entries (c :: rest) /\ mn <= v <= mx.
Proof.
  revert c acc. induction rest as [|c' rest IH]; intros c acc Hok Hs Hsz;
    apply Forall_cons in Hok as [Hc Hok]; apply Forall_cons in Hsz as [Hszc Hsz];
    pose proof (bucket_ok_u32 c Hc) as Hcu.
  - change (enc <$> []) with (@nil (list Z * list Z)).
    change (enc c) with (make_bucket_key f (base_value c), serialize c). cbn [range_loop fst snd]. cbv zeta.
    rewrite has_prefix_bucket, parse_make_bucket_key by exact Hcu. cbn [negb].
    destruct (Z.ltb_spec mx (base_value c)) as [Hgt|Hle].
    + exists acc. split; [done|]. intros x. split; [by left|]. intros [Hx|(v & Hv & Hr)]; [exact Hx|].
      rewrite all_entries_cons, app_nil_r in Hv. pose proof (bucket_ok_base_le c _ Hc Hv). simpl in *. lia.
    + rewrite (deserialize_ok c Hc Hszc). cbv beta iota.
      eexists. split; [reflexivity|]. intros x. rewrite scan_bucket_spec by exact Hc.
      rewrite all_entries_cons, app_nil_r. done.
  - rewrite fmap_cons.
    change (enc c) with (make_bucket_key f (base_value c), serialize c). cbn [range_loop fst snd]. cbv zeta.
    rewrite has_prefix_bucket, parse_make_bucket_key by exact Hcu. cbn [negb].
    apply StronglySorted_cons in Hs as [Hcb Hs].
    destruct (Z.ltb_spec mx (base_value c)) as [Hgt|Hle].
    + exists acc. split; [done|]. intros x. split; [by left|]. intros [Hx|(v & Hv & Hr)]; [exact Hx|].
      exfalso. apply elem_of_all_entries in Hv as (d & Hd & Hv).
      apply elem_of_cons in Hd as [Hd|Hd].
      * subst d. pose proof (bucket_ok_base_le c _ Hc Hv). simpl in *. lia.
      * rewrite Forall_forall in Hok, Hcb. destruct (Hcb d Hd) as [Hcd _].
        pose proof (bucket_ok_base_le d _ (Hok d Hd) Hv). simpl in *. lia.
    + rewrite (deserialize_ok c Hc Hszc). cbv beta iota.
      destruct (IH c' (scan_bucket c mn mx acc) Hok Hs Hsz) as (R & HR & Hspec).
      exists R. split; [exact HR|]. intros x. rewrite Hspec, scan_bucket_spec by exact Hc.
      rewrite (all_entries_cons c). split.
      * intros [[Hx|(v & Hv & Hr)]|(v & Hv & Hr)]; [by left|right; exists v; split; [apply elem_of_app; by left|exact Hr]|].
        right. exists v. split; [apply elem_of_app; by right|exact Hr].
      * intros [Hx|(v & Hv & Hr)]; [by left; left|].
        apply elem_of_app in Hv as [Hv|Hv].
        -- left. right. by exists v.
        -- right. by exists v.
Qed.

Lemma lookup_enc_st (L1 L2 : list Bucket.t) (b : Bucket.t) :
  @lookup nat (list Z * list Z) store _ (length L1) (enc <$> (L1 ++ b :: L2)) = Some (enc b).
Proof. apply lookup_enc. Qed.

Lemma serialize_nonempty (b : Bucket.t) : (0 < length (serialize b))%nat.
Proof. unfold serialize. rewrite length_app. unfold le32. simpl. lia. Qed.

Lemma split_below (L : list Bucket.t) (mn : Z) :
  StronglySorted before L ->
  exists L1 L2, L = L1 ++ L2 /\ Forall (fun c => base_value c < mn) L1 /\
    Forall (fun c => mn <= base_value c) L2.
Proof.
  induction L as [|c L IH]; intros Hs.
  - exists [], []. done.
  - apply StronglySorted_cons in Hs as [Hc Hs].
    destruct (Z.le_gt_cases mn (base_value c)) as [Hge|Hlt].
    + exists [], (c :: L). split; [done|]. split; [constructor|]. constructor; [exact Hge|].
      eapply Forall_impl; [exact Hc|]. unfold before. intros x Hx. lia.
    + destruct (IH Hs) as (L1 & L2 & -> & H1 & H2). exists (c :: L1), L2. split; [done|].
      split; [by constructor|exact H2].
Qed.

Lemma prefix_below (P rest : list Bucket.t) (c : Bucket.t) (mn : Z) :
  StronglySorted below (P ++ c :: rest) -> base_value c <= mn ->
  Forall (fun e => e.1 < mn) (all_entries P).
Proof.
  intros Hs Hc. apply Forall_forall. intros e He.
  destruct (elem_of_all_entries _ _ He) as (p & Hp & Hep).
  destruct (StronglySorted_app_1_elem_of below P (c :: rest) p c Hs Hp ltac:(by left)) as [_ Hpc].
  rewrite Forall_forall in Hpc. specialize (Hpc e Hep). lia.
Qed.

(** Where the scan starts: a bucket [c] such that every entry of the
    buckets before it lies below [min]. *)
Lemma range_start_spec (L : list Bucket.t) (mn : Z) :
  L <> [] -> Forall bucket_ok L -> StronglySorted below L -> is_u32 mn ->
  exists P c rest, L = P ++ c :: rest /\
    range_start (enc <$> L) f mn = Some (length P, enc c) /\
    Forall (fun e => e.1 < mn) (all_entries P).
Proof.
  intros Hne Hok Hs Hmn.
  assert (Hu : Forall base_u32 L) by (eapply Forall_impl; [exact Hok|]; exact bucket_ok_u32).
  destruct (split_below L mn (ss_before L Hs)) as (L1 & L2 & -> & H1 & H2).
  pose proof (set_range_split L1 L2 mn Hmn Hu H1 H2) as Hsr.
  unfold range_start. rewrite Hsr.
  destruct L2 as [|c2 R2].
  - rewrite app_nil_r in Hne, Hs, Hu |- *.
    destruct (exists_last Hne) as (P & c & ->).
    exists P, c, []. split; [done|]. split.
    + assert (Hlast : last (enc <$> P ++ [c]) = Some (length P)).
      { unfold last. rewrite length_fmap, length_app, Nat.add_1_r. reflexivity. }
      rewrite Hlast, (lookup_enc_st P [] c).
      change (enc c) with (make_bucket_key f (base_value c), serialize c). cbn [fst snd].
      rewrite has_prefix_bucket, (proj2 (Nat.ltb_lt _ _) (serialize_nonempty c)). reflexivity.
    + apply (prefix_below P [] c mn Hs). apply Forall_app in H1 as [_ Hc]. apply Forall_cons in Hc as [Hc _]. lia.
  - rewrite (lookup_enc_st L1 R2 c2).
    change (enc c2) with (make_bucket_key f (base_value c2), serialize c2). cbn [fst snd].
    rewrite has_prefix_bucket, parse_make_bucket_key
      by (apply Forall_app in Hu as [_ Hu]; by apply Forall_cons in Hu as [? _]).
    cbn [negb orb]. apply Forall_cons in H2 as [Hc2 _].
    destruct (Z.ltb_spec mn (base_value c2)) as [Hlt|Hge].
    + destruct (decide (L1 = [])) as [->|HL1].
      * exists [], c2, R2. split; [done|]. split; [reflexivity|constructor].
      * destruct (exists_last HL1) as (P & c1 & ->).
        assert (Hprev : prev (length (P ++ [c1])) = Some (length P))
          by (rewrite length_app, Nat.add_1_r; reflexivity).
        rewrite Hprev. rewrite <- app_assoc in Hs |- *. cbn [app] in Hs |- *.
        rewrite (lookup_enc_st P (c2 :: R2) c1).
        change (enc c1) with (make_bucket_key f (base_value c1), serialize c1). cbn [fst].
        rewrite has_prefix_bucket.
        exists P, c1, (c2 :: R2). split; [done|]. split; [reflexivity|].
        apply (prefix_below P (c2 :: R2) c1 mn Hs).
        apply Forall_app in H1 as [_ Hc]. apply Forall_cons in Hc as [Hc _]. lia.
    + exists L1, c2, R2. split; [done|]. split; [reflexivity|].
      apply (prefix_below L1 R2 c2 mn Hs). lia.
Qed.

Lemma drop_enc (P rest : list Bucket.t) (c : Bucket.t) :
  drop (S (length P)) (enc <$> (P ++ c :: rest)) = enc <$> rest.
Proof.
  rewrite fmap_app, fmap_cons, drop_app_ge; rewrite length_fmap; [|lia].
  by replace (S (length P) - length P)%nat with 1%nat by lia.
Qed.

(** The range query over a well-formed sorted chain of buckets of one
    field: exactly the ids of the entries whose value lies in [min, max]. *)
Lemma range_spec (st : state) (L : list Bucket.t) (mn mx : Z) :
  inverted st = enc <$> L -> Forall bucket_ok L -> StronglySorted below L ->
  Forall (fun b => Z.of_nat (length (ids b)) <= 65535) L -> is_u32 mn ->
  exists R, range st f mn mx = Ok R /\
    forall x, x ∈ R <-> exists v, (v, x) ∈ all_entries L /\ mn <= v <= mx.
Proof.
  intros Hinv Hok Hs Hsz Hmn. unfold range. rewrite Hinv.
  destruct (decide (L = [])) as [->|Hne].
  - exists ∅. split; [reflexivity|]. intros x. split; [set_solver|].
    intros (v & Hv & _). by apply not_elem_of_nil in Hv.
  - destruct (range_start_spec L mn Hne Hok Hs Hmn) as (P & c & rest & -> & Hst & HP).
    rewrite Hst. cbv beta iota. rewrite drop_enc.
    apply Forall_app in Hok as [_ Hok]. apply Forall_app in Hsz as [_ Hsz].
    apply StronglySorted_app_1_r in Hs.
    destruct (range_loop_spec rest c mn mx ∅ Hok Hs Hsz) as (R & HR & Hspec).
    exists R. split; [exact HR|]. intros x. rewrite Hspec, all_entries_app. split.
    + intros [Hx|(v & Hv & Hr)]; [set_solver|]. exists v. split; [apply elem_of_app; by right|exact Hr].
    + intros (v & Hv & Hr). right. exists v. split; [|exact Hr].
      apply elem_of_app in Hv as [Hv|Hv]; [|exact Hv].
      rewrite Forall_forall in HP. specialize (HP _ Hv). simpl in HP. lia.
Qed.

End Field.
End StoreFacts.

(** ** The index on one field: forward table and bucket chain agree *)
Module StateFacts.
Import Bucket Keys KV NumericIndex KeyFacts StoreFacts Traces.

Section Field.
Context `{RoaringCodec}.
Variable f : string.
Variable I : gset Z.

(** [st] holds the chain [L] of buckets of [f]: every forward entry of an
    id of [f] is an entry of exactly one bucket, with the same value. *)
Definition state_inv (st : state) (L : list Bucket.t) : Prop :=
  inverted st = enc f <$> L /\ Forall bucket_ok L /\ StronglySorted below L /\
  NoDup (snd <$> all_entries L) /\ Forall (fun e => e.2 ∈ I) (all_entries L) /\
  (forall id v, is_u32 id ->
     forward st !! make_forward_key f id = Some v <-> (v, id) ∈ all_entries L).

Lemma entry_u32 (L : list Bucket.t) (v id : Z) :
  Forall bucket_ok L -> (v, id) ∈ all_entries L -> is_u32 v /\ is_u32 id.
Proof.
  intros Hok He. destruct (elem_of_all_entries _ _ He) as (c & Hc & Hec).
  rewrite Forall_forall in Hok. pose proof (Hok c Hc) as Hcok.
  pose proof (bucket_ok_entries c Hcok) as HF. rewrite Forall_forall in HF.
  destruct (HF _ Hec) as (Hb & Hlt & Hi). destruct Hcok as (_ & _ & _ & _ & HB & _).
  unfold is_u32. simpl in *. split; [lia|exact Hi].
Qed.

Lemma nodup_length_le (l : list Z) :
  NoDup l -> Forall (fun x => x ∈ I) l -> (length l <= size I)%nat.
Proof.
  intros Hnd HI. rewrite <- (size_list_to_set (C := gset Z) l Hnd). apply subseteq_size.
  intros x Hx. apply elem_of_list_to_set in Hx. rewrite Forall_forall in HI. by apply HI.
Qed.

Lemma inv_length (st : state) (L : list Bucket.t) :
  state_inv st L -> (length (all_entries L) <= size I)%nat.
Proof.
  intros (_ & _ & _ & Hnd & HI & _). rewrite <- (length_fmap snd).
  apply nodup_length_le; [exact Hnd|]. by apply Forall_fmap.
Qed.

Lemma fw_update (fw : gmap string Z) (E E0 E' : list (Z * Z)) (id value : Z) :
  (forall id' v, is_u32 id' -> fw !! make_forward_key f id' = Some v <-> (v, id') ∈ E) ->
  is_u32 id -> E' ≡ₚ (value, id) :: E0 -> (forall v, (v, id) ∉ E0) ->
  (forall id' v, id' <> id -> (v, id') ∈ E <-> (v, id') ∈ E0) ->
  forall id' v, is_u32 id' ->
    <[make_forward_key f id := value]> fw !! make_forward_key f id' = Some v <-> (v, id') ∈ E'.
Proof.
  intros Hfw Hid Hp Hnot Hsame id' v Hid'. rewrite Hp, elem_of_cons.
  destruct (decide (id' = id)) as [->|Hne].
  - rewrite lookup_insert_eq. split.
    + intros Ev. injection Ev as ->. by left.
    + intros [Ev|Ev]; [by injection Ev as ->|by apply Hnot in Ev].
  - rewrite lookup_insert_ne.
    + rewrite Hfw by exact Hid'. rewrite Hsame by exact Hne. split; [by right|].
      intros [Ev|Ev]; [injection Ev as _ Ev; congruence|exact Ev].
    + intros Ek. apply Hne. symmetry. apply (make_forward_key_inj f id id');
        [unfold is_u32 in Hid; lia|unfold is_u32 in Hid'; lia|exact Ek].
Qed.

Lemma not_in_snd (E : list (Z * Z)) (id v : Z) : id ∉ snd <$> E -> (v, id) ∉ E.
Proof. intros Hn He. apply Hn. apply (list_elem_of_fmap_2' snd _ (v, id)); [exact He|done]. Qed.

Section Bounds.
Hypothesis HI32 : set_Forall is_u32 I.
Hypothesis HIsz : Z.of_nat (size I) <= 65535.

(** A [put] on [f] of an id of [I] succeeds and keeps the chain
    consistent; its forward effect is the point update of [(f, id)]. *)
Lemma put_inv (st : state) (L : list Bucket.t) (id value : Z) :
  state_inv st L -> id ∈ I -> is_u32 value ->
  exists st' L', put st f id value = Ok st' /\ state_inv st' L' /\
    forward st' = <[make_forward_key f id := value]> (forward st).
Proof.
  intros Hst HidI Hv. pose proof (inv_length st L Hst) as Hlen.
  destruct Hst as (Hinv & Hok & Hs & Hnd & HI & Hfw).
  assert (Hid : is_u32 id) by exact (HI32 id HidI).
  unfold put. destruct (forward st !! make_forward_key f id) as [old|] eqn:Eold.
  - destruct (Z.eqb_spec old value) as [->|Hne].
    + exists st, L. split; [done|]. split; [done|]. by rewrite insert_id.
    + assert (Hin : (old, id) ∈ all_entries L) by (apply Hfw; [exact Hid|exact Eold]).
      destruct (entry_u32 L old id Hok Hin) as [Hold _].
      destruct (remove_from_buckets_spec f L old id Hok Hs ltac:(lia) Hold Hnd Hin)
        as (L1 & Hrem & Hok1 & Hs1 & Hp1).
      pose proof (Permutation_length Hp1) as Hl1. simpl in Hl1.
      assert (Hnd1 : NoDup (id :: (snd <$> all_entries L1))).
      { rewrite Hp1 in Hnd. exact Hnd. }
      apply NoDup_cons in Hnd1 as [Hnot Hnd1].
      destruct (add_to_buckets_spec f L1 value id Hok1 Hs1 ltac:(lia) Hv Hid)
        as (L2 & Hadd & Hok2 & Hs2 & Hp2).
      rewrite Hinv, Hrem. cbv beta iota. rewrite Hadd. cbv beta iota.
      eexists _, L2. split; [reflexivity|]. split; [|reflexivity].
      split; [reflexivity|]. split; [exact Hok2|]. split; [exact Hs2|].
      split; [rewrite Hp2; simpl; by apply NoDup_cons|].
      split.
      { rewrite Hp2. constructor; [exact HidI|]. rewrite Hp1 in HI. by apply Forall_cons in HI as [_ HI]. }
      apply (fw_update (forward st) (all_entries L) (all_entries L1) (all_entries L2) id value Hfw Hid Hp2).
      * intros v'. exact (not_in_snd _ id v' Hnot).
      * intros id' v' Hne'. rewrite Hp1, elem_of_cons. split; [|by right].
        intros [Ev|Ev]; [injection Ev as _ Ev; congruence|exact Ev].
  - assert (Hnot : id ∉ snd <$> all_entries L).
    { intros Hx. apply list_elem_of_fmap_1 in Hx as ([v' id'] & Hx & He). simpl in Hx. subst id'.
      apply Hfw in He; [|exact Hid]. congruence. }
    assert (Hlt : (length (all_entries L) < size I)%nat).
    { pose proof (nodup_length_le (id :: (snd <$> all_entries L))) as Hle.
      rewrite length_cons, length_fmap in Hle. apply Hle.
      - by apply NoDup_cons.
      - constructor; [exact HidI|]. by apply Forall_fmap. }
    destruct (add_to_buckets_spec f L value id Hok Hs ltac:(lia) Hv Hid)
      as (L2 & Hadd & Hok2 & Hs2 & Hp2).
    rewrite Hinv, Hadd. cbv beta iota.
    eexists _, L2. split; [reflexivity|]. split; [|reflexivity].
    split; [reflexivity|]. split; [exact Hok2|]. split; [exact Hs2|].
    split; [rewrite Hp2; simpl; by apply NoDup_cons|].
    split; [rewrite Hp2; by constructor|].
    apply (fw_update (forward st) (all_entries L) (all_entries L) (all_entries L2) id value Hfw Hid Hp2).
    + intros v'. exact (not_in_snd _ id v' Hnot).
    + done.
Qed.

(** A [remove] on [f] of an id of [I] succeeds and keeps the chain
    consistent; it deletes the forward entry of [(f, id)]. *)
Lemma remove_inv (st : state) (L : list Bucket.t) (id : Z) :
  state_inv st L -> id ∈ I ->
  exists st' L', remove st f id = Ok st' /\ state_inv st' L' /\
    forward st' = delete (make_forward_key f id) (forward st).
Proof.
  intros Hst HidI. pose proof (inv_length st L Hst) as Hlen.
  destruct Hst as (Hinv & Hok & Hs & Hnd & HI & Hfw).
  assert (Hid : is_u32 id) by exact (HI32 id HidI).
  unfold remove. destruct (forward st !! make_forward_key f id) as [old|] eqn:Eold.
  - assert (Hin : (old, id) ∈ all_entries L) by (apply Hfw; [exact Hid|exact Eold]).
    destruct (entry_u32 L old id Hok Hin) as [Hold _].
    destruct (remove_from_buckets_spec f L old id Hok Hs ltac:(lia) Hold Hnd Hin)
      as (L1 & Hrem & Hok1 & Hs1 & Hp1).
    assert (Hnd1 : NoDup (id :: (snd <$> all_entries L1))) by (rewrite Hp1 in Hnd; exact Hnd).
    apply NoDup_cons in Hnd1 as [Hnot Hnd1].
    rewrite Hinv, Hrem. cbv beta iota.
    eexists _, L1. split; [reflexivity|]. split; [|reflexivity].
    split; [reflexivity|]. split; [exact Hok1|]. split; [exact Hs1|]. split; [exact Hnd1|].
    split; [rewrite Hp1 in HI; by apply Forall_cons in HI as [_ HI]|].
    intros id' v Hid'. cbn [forward]. destruct (decide (id' = id)) as [->|Hne].
    + rewrite lookup_delete_eq. split; [discriminate|]. intros He. by apply (not_in_snd _ id v Hnot) in He.
    + rewrite lookup_delete_ne.
      * rewrite Hfw by exact Hid'. rewrite Hp1, elem_of_cons. split; [|by right].
        intros [Ev|Ev]; [injection Ev as _ Ev; congruence|exact Ev].
      * intros Ek. apply Hne. symmetry. apply (make_forward_key_inj f id id');
          [unfold is_u32 in Hid; lia|unfold is_u32 in Hid'; lia|exact Ek].
  - exists st, L. split; [done|]. split; [done|]. by rewrite delete_id.
Qed.

(** Every state reached by calls on [f] with ids from [I] holds a consistent chain. *)
Lemma reachable_on_inv (st : state) : reachable_on f I st -> exists L, state_inv st L.
Proof.
  induction 1 as [|st st' id value Hr IH HidI Hv Hput|st st' id Hr IH HidI Hrem].
  - exists []. split; [reflexivity|]. split; [constructor|]. split; [constructor|].
    split; [constructor|]. split; [constructor|].
    intros id v _. cbn [forward empty_state]. rewrite lookup_empty. split; [discriminate|]. intros Hx. by apply not_elem_of_nil in Hx.
  - destruct IH as [L HL]. destruct (put_inv st L id value HL HidI Hv) as (st'' & L' & Hput' & HL' & _).
    rewrite Hput in Hput'. injection Hput' as <-. by exists L'.
  - destruct IH as [L HL]. destruct (remove_inv st L id HL HidI) as (st'' & L' & Hrem' & HL' & _).
    rewrite Hrem in Hrem'. injection Hrem' as <-. by exists L'.
Qed.

End Bounds.

End Field.
End StateFacts.


(** ** Keys, buckets and payloads: further facts *)
Module ExtraBucketFacts.
Import Bucket Keys KeyFacts BytesFacts BucketCodecFacts BucketFacts StoreFacts.

(** The character [':'] (code 58). *)
Definition colon : Ascii.ascii := Ascii.ascii_of_nat 58.

(** Strings with no [':'] in them. *)
Fixpoint colon_free (s : string) : bool :=
  match s with
  | EmptyString => true
  | String c s' => negb (Ascii.eqb c colon) && colon_free s'
  end.

Lemma pretty_N_go_colon_free (x : N) (s : string) :
  colon_free s = true -> colon_free (pretty_N_go x s) = true.
Proof.
  revert s. induction (N.lt_wf_0 x) as [x _ IH]; intros s Hs.
  destruct (decide (x = 0)%N) as [->|Hx]; [by rewrite pretty_N_go_0|].
  rewrite pretty_N_go_step by lia. apply IH; [apply N.div_lt; lia|].
  cbn [colon_free]. rewrite Hs, andb_true_r. unfold pretty_N_char.
  repeat case_match; reflexivity.
Qed.

Lemma pretty_N_colon_free (n : N) : colon_free (pretty n) = true.
Proof.
  unfold pretty, pretty_N. case_decide; [reflexivity|]. by apply pretty_N_go_colon_free.
Qed.

Lemma colon_free_app_colon (a b : string) : colon_free (String.append a (String colon b)) = false.
Proof. induction a as [|c a IH]; simpl; [reflexivity|]. by rewrite IH, andb_false_r. Qed.

Lemma append_colon_inj (f1 f2 d1 d2 : string) :
  colon_free d1 = true -> colon_free d2 = true ->
  String.append f1 (String colon d1) = String.append f2 (String colon d2) -> f1 = f2 /\ d1 = d2.
Proof.
  revert f2. induction f1 as [|c f1 IH]; intros [|c' f2] H1 H2 E; simpl in E.
  - injection E as ->. done.
  - injection E as <- E. subst d1. by rewrite colon_free_app_colon in H1.
  - injection E as -> E. subst d2. by rewrite colon_free_app_colon in H2.
  - injection E as <- E. destruct (IH f2 H1 H2 E) as [-> ->]. done.
Qed.

(** Bytes. *)
Lemma dec_le_bound (bs : list Z) :
  Forall (fun x => 0 <= x < 256) bs -> 0 <= dec_le bs < 256 ^ Z.of_nat (length bs).
Proof.
  induction 1 as [|x bs Hx Hbs IH]; [simpl; lia|].
  unfold dec_le in *. cbn [foldr length]. rewrite Nat2Z.inj_succ, Z.pow_succ_r by lia. lia.
Qed.

Lemma find_index_first (l : list Z) (x : Z) (i : nat) :
  find_index l x = Some i -> l !! i = Some x /\ forall j, (j < i)%nat -> l !! j <> Some x.
Proof.
  revert i. induction l as [|y l IH]; intros i E; [discriminate|]. simpl in E.
  destruct (Z.eqb_spec y x) as [->|Hne].
  - injection E as <-. split; [done|]. intros j Hj. lia.
  - destruct (find_index l x) as [k|] eqn:Ek; [|discriminate]. injection E as <-.
    destruct (IH k eq_refl) as [Hk Hlt]. split; [exact Hk|].
    intros [|j] Hj; simpl; [congruence|]. apply Hlt. lia.
Qed.

Lemma find_index_none (l : list Z) (x : Z) : find_index l x = None <-> x ∉ l.
Proof.
  split.
  - intros E Hx. destruct (find_index_elem l x Hx) as [i Ei]. congruence.
  - intros Hn. destruct (find_index l x) as [i|] eqn:E; [|done]. exfalso. apply Hn.
    apply (list_elem_of_lookup_2 _ i). exact (find_index_some l x i E).
Qed.

Lemma dec_le_nonneg (bs : list Z) : Forall (fun x => 0 <= x < 256) bs -> 0 <= dec_le bs.
Proof. intros Hbs. exact (proj1 (dec_le_bound bs Hbs)). Qed.

(** Bucket keys: [parse_bucket_key_val] reads back the base of
    [make_bucket_key], the byte order of two keys of one field is the
    numeric order of their bases, and every key starts with the field
    prefix [field + ":"]. *)
Theorem bucket_key_codec (field : string) (x y : Z) :
  is_u32 x -> is_u32 y ->
  parse_bucket_key_val (make_bucket_key field x) = x /\
  KV.key_compare (make_bucket_key field x) (make_bucket_key field y) = Z.compare x y /\
  has_prefix (field_prefix field) (make_bucket_key field x) = true.
Proof.
  intros Hx Hy. unfold is_u32 in Hx, Hy. split; [by apply parse_make_bucket_key|].
  split; [by apply key_compare_bucket|]. apply has_prefix_bucket.
Qed.

(** Forward keys never collide: [field + ":" + to_string(id)] determines
    both the field and the id, for any two fields. *)
Theorem forward_key_injective (f1 f2 : string) (i1 i2 : Z) :
  0 <= i1 -> 0 <= i2 -> make_forward_key f1 i1 = make_forward_key f2 i2 -> f1 = f2 /\ i1 = i2.
Proof.
  intros H1 H2 E. unfold make_forward_key in E. cbn [String.append] in E.
  destruct (append_colon_inj f1 f2 _ _ (pretty_N_colon_free _) (pretty_N_colon_free _) E) as [-> Ep].
  split; [done|]. apply (inj pretty) in Ep. apply (f_equal Z.of_N) in Ep. by rewrite !Z2N.id in Ep.
Qed.

Lemma find_index_insert_at (l : list Z) (i : nat) (x : Z) :
  x ∉ l -> (i <= length l)%nat -> find_index (insert_at l i x) x = Some i.
Proof.
  unfold insert_at. revert i. induction l as [|y l IH]; intros [|i] Hx Hi; simpl in *.
  - by rewrite Z.eqb_refl.
  - lia.
  - by rewrite Z.eqb_refl.
  - rewrite elem_of_cons in Hx. destruct (Z.eqb_spec y x) as [->|Hne]; [exfalso; apply Hx; by left|].
    rewrite IH; [done| |lia]. intros Hl. apply Hx. by right.
Qed.

Lemma delete_insert_at (l : list Z) (i : nat) (x : Z) :
  (i <= length l)%nat -> delete i (insert_at l i x) = l.
Proof.
  intros Hi. unfold insert_at.
  rewrite <- (length_take_le l i) at 1 by exact Hi.
  rewrite delete_middle. apply take_drop.
Qed.

(** [Bucket::remove] undoes [Bucket::add]: adding an id the bucket does not
    hold and then removing it gives back the bucket unchanged. *)
Theorem bucket_add_remove (b b' : Bucket.t) (val id : Z) :
  length (deltas b) = length (ids b) -> id ∉ ids b -> id ∉ summary_bitmap b ->
  add b val id = Ok b' -> Bucket.remove b' id = Some b.
Proof.
  intros Hl Hid Hbm Hadd. unfold add in Hadd.
  destruct (val <? base_value b); [discriminate|].
  destruct (MAX_DELTA <? val - base_value b); [discriminate|].
  injection Hadd as <-. unfold Bucket.remove. cbn [ids deltas base_value summary_bitmap].
  pose proof (lower_bound_le (deltas b) (val - base_value b)) as Hle.
  rewrite find_index_insert_at by (done || lia).
  rewrite !delete_insert_at by lia.
  replace (({[id]} ∪ summary_bitmap b) ∖ {[id]}) with (summary_bitmap b)
    by (apply leibniz_equiv; set_solver).
  by destruct b.
Qed.

(** [Bucket::remove] deletes the first entry holding [id], with its delta,
    and removes [id] from the summary bitmap; it reports [false] exactly
    when no entry holds [id]. *)
Theorem bucket_remove_first (b : Bucket.t) (id : Z) :
  length (deltas b) = length (ids b) ->
  (Bucket.remove b id = None <-> id ∉ ids b) /\
  (forall b', Bucket.remove b id = Some b' ->
     exists i, ids b !! i = Some id /\ (forall j, (j < i)%nat -> ids b !! j <> Some id) /\
       base_value b' = base_value b /\ entries b' = delete i (entries b) /\
       summary_bitmap b' = summary_bitmap b ∖ {[id]}).
Proof.
  intros Hl. unfold Bucket.remove. split.
  - rewrite <- find_index_none. destruct (find_index (ids b) id); split; congruence.
  - intros b' Hr. destruct (find_index (ids b) id) as [i|] eqn:E; [|discriminate].
    injection Hr as <-. destruct (find_index_first _ _ _ E) as [Hi Hfirst].
    exists i. split; [exact Hi|]. split; [exact Hfirst|]. split; [reflexivity|].
    split; [|reflexivity]. unfold entries. cbn [deltas ids base_value].
    by apply zip_with_delete.
Qed.

Section WithCodec.
Context `{RoaringCodec}.

(** [read_summary_bitmap] reads back the summary bitmap of a serialized
    bucket (ids of 32 bits, fewer than 2^24 of them in the bitmap). *)
Theorem read_summary_bitmap_serialize (b : Bucket.t) :
  (forall x, x ∈ summary_bitmap b -> is_u32 x) -> Z.of_nat (size (summary_bitmap b)) < 2^24 ->
  read_summary_bitmap (serialize b) = Ok (summary_bitmap b).
Proof.
  intros Hu Hs. unfold read_summary_bitmap, serialize. cbv zeta.
  pose proof (bm_write_size _ Hs) as Hsz.
  rewrite take_app_length' by reflexivity.
  rewrite dec_le_le32 by (unfold u32; apply Z.mod_pos_bound; lia).
  unfold u32. rewrite Z.mod_small by lia.
  destruct (Z.eqb_spec (Z.of_nat (length (bm_write (summary_bitmap b)))) 0) as [E|E].
  - f_equal. symmetry. apply bm_write_empty.
    destruct (bm_write (summary_bitmap b)); [done|simpl in E; lia].
  - rewrite drop_app_length' by reflexivity. by rewrite bm_read_write.
Qed.

(** On a byte buffer of at least six bytes that [deserialize] accepts,
    [read_summary_bitmap] returns the bitmap of the deserialized bucket. *)
Theorem read_summary_bitmap_deserialize (data : list Z) (base : Z) (b : Bucket.t) :
  Forall (fun x => 0 <= x < 256) data -> 6 <= Z.of_nat (length data) ->
  deserialize data base = Ok b -> read_summary_bitmap data = Ok (summary_bitmap b).
Proof.
  intros Hby H6 Hd. unfold deserialize in Hd. cbv zeta in Hd.
  rewrite (proj2 (Z.ltb_ge _ _) H6) in Hd.
  unfold read_summary_bitmap. cbv zeta.
  pose proof (dec_le_nonneg (take 4 data) (Forall_take _ _ _ Hby)) as Hs.
  destruct (_ <? 4 + dec_le (take 4 data)); [discriminate|].
  destruct (Z.eqb_spec (dec_le (take 4 data)) 0) as [E0|E0].
  - rewrite E0, Z.ltb_irrefl in Hd.
    revert Hd. repeat case_match; intros Hd; try discriminate; injection Hd as <-; reflexivity.
  - rewrite (proj2 (Z.ltb_lt 0 (dec_le (take 4 data))) ltac:(lia)) in Hd.
    destruct (bm_read (drop 4 data)) as [S|]; [|discriminate].
    revert Hd. repeat case_match; intros Hd; try discriminate; injection Hd as <-; reflexivity.
Qed.

End WithCodec.

(** Concrete instances, run with the list codec. *)
#[local] Existing Instance ListCodec.codec.

Ltac eval_decide := match goal with |- ?P => apply (bool_decide_unpack P); vm_compute; exact I end.

Lemma bucket_key_codec_witness :
  parse_bucket_key_val (make_bucket_key "price"%string 70000) = 70000 /\
  KV.key_compare (make_bucket_key "price"%string 70000) (make_bucket_key "price"%string 255) = Gt /\
  has_prefix (field_prefix "price"%string) (make_bucket_key "price"%string 70000) = true.
Proof. refine (bucket_key_codec "price"%string 70000 255 _ _); unfold is_u32; lia. Defined.

Lemma forward_key_injective_witness :
  make_forward_key "price"%string 12 = make_forward_key "price"%string 12 /\
  ("price"%string = "price"%string /\ 12 = 12).
Proof.
  split; [reflexivity|].
  exact (forward_key_injective "price"%string "price"%string 12 12 ltac:(lia) ltac:(lia) eq_refl).
Defined.

Lemma bucket_add_remove_witness :
  exists b', add Samples.small 107 9 = Ok b' /\ Bucket.remove b' 9 = Some Samples.small.
Proof.
  destruct (add Samples.small 107 9) as [b'|e] eqn:Hadd; [|vm_compute in Hadd; discriminate].
  exists b'. split; [reflexivity|].
  apply (bucket_add_remove Samples.small b' 107 9); [reflexivity|eval_decide|eval_decide|exact Hadd].
Defined.

Lemma bucket_remove_first_witness :
  (Bucket.remove Samples.small 7 = None <-> 7 ∉ ids Samples.small) /\
  (Bucket.remove Samples.small 3 = None <-> 3 ∉ ids Samples.small).
Proof.
  split; [exact (proj1 (bucket_remove_first Samples.small 7 eq_refl))|].
  exact (proj1 (bucket_remove_first Samples.small 3 eq_refl)).
Defined.

Lemma read_summary_bitmap_serialize_witness :
  read_summary_bitmap (serialize Samples.small) = Ok (summary_bitmap Samples.small).
Proof.
  apply read_summary_bitmap_serialize; [|eval_decide].
  change (set_Forall is_u32 (summary_bitmap Samples.small)). eval_decide.
Defined.

Lemma read_summary_bitmap_deserialize_witness :
  exists b, deserialize (serialize Samples.small) 100 = Ok b /\
    read_summary_bitmap (serialize Samples.small) = Ok (summary_bitmap b).
Proof.
  destruct (deserialize (serialize Samples.small) 100) as [b|e] eqn:Hd; [|vm_compute in Hd; discriminate].
  exists b. split; [reflexivity|].
  apply (read_summary_bitmap_deserialize (serialize Samples.small) 100 b); [eval_decide|eval_decide|exact Hd].
Defined.

End ExtraBucketFacts.

(** ** The index: further facts *)
Module ExtraIndexFacts.
Import Bucket Keys KV NumericIndex KeyFacts SplitFacts StoreFacts StateFacts Traces Consistency.

Section Field.
Context `{RoaringCodec}.
Variable f : string.
Variable I : gset Z.

Lemma bucket_sizes (st : state) (L : list Bucket.t) :
  state_inv f I st L -> Forall (fun b => (length (ids b) <= size I)%nat) L.
Proof.
  intros Hst. pose proof (inv_length f I st L Hst) as Hlen. destruct Hst as (_ & Hok & _).
  apply Forall_forall. intros b Hb. apply list_elem_of_split in Hb as (L1 & L2 & ->).
  assert (Hb : bucket_ok b) by (rewrite Forall_forall in Hok; apply Hok; apply elem_of_app; right; by left).
  pose proof (length_ids_le L1 L2 b Hb). lia.
Qed.

Lemma range_inv (st : state) (L : list Bucket.t) (mn mx : Z) :
  Z.of_nat (size I) <= 65535 -> state_inv f I st L -> is_u32 mn ->
  exists R, range st f mn mx = Ok R /\
    forall x, x ∈ R <-> is_u32 x /\ exists v, forward st !! make_forward_key f x = Some v /\ mn <= v <= mx.
Proof.
  intros HIsz Hst Hmn. pose proof (bucket_sizes st L Hst) as Hsz.
  destruct Hst as (Hinv & Hok & Hs & _ & _ & Hfw).
  destruct (range_spec f st L mn mx Hinv Hok Hs) as (R & HR & Hspec); [|exact Hmn|].
  { eapply Forall_impl; [exact Hsz|]. simpl. lia. }
  exists R. split; [exact HR|]. intros x. rewrite Hspec. split.
  - intros (v & Hv & Hr). destruct (entry_u32 L v x Hok Hv) as [_ Hx].
    split; [exact Hx|]. exists v. split; [|exact Hr]. by apply (Hfw x v Hx).
  - intros (Hx & v & Hv & Hr). exists v. split; [|exact Hr]. by apply (Hfw x v Hx).
Qed.

Lemma shared_id (L : list Bucket.t) (b b' : Bucket.t) (id : Z) :
  Forall bucket_ok L -> NoDup (snd <$> all_entries L) -> b ∈ L -> b' ∈ L ->
  id ∈ ids b -> id ∈ ids b' -> b = b'.
Proof.
  induction L as [|c L IH]; intros Hok Hnd Hb Hb' Hi Hi'; [by apply not_elem_of_nil in Hb|].
  apply Forall_cons in Hok as [Hc Hok].
  rewrite all_entries_cons, fmap_app in Hnd. apply NoDup_app in Hnd as (_ & Hdis & Hnd).
  assert (Hin : forall d, d ∈ L -> id ∈ ids d -> id ∈ snd <$> all_entries L).
  { intros d Hd Hid. apply list_elem_of_split in Hd as (L1 & L2 & ->).
    assert (Hdl : length (deltas d) = length (ids d)).
    { rewrite Forall_forall in Hok. apply (Hok d). apply elem_of_app; right; by left. }
    rewrite all_entries_app, all_entries_cons, !fmap_app.
    apply elem_of_app; right; apply elem_of_app; left. by rewrite entries_ids. }
  assert (Hci : id ∈ ids c -> id ∈ snd <$> entries c) by (intros; by rewrite entries_ids by apply Hc).
  apply elem_of_cons in Hb as [->|Hb]; apply elem_of_cons in Hb' as [->|Hb'].
  - done.
  - exfalso. exact (Hdis id (Hci Hi) (Hin b' Hb' Hi')).
  - exfalso. exact (Hdis id (Hci Hi') (Hin b Hb Hi)).
  - by apply IH.
Qed.

Lemma entries_lookup (b : Bucket.t) (v id : Z) :
  (v, id) ∈ entries b -> exists i, ids b !! i = Some id /\ deltas b !! i = Some (v - base_value b).
Proof.
  intros He. apply list_elem_of_lookup_1 in He as [i Hi].
  unfold entries in Hi. rewrite lookup_zip_with in Hi.
  destruct (deltas b !! i) as [d|] eqn:Ed; [|discriminate]. simpl in Hi.
  destruct (ids b !! i) as [x|] eqn:Ex; [|discriminate]. simpl in Hi. injection Hi as <- <-.
  exists i. split; [exact Ex|]. rewrite Ed. f_equal. lia.
Qed.

Lemma field_bucket_enc (b : Bucket.t) :
  bucket_ok b -> Z.of_nat (length (ids b)) <= 65535 -> field_bucket f (enc f b) = Some b.
Proof.
  intros Hb Hsz. pose proof (bucket_ok_u32 b Hb) as Hu. unfold base_u32 in Hu.
  unfold field_bucket, enc. cbn [fst snd].
  rewrite parse_make_bucket_key by exact Hu. rewrite decide_True by reflexivity.
  by rewrite deserialize_ok.
Qed.

(** [locate] finds the covering bucket: on a chain of well-formed buckets
    of [field] sorted by base, the bucket with the greatest base at most
    [v], and no bucket when [v] lies below every base. *)
Theorem locate_covering (L : list Bucket.t) (v : Z) :
  Forall bucket_ok L -> StronglySorted below L -> is_u32 v ->
  (forall L1 b L2, L = L1 ++ b :: L2 -> base_value b <= v -> Forall (fun c => v < base_value c) L2 ->
     locate (enc f <$> L) f v = Some (length L1)) /\
  (Forall (fun c => v < base_value c) L -> locate (enc f <$> L) f v = None).
Proof.
  intros Hok Hs Hv. assert (Hu : Forall base_u32 L) by (eapply Forall_impl; [exact Hok|]; exact bucket_ok_u32).
  pose proof (ss_before L Hs) as Hb. unfold is_u32 in Hv. split.
  - intros L1 b L2 -> Hbv H2. by apply locate_hit.
  - intros H2. by apply locate_miss.
Qed.

(** One bucket of the range scan, on the bitmap fast path as on the
    per-entry path, adds exactly the ids of its entries whose value lies in
    [min_val, max_val]. *)
Theorem scan_bucket_exact (b : Bucket.t) (mn mx : Z) (acc : gset Z) :
  bucket_ok b ->
  forall x, x ∈ scan_bucket b mn mx acc <-> x ∈ acc \/ exists v, (v, x) ∈ entries b /\ mn <= v <= mx.
Proof. intros Hb x. by apply scan_bucket_spec. Qed.

(** [add_to_buckets] on a well-formed sorted chain of buckets of [f] with
    fewer than 65535 entries succeeds and gives a well-formed sorted chain
    holding the same entries and [(v, id)]. *)
Theorem add_to_buckets_chain (L : list Bucket.t) (v id : Z) :
  Forall bucket_ok L -> StronglySorted below L ->
  Z.of_nat (length (all_entries L)) < 65535 -> is_u32 v -> is_u32 id ->
  exists L', add_to_buckets (enc f <$> L) f v id = Ok (enc f <$> L') /\
    Forall bucket_ok L' /\ StronglySorted below L' /\ all_entries L' ≡ₚ (v, id) :: all_entries L.
Proof. intros. by apply add_to_buckets_spec. Qed.

(** [remove_from_buckets] of an entry [(v, id)] of such a chain whose ids
    are distinct succeeds and gives a well-formed sorted chain holding the
    other entries (a bucket left empty is deleted). *)
Theorem remove_from_buckets_chain (L : list Bucket.t) (v id : Z) :
  Forall bucket_ok L -> StronglySorted below L ->
  Z.of_nat (length (all_entries L)) <= 65535 -> is_u32 v ->
  NoDup (snd <$> all_entries L) -> (v, id) ∈ all_entries L ->
  exists L', remove_from_buckets (enc f <$> L) f v id = Ok (enc f <$> L') /\
    Forall bucket_ok L' /\ StronglySorted below L' /\ all_entries L ≡ₚ (v, id) :: all_entries L'.
Proof. intros. by apply remove_from_buckets_spec. Qed.

(** [range] over an inverted table that is exactly a well-formed sorted
    chain of buckets of [f] (each of at most 65535 entries) returns the ids
    of the entries whose value lies in [min_val, max_val]. *)
Theorem range_chain (st : state) (L : list Bucket.t) (mn mx : Z) :
  inverted st = enc f <$> L -> Forall bucket_ok L -> StronglySorted below L ->
  Forall (fun b => Z.of_nat (length (ids b)) <= 65535) L -> is_u32 mn ->
  exists R, range st f mn mx = Ok R /\
    forall x, x ∈ R <-> exists v, (v, x) ∈ all_entries L /\ mn <= v <= mx.
Proof. intros. by apply range_spec. Qed.

(** On a state built by puts and removes on [f] alone with ids from a set
    [I] of at most 65535 ids of 32 bits, a [put] of an id of [I] succeeds
    and updates the forward entry of [(f, id)] only. *)
Theorem put_single_field (st : state) (id v : Z) :
  set_Forall is_u32 I -> Z.of_nat (size I) <= 65535 -> reachable_on f I st ->
  id ∈ I -> is_u32 v ->
  exists st', put st f id v = Ok st' /\ reachable_on f I st' /\
    forward st' = <[make_forward_key f id := v]> (forward st).
Proof.
  intros HI32 HIsz Hr Hid Hv. destruct (reachable_on_inv f I HI32 HIsz st Hr) as [L HL].
  destruct (put_inv f I HI32 HIsz st L id v HL Hid Hv) as (st' & L' & Hp & _ & Hfw).
  exists st'. split; [exact Hp|]. split; [|exact Hfw]. eapply ro_put; eauto.
Qed.

(** On such a state a [remove] of an id of [I] succeeds and deletes the
    forward entry of [(f, id)] only. *)
Theorem remove_single_field (st : state) (id : Z) :
  set_Forall is_u32 I -> Z.of_nat (size I) <= 65535 -> reachable_on f I st -> id ∈ I ->
  exists st', remove st f id = Ok st' /\ reachable_on f I st' /\
    forward st' = delete (make_forward_key f id) (forward st).
Proof.
  intros HI32 HIsz Hr Hid. destruct (reachable_on_inv f I HI32 HIsz st Hr) as [L HL].
  destruct (remove_inv f I HI32 HIsz st L id HL Hid) as (st' & L' & Hp & _ & Hfw).
  exists st'. split; [exact Hp|]. split; [|exact Hfw]. eapply ro_remove; eauto.
Qed.

(** On such a state [range(f, min, max)] succeeds and returns exactly the
    ids whose forward value for [f] lies in [min, max]. *)
Theorem range_single_field (st : state) (mn mx : Z) :
  set_Forall is_u32 I -> Z.of_nat (size I) <= 65535 -> reachable_on f I st -> is_u32 mn ->
  exists R, range st f mn mx = Ok R /\
    forall x, x ∈ R <-> is_u32 x /\ exists v, forward st !! make_forward_key f x = Some v /\ mn <= v <= mx.
Proof.
  intros HI32 HIsz Hr Hmn. destruct (reachable_on_inv f I HI32 HIsz st Hr) as [L HL].
  exact (range_inv st L mn mx HIsz HL Hmn).
Qed.

(** On such a state the two queries agree: [check_range(f, id, min, max)]
    holds exactly for the 32-bit ids in [range(f, min, max)]. *)
Theorem check_range_agrees (st : state) (mn mx : Z) :
  set_Forall is_u32 I -> Z.of_nat (size I) <= 65535 -> reachable_on f I st -> is_u32 mn ->
  exists R, range st f mn mx = Ok R /\
    forall x, is_u32 x -> x ∈ R <-> check_range st f x mn mx = true.
Proof.
  intros HI32 HIsz Hr Hmn. destruct (reachable_on_inv f I HI32 HIsz st Hr) as [L HL].
  destruct (range_inv st L mn mx HIsz HL Hmn) as (R & HR & Hspec).
  exists R. split; [exact HR|]. intros x Hx. rewrite Hspec. unfold check_range.
  destruct (forward st !! make_forward_key f x) as [v|].
  - rewrite andb_true_iff, !Z.leb_le. split; [intros (_ & v' & Ev & Hr'); injection Ev as <-; lia|].
    intros Hr'. split; [exact Hx|]. by exists v.
  - split; [intros (_ & v' & Ev & _); discriminate|discriminate].
Qed.

(** On such a state the forward and the inverted index agree: each id of
    [f] with forward value [v] is held by exactly one bucket of [f], whose
    base is at most [v], with delta [v - base]. *)
Theorem consistent_single_field (st : state) :
  set_Forall is_u32 I -> Z.of_nat (size I) <= 65535 -> reachable_on f I st -> consistent st f.
Proof.
  intros HI32 HIsz Hr id v Hid Hfv. destruct (reachable_on_inv f I HI32 HIsz st Hr) as [L HL].
  pose proof (bucket_sizes st L HL) as Hsz. destruct HL as (Hinv & Hok & Hs & Hnd & HI & Hfw).
  rewrite Forall_forall in Hok, Hsz.
  apply (Hfw id v Hid) in Hfv. destruct (elem_of_all_entries _ _ Hfv) as (b & Hb & Heb).
  pose proof (Hok b Hb) as Hbok. pose proof (Hsz b Hb) as Hbsz.
  exists (enc f b), b. split; [rewrite Hinv; apply list_elem_of_fmap; by exists b|].
  split; [apply field_bucket_enc; [exact Hbok|lia]|].
  split.
  { pose proof (bucket_ok_entries b Hbok) as HF. rewrite Forall_forall in HF.
    destruct (HF _ Heb) as [Hle _]. simpl in Hle. lia. }
  split; [by apply entries_lookup|].
  assert (Hidb : id ∈ ids b).
  { rewrite <- (entries_ids b (proj1 Hbok)). apply (list_elem_of_fmap_2' snd _ (v, id)); [exact Heb|done]. }
  intros e' b' He' Hfb Hid'. rewrite Hinv in He'. apply list_elem_of_fmap in He' as (c & -> & Hc).
  rewrite field_bucket_enc in Hfb by (apply Hok, Hc || (pose proof (Hsz c Hc); lia)).
  injection Hfb as <-. f_equal. apply (shared_id L c b id); [by apply Forall_forall|exact Hnd|exact Hc|exact Hb|exact Hid'|exact Hidb].
Qed.

(** A run of puts on [f], with ids of [I] and 32-bit values, from a state
    built on [f] alone leads to such a state. *)
Lemma run_from_reachable_on (st st' : state) (ops : list (string * Z * Z)) :
  reachable_on f I st -> Forall (fun op => op.1.1 = f /\ op.1.2 ∈ I /\ is_u32 op.2) ops ->
  run_from st ops = Ok st' -> reachable_on f I st'.
Proof.
  revert st. induction ops as [|[[g id] v] ops IH]; intros st Hr Hops Hrun.
  - simpl in Hrun. injection Hrun as <-. exact Hr.
  - apply Forall_cons in Hops as [(Hg & Hid & Hv) Hops]. simpl in Hg, Hid, Hv. subst g.
    simpl in Hrun. destruct (put st f id v) as [s1|e] eqn:Hp; [|discriminate].
    apply (IH s1); [eapply ro_put; eauto|exact Hops|exact Hrun].
Qed.

End Field.

(** Concrete instances, run with the list codec. *)
#[local] Existing Instance ListCodec.codec.

Ltac eval_decide := match goal with |- ?P => apply (bool_decide_unpack P); vm_compute; exact I end.

Lemma chains_ok :
  Forall bucket_ok [Samples.low; Samples.high] /\ StronglySorted below [Samples.low; Samples.high] /\
  Forall bucket_ok [Samples.two_runs; Samples.high] /\
  StronglySorted below [Samples.two_runs; Samples.high] /\ Forall bucket_ok [Samples.small].
Proof. unfold bucket_ok, below. split; [|split; [|split; [|split]]]; eval_decide. Qed.

Lemma locate_covering_witness :
  locate (enc "y"%string <$> [Samples.low; Samples.high]) "y"%string 100002 = Some 1%nat /\
  locate (enc "y"%string <$> [Samples.low; Samples.high]) "y"%string 50 = Some 0%nat /\
  locate (enc "y"%string <$> [Samples.low; Samples.high]) "y"%string 10 = None.
Proof.
  destruct chains_ok as (Hok & Hs & _). split; [|split].
  - refine (proj1 (locate_covering "y"%string _ 100002 Hok Hs ltac:(eval_decide))
                  [Samples.low] Samples.high [] eq_refl _ _); [simpl; lia|constructor].
  - refine (proj1 (locate_covering "y"%string _ 50 Hok Hs ltac:(eval_decide))
                  [] Samples.low [Samples.high] eq_refl _ _); [simpl; lia|eval_decide].
  - apply (proj2 (locate_covering "y"%string _ 10 Hok Hs ltac:(eval_decide))). eval_decide.
Defined.

Lemma scan_bucket_exact_witness :
  2 ∈ scan_bucket Samples.small 104 106 ∅.
Proof.
  destruct chains_ok as (_ & _ & _ & _ & Hok). apply Forall_inv in Hok.
  apply (proj2 (scan_bucket_exact Samples.small 104 106 ∅ Hok 2)).
  right. exists 105. split; [eval_decide|lia].
Defined.

(** A new bucket below the chain, and the split of a saturated bucket. *)
Lemma add_to_buckets_chain_witness :
  (exists L', add_to_buckets (enc "y"%string <$> [Samples.low; Samples.high]) "y"%string 10 9 =
                Ok (enc "y"%string <$> L') /\
     Forall bucket_ok L' /\ StronglySorted below L' /\
     all_entries L' ≡ₚ (10, 9) :: all_entries [Samples.low; Samples.high]) /\
  (exists L', add_to_buckets (enc "y"%string <$> [Samples.two_runs; Samples.high]) "y"%string 12 5000 =
                Ok (enc "y"%string <$> L') /\
     Forall bucket_ok L' /\ StronglySorted below L' /\
     all_entries L' ≡ₚ (12, 5000) :: all_entries [Samples.two_runs; Samples.high]).
Proof.
  destruct chains_ok as (Hok & Hs & Hok2 & Hs2 & _). split.
  - apply (add_to_buckets_chain "y"%string _ 10 9 Hok Hs); eval_decide.
  - apply (add_to_buckets_chain "y"%string _ 12 5000 Hok2 Hs2); eval_decide.
Defined.

(** The first removal empties and deletes the bucket [low]. *)
Lemma remove_from_buckets_chain_witness :
  (exists L', remove_from_buckets (enc "y"%string <$> [Samples.low; Samples.high]) "y"%string 42 2 =
                Ok (enc "y"%string <$> L') /\
     Forall bucket_ok L' /\ StronglySorted below L' /\
     all_entries [Samples.low; Samples.high] ≡ₚ (42, 2) :: all_entries L') /\
  (exists L', remove_from_buckets (enc "y"%string <$> [Samples.low; Samples.high]) "y"%string 100005 3 =
                Ok (enc "y"%string <$> L') /\
     Forall bucket_ok L' /\ StronglySorted below L' /\
     all_entries [Samples.low; Samples.high] ≡ₚ (100005, 3) :: all_entries L').
Proof.
  destruct chains_ok as (Hok & Hs & _). split.
  - apply (remove_from_buckets_chain "y"%string _ 42 2 Hok Hs); eval_decide.
  - apply (remove_from_buckets_chain "y"%string _ 100005 3 Hok Hs); eval_decide.
Defined.

(** A range over both buckets, and one that starts past the last key. *)
Lemma range_chain_witness :
  (exists R, range (mkState ∅ (enc "y"%string <$> [Samples.low; Samples.high])) "y"%string 40 100003 = Ok R /\
     forall x, x ∈ R <-> exists v, (v, x) ∈ all_entries [Samples.low; Samples.high] /\ 40 <= v <= 100003) /\
  (exists R, range (mkState ∅ (enc "y"%string <$> [Samples.low; Samples.high])) "y"%string 100001 100010 = Ok R /\
     forall x, x ∈ R <-> exists v, (v, x) ∈ all_entries [Samples.low; Samples.high] /\ 100001 <= v <= 100010).
Proof.
  destruct chains_ok as (Hok & Hs & _). split.
  - apply (range_chain "y"%string (mkState ∅ (enc "y"%string <$> [Samples.low; Samples.high]))
             _ 40 100003 eq_refl Hok Hs); eval_decide.
  - apply (range_chain "y"%string (mkState ∅ (enc "y"%string <$> [Samples.low; Samples.high]))
             _ 100001 100010 eq_refl Hok Hs); eval_decide.
Defined.

Lemma trace_y_reachable :
  exists st, run Samples.trace_y = Ok st /\ reachable_on "y"%string Samples.ids_y st /\
    set_Forall is_u32 Samples.ids_y /\ Z.of_nat (size Samples.ids_y) <= 65535.
Proof.
  destruct (run Samples.trace_y) as [st|e] eqn:E; [|vm_compute in E; discriminate].
  exists st. split; [reflexivity|]. split; [|split; eval_decide].
  apply (run_from_reachable_on "y"%string Samples.ids_y empty_state st Samples.trace_y);
    [apply ro_init|eval_decide|exact E].
Qed.

(** Id 2 moves from the bucket [42] to the bucket [100000]. *)
Lemma put_single_field_witness :
  exists st, run Samples.trace_y = Ok st /\
    exists st', put st "y"%string 2 100007 = Ok st' /\ reachable_on "y"%string Samples.ids_y st' /\
      forward st' = <[make_forward_key "y"%string 2 := 100007]> (forward st).
Proof.
  destruct trace_y_reachable as (st & Hrun & Hr & H32 & Hsz). exists st. split; [exact Hrun|].
  apply (put_single_field "y"%string Samples.ids_y st 2 100007 H32 Hsz Hr); eval_decide.
Defined.

Lemma remove_single_field_witness :
  exists st, run Samples.trace_y = Ok st /\
    exists st', remove st "y"%string 2 = Ok st' /\ reachable_on "y"%string Samples.ids_y st' /\
      forward st' = delete (make_forward_key "y"%string 2) (forward st).
Proof.
  destruct trace_y_reachable as (st & Hrun & Hr & H32 & Hsz). exists st. split; [exact Hrun|].
  apply (remove_single_field "y"%string Samples.ids_y st 2 H32 Hsz Hr); eval_decide.
Defined.

Lemma range_single_field_witness :
  exists st, run Samples.trace_y = Ok st /\
    exists R, range st "y"%string 40 100003 = Ok R /\
      forall x, x ∈ R <-> is_u32 x /\
        exists v, forward st !! make_forward_key "y"%string x = Some v /\ 40 <= v <= 100003.
Proof.
  destruct trace_y_reachable as (st & Hrun & Hr & H32 & Hsz). exists st. split; [exact Hrun|].
  apply (range_single_field "y"%string Samples.ids_y st 40 100003 H32 Hsz Hr); eval_decide.
Defined.

Lemma check_range_agrees_witness :
  exists st, run Samples.trace_y = Ok st /\
    exists R, range st "y"%string 40 100003 = Ok R /\
      forall x, is_u32 x -> x ∈ R <-> check_range st "y"%string x 40 100003 = true.
Proof.
  destruct trace_y_reachable as (st & Hrun & Hr & H32 & Hsz). exists st. split; [exact Hrun|].
  apply (check_range_agrees "y"%string Samples.ids_y st 40 100003 H32 Hsz Hr); eval_decide.
Defined.

Lemma consistent_single_field_witness :
  exists st, run Samples.trace_y = Ok st /\ consistent st "y"%string.
Proof.
  destruct trace_y_reachable as (st & Hrun & Hr & H32 & Hsz). exists st. split; [exact Hrun|].
  exact (consistent_single_field "y"%string Samples.ids_y st H32 Hsz Hr).
Defined.

End ExtraIndexFacts.
